(** * Ping-pong benchmark (3_pingpong.py): model and verification

    The development embeds the ping-pong benchmark of [3_pingpong.py]:

    - [Chan]: the single-slot queues ([queue.Queue(maxsize=1)] and
      [asyncio.Queue(maxsize=1)]) with blocking [put] / [get];
    - [Worker]: the bodies of [pinger] and [ponger] as program counters and
      an atomic step function, shared by both variants;
    - [Threads]: [pingpong_threads], an interleaving semantics driven by an
      explicit schedule (which actor runs next, and how much time passes);
    - [Aio]: [pingpong_asyncio], a cooperative semantics in which the chosen
      task runs until its next blocking channel operation;
    - [Runner]: [parse_pairs] and the measurement loop of [main].

    Two smaller scripts of the repository are embedded beside it:

    - [FreeThread]: [cpu_bound_task] of [1_free_thread.py];
    - [Bench]: the variants, [run_variant] and the loop that fills the
      table of results in [2_bench_sync_async.py].  The two timed
      primitives ([run_threadpool], [run_asyncio_in_new_loop]) are an
      oracle: the [k]-th timed call of a run returns an elapsed time or
      raises.

    Modelling decisions.

    - Schedulers are not modelled; properties are proved for every
      schedule.  A schedule may only pick an actor that can move: a thread
      blocked in [put], [get], [wait] or [join] takes no step.
    - Time is a logical clock in integer ticks; [now()] reads it, and the
      schedule advances it by a natural number of ticks before every step
      ([time.perf_counter] is monotonic).
    - The elapsed times seen by [main] are binary64 floats, and so is
      the arithmetic of [main]: an [int] operand is converted with
      rounding to nearest even (or [OverflowError]), a division by zero
      raises, quotients are rounded as IEEE 754 says, and [int(x)]
      truncates (or raises for an infinity or a NaN).  The benchmark calls
      themselves and the matplotlib calls of [plot_speedup] are oracles:
      they return or raise.  Printing is assumed not to fail.
    - Strings are sequences of code points below 256. *)

From Stdlib Require Import ZArith String Ascii SpecFloat.
From stdpp Require Import base tactics option list gmap sorting.

Local Open Scope Z_scope.

(* ===================================================================== *)
(** ** Channels *)
(* ===================================================================== *)

Module Chan.

(** A FIFO queue with a capacity.  [put_log] and [get_log] are ghost
    fields: the values handed to completed [put]s and returned by
    completed [get]s, oldest first. *)
Record queue := Queue {
  items : list Z;
  maxsize : Z;
  put_log : list Z;
  get_log : list Z
}.

Definition new_queue (m : Z) : queue := Queue [] m [] [].

(** [Queue.full()]: a non-positive [maxsize] means "unbounded". *)
Definition full (q : queue) : bool :=
  (0 <? maxsize q) && (maxsize q <=? Z.of_nat (length (items q))).

Definition empty (q : queue) : bool :=
  match items q with [] => true | _ => false end.

(** [put] and [get] return [None] when the caller has to block. *)
Definition put (v : Z) (q : queue) : option queue :=
  if full q then None
  else Some (Queue (items q ++ [v]) (maxsize q) (put_log q ++ [v]) (get_log q)).

Definition get (q : queue) : option (Z * queue) :=
  match items q with
  | [] => None
  | v :: rest => Some (v, Queue rest (maxsize q) (put_log q) (get_log q ++ [v]))
  end.

Definition n_puts (q : queue) : Z := Z.of_nat (length (put_log q)).
Definition n_gets (q : queue) : Z := Z.of_nat (length (get_log q)).
Definition n_ops (q : queue) : Z := n_puts q + n_gets q.

End Chan.

(* ===================================================================== *)
(** ** Pinger and ponger *)
(* ===================================================================== *)

Module Worker.
Import Chan.

Inductive role := Pinger | Ponger.

(** Program counter of a worker.  [PcStart] is the entry of the function,
    [PcWait] is "inside [start.wait()]" (thread variant only); [PcPut i v]
    and [PcGet i] are the two channel operations of iteration [i]. *)
Inductive pc :=
| PcStart
| PcWait
| PcPut (i : Z) (v : Z)
| PcGet (i : Z)
| PcDone.

(** Head of [for i in range(iters)]. *)
Definition loop_head (iters : Z) (r : role) (i : Z) : pc :=
  if i <? iters then
    match r with Pinger => PcPut i i | Ponger => PcGet i end
  else PcDone.

(** One channel operation of a worker on the pair's queues [q1] and [q2];
    [None] when the operation blocks (or the worker is not in its loop). *)
Definition wstep (iters : Z) (r : role) (p : pc) (q1 q2 : queue)
  : option (pc * queue * queue) :=
  match r, p with
  | Pinger, PcPut i v =>
      q1' ← put v q1; Some (PcGet i, q1', q2)
  | Pinger, PcGet i =>
      '(_, q2') ← get q2; Some (loop_head iters Pinger (i + 1), q1, q2')
  | Ponger, PcGet i =>
      '(v, q1') ← get q1; Some (PcPut i v, q1', q2)
  | Ponger, PcPut i v =>
      q2' ← put v q2; Some (loop_head iters Ponger (i + 1), q1, q2')
  | _, _ => None
  end.

(** A pair: its two queues and the program counters of its two workers. *)
Record pair := Pair {
  q1 : queue;
  q2 : queue;
  ping : pc;
  pong : pc
}.

Definition worker_pc (r : role) (p : pair) : pc :=
  match r with Pinger => ping p | Ponger => pong p end.

Definition set_pc (r : role) (c : pc) (p : pair) : pair :=
  match r with
  | Pinger => Pair (q1 p) (q2 p) c (pong p)
  | Ponger => Pair (q1 p) (q2 p) (ping p) c
  end.

Definition is_done (c : pc) : bool :=
  match c with PcDone => true | _ => false end.

(** Past the entry of the function; inside (or past) the loop. *)
Definition has_arrived (c : pc) : bool :=
  match c with PcStart => false | _ => true end.

Definition in_loop (c : pc) : bool :=
  match c with PcStart | PcWait => false | _ => true end.

Definition pair_done (p : pair) : bool := is_done (ping p) && is_done (pong p).

(** The worker [r] of pair [p] performs one channel operation. *)
Definition pair_step (iters : Z) (r : role) (p : pair) : option pair :=
  '(c, a, b) ← wstep iters r (worker_pc r p) (q1 p) (q2 p);
  Some (set_pc r c (Pair a b (ping p) (pong p))).

(** Channel operations performed so far on the channels of a pair. *)
Definition ops_A (p : pair) : Z := n_ops (q1 p).
Definition ops_B (p : pair) : Z := n_ops (q2 p).
Definition pair_ops (p : pair) : Z := ops_A p + ops_B p.

Definition total (f : pair -> Z) (ps : list pair) : Z :=
  foldr (fun p acc => f p + acc) 0 ps.

(** *** The alternation invariant *)

(** A worker that has not entered its loop yet behaves, as far as the
    channels are concerned, like one standing at the loop head. *)
Definition eff (iters : Z) (r : role) (c : pc) : pc :=
  match c with
  | PcStart | PcWait => loop_head iters r 0
  | _ => c
  end.

(** The four phases of iteration [i] and the final phase, with the
    contents and the history of both channels. *)
Inductive sync (iters : Z) : pc -> pc -> queue -> queue -> Prop :=
| sync_put1 i :
    0 <= i < iters ->
    sync iters (PcPut i i) (PcGet i)
      (Queue [] 1 (seqZ 0 i) (seqZ 0 i)) (Queue [] 1 (seqZ 0 i) (seqZ 0 i))
| sync_get1 i :
    0 <= i < iters ->
    sync iters (PcGet i) (PcGet i)
      (Queue [i] 1 (seqZ 0 (i + 1)) (seqZ 0 i)) (Queue [] 1 (seqZ 0 i) (seqZ 0 i))
| sync_put2 i :
    0 <= i < iters ->
    sync iters (PcGet i) (PcPut i i)
      (Queue [] 1 (seqZ 0 (i + 1)) (seqZ 0 (i + 1))) (Queue [] 1 (seqZ 0 i) (seqZ 0 i))
| sync_get2 i :
    0 <= i < iters ->
    sync iters (PcGet i) (loop_head iters Ponger (i + 1))
      (Queue [] 1 (seqZ 0 (i + 1)) (seqZ 0 (i + 1)))
      (Queue [i] 1 (seqZ 0 (i + 1)) (seqZ 0 i))
| sync_end :
    sync iters PcDone PcDone
      (Queue [] 1 (seqZ 0 iters) (seqZ 0 iters))
      (Queue [] 1 (seqZ 0 iters) (seqZ 0 iters)).

Definition pair_inv (iters : Z) (p : pair) : Prop :=
  sync iters (eff iters Pinger (ping p)) (eff iters Ponger (pong p)) (q1 p) (q2 p).

Definition other (r : role) : role :=
  match r with Pinger => Ponger | Ponger => Pinger end.

(** Once both workers are done, every channel has seen exactly the values
    [0 .. iters-1], put and got in that order. *)
Definition settled (iters : Z) (p : pair) : Prop :=
  items (q1 p) = [] /\ items (q2 p) = [] /\
  put_log (q1 p) = seqZ 0 iters /\ get_log (q1 p) = seqZ 0 iters /\
  put_log (q2 p) = seqZ 0 iters /\ get_log (q2 p) = seqZ 0 iters.

(** *** Remaining work of a worker (a termination measure) *)

Definition wrem (iters : Z) (r : role) (c : pc) : nat :=
  match c, r with
  | PcStart, _ => 2 * Z.to_nat iters + 4
  | PcWait, _ => 2 * Z.to_nat iters + 3
  | PcPut i _, Pinger | PcGet i, Ponger => 2 * Z.to_nat (iters - i) + 2
  | PcGet i, Pinger | PcPut i _, Ponger => 2 * Z.to_nat (iters - i) + 1
  | PcDone, _ => 0
  end.

Definition pair_rem (iters : Z) (p : pair) : nat :=
  wrem iters Pinger (ping p) + wrem iters Ponger (pong p).

(** *** What a finished run has done *)

(** Exactly [iters] puts and [iters] gets on each of the two channels. *)
Definition exact_counts (iters : Z) (p : pair) : Prop :=
  n_puts (q1 p) = iters /\ n_gets (q1 p) = iters /\
  n_puts (q2 p) = iters /\ n_gets (q2 p) = iters.

(** [n_pairs] pairs, each with exact counts; [2 * iters] operations per
    channel and pair, [n_pairs * (2 * iters)] over all first channels and
    over all second channels. *)
Definition run_counts (iters n_pairs : Z) (ps : list pair) : Prop :=
  Z.of_nat (length ps) = n_pairs /\
  Forall (exact_counts iters) ps /\
  Forall (fun p => ops_A p = 2 * iters /\ ops_B p = 2 * iters) ps /\
  total ops_A ps = n_pairs * (2 * iters) /\
  total ops_B ps = n_pairs * (2 * iters).

(** The gets of a channel returned the values [0 .. iters-1] in this
    order, and these are the values that were put, in the same order. *)
Definition fifo_complete (iters : Z) (q : queue) : Prop :=
  put_log q = seqZ 0 iters /\ get_log q = seqZ 0 iters.

(** At any moment: what was got is what was put, in order, except for the
    values still in the queue. *)
Definition fifo_prefix (q : queue) : Prop :=
  put_log q = get_log q ++ items q /\ (length (items q) <= 1)%nat.

(** *** Lockstep of the two workers of a pair *)

(** Channel operations completed by one worker: the pinger puts on the
    first channel and gets from the second, the ponger the other way. *)
Definition ops_by (r : role) (p : pair) : Z :=
  match r with
  | Pinger => n_puts (q1 p) + n_gets (q2 p)
  | Ponger => n_gets (q1 p) + n_puts (q2 p)
  end.

(** At most one token is in flight, and the four counters of a pair follow
    each other in a ring: gets on the second channel, puts on it, gets on
    the first channel, puts on it, never more than one apart. *)
Definition lockstep (p : pair) : Prop :=
  (length (items (q1 p)) + length (items (q2 p)) <= 1)%nat /\
  n_gets (q2 p) <= n_puts (q2 p) /\
  n_puts (q2 p) <= n_gets (q1 p) /\
  n_gets (q1 p) <= n_puts (q1 p) /\
  n_puts (q1 p) <= n_gets (q2 p) + 1.

(** The one state a pair can finish in. *)
Definition final_pair (iters : Z) : pair :=
  let q := Queue [] 1 (seqZ 0 iters) (seqZ 0 iters) in
  Pair q q PcDone PcDone.

End Worker.

(* ===================================================================== *)
(** ** pingpong_threads *)
(* ===================================================================== *)

Module Threads.
Import Chan Worker.

(** Program counter of the driver, after the [add_pair] loop:
    [DStart k] is [threads[k].start()], [DNow0] is [t0 = now()],
    [DArrive]/[DWait] are the two halves of [start.wait()],
    [DJoin k] is [threads[k].join()], [DNow1] is [return now() - t0]. *)
Inductive dpc :=
| DStart (k : nat)
| DNow0
| DArrive
| DWait
| DJoin (k : nat)
| DNow1
| DRet.

Record state := State {
  clock : Z;
  driver : dpc;
  arrived : Z;            (* threads inside or past [start.wait()] *)
  parties : Z;            (* [threading.Barrier(parties)] *)
  t0 : option Z;
  ret : option Z;
  pairs : list pair
}.

(** [threads] holds the pinger of pair [j] at index [2j] and its ponger at
    index [2j+1]. *)
Definition pair_of (i : nat) : nat := Nat.div i 2.
Definition role_of (i : nat) : role := if Nat.even i then Pinger else Ponger.
Definition n_threads (s : state) : nat := (2 * length (pairs s))%nat.

Definition start_head (n k : nat) : dpc :=
  if (k <? n)%nat then DStart k else DNow0.
Definition join_head (n k : nat) : dpc :=
  if (k <? n)%nat then DJoin k else DNow1.

Definition thread_started (d : dpc) (i : nat) : bool :=
  match d with DStart k => (i <? k)%nat | _ => true end.

Definition thread_pc (s : state) (i : nat) : option pc :=
  worker_pc (role_of i) <$> pairs s !! pair_of i.

(** The state after [start = threading.Barrier(2 * pairs + 1)] and the
    [add_pair] loop: [range(pairs)] pairs with fresh queues, no thread
    started, nobody at the barrier.  [c0] is the clock at that moment. *)
Definition init (c0 : Z) (iters n_pairs : Z) : state :=
  let ps := replicate (Z.to_nat n_pairs) (Pair (new_queue 1) (new_queue 1) PcStart PcStart) in
  State c0 (start_head (2 * length ps) 0) 0 (2 * n_pairs + 1) None None ps.

Definition set_driver (d : dpc) (s : state) : state :=
  State (clock s) d (arrived s) (parties s) (t0 s) (ret s) (pairs s).

Definition set_pair (j : nat) (p : pair) (s : state) : state :=
  State (clock s) (driver s) (arrived s) (parties s) (t0 s) (ret s) (<[j := p]> (pairs s)).

Definition arrive (s : state) : state :=
  State (clock s) (driver s) (arrived s + 1) (parties s) (t0 s) (ret s) (pairs s).

(** [Barrier.wait()]: the caller is counted, then blocks until the count
    has reached [parties].  Every party waits once, so the count is never
    reset. *)
Definition barrier_open (s : state) : bool := arrived s =? parties s.

Definition driver_step (s : state) : option state :=
  match driver s with
  | DStart k => Some (set_driver (start_head (n_threads s) (S k)) s)
  | DNow0 =>
      Some (State (clock s) DArrive (arrived s) (parties s) (Some (clock s)) (ret s) (pairs s))
  | DArrive => Some (set_driver DWait (arrive s))
  | DWait =>
      if barrier_open s then Some (set_driver (join_head (n_threads s) 0) s) else None
  | DJoin k =>
      c ← thread_pc s k;
      if is_done c then Some (set_driver (join_head (n_threads s) (S k)) s) else None
  | DNow1 =>
      a ← t0 s;
      Some (State (clock s) DRet (arrived s) (parties s) (t0 s) (Some (clock s - a)) (pairs s))
  | DRet => None
  end.

Definition thread_step (iters : Z) (i : nat) (s : state) : option state :=
  if thread_started (driver s) i then
    p ← pairs s !! pair_of i;
    let r := role_of i in
    match worker_pc r p with
    | PcStart => Some (set_pair (pair_of i) (set_pc r PcWait p) (arrive s))
    | PcWait =>
        if barrier_open s
        then Some (set_pair (pair_of i) (set_pc r (loop_head iters r 0) p) s)
        else None
    | _ => p' ← pair_step iters r p; Some (set_pair (pair_of i) p' s)
    end
  else None.

Inductive actor := Driver | Thread (i : nat).

Definition tick (dt : nat) (s : state) : state :=
  State (clock s + Z.of_nat dt) (driver s) (arrived s) (parties s) (t0 s) (ret s) (pairs s).

(** One scheduling decision: [dt] ticks pass, then actor [a] takes one
    step.  [None] when [a] cannot run (blocked, finished or not started). *)
Definition step (iters : Z) (e : actor * nat) (s : state) : option state :=
  match e.1 with
  | Driver => driver_step (tick e.2 s)
  | Thread i => thread_step iters i (tick e.2 s)
  end.

Fixpoint run (iters : Z) (sched : list (actor * nat)) (s : state) : option state :=
  match sched with
  | [] => Some s
  | e :: rest => s' ← step iters e s; run iters rest s'
  end.

Definition reachable (c0 iters n_pairs : Z) (s : state) : Prop :=
  ∃ sched, run iters sched (init c0 iters n_pairs) = Some s.

Definition completed (s : state) : Prop := driver s = DRet.

(** A scheduler that always runs the first actor able to move. *)
Definition actors (s : state) : list actor :=
  Driver :: (Thread <$> seq 0 (n_threads s)).

Definition first_enabled (iters : Z) (dt : nat) (s : state) : option state :=
  list_find (fun a => is_Some (step iters (a, dt) s)) (actors s)
    ≫= fun '(_, a) => step iters (a, dt) s.

Fixpoint run_fair (iters : Z) (fuel : nat) (dt : nat) (s : state) : state :=
  match fuel with
  | O => s
  | S f =>
      match first_enabled iters dt s with
      | Some s' => run_fair iters f dt s'
      | None => s
      end
  end.

(** [pingpong_threads(iters, pairs)] under the first-enabled scheduler:
    the value returned, if the run completes within [fuel] steps. *)
Definition pingpong_threads (c0 : Z) (dt : nat) (fuel : nat) (iters n_pairs : Z) : option Z :=
  ret (run_fair iters fuel dt (init c0 iters n_pairs)).

(** *** Invariants of the thread variant *)

Definition idx (j : nat) (r : role) : nat :=
  (2 * j + match r with Pinger => 0 | Ponger => 1 end)%nat.

Definition driver_arrived (d : dpc) : Z :=
  match d with DStart _ | DNow0 | DArrive => 0 | _ => 1 end.

Definition driver_passed (d : dpc) : bool :=
  match d with DJoin _ | DNow1 | DRet => true | _ => false end.

Definition joined (d : dpc) (i : nat) : bool :=
  match d with DJoin k => (i <? k)%nat | DNow1 | DRet => true | _ => false end.

Definition arrivals (p : pair) : Z :=
  Z.b2z (has_arrived (ping p)) + Z.b2z (has_arrived (pong p)).

Record inv (iters n_pairs : Z) (s : state) : Prop := Inv {
  inv_len : length (pairs s) = Z.to_nat n_pairs;
  inv_parties : parties s = 2 * n_pairs + 1;
  inv_pairs : Forall (pair_inv iters) (pairs s);
  inv_arrived : arrived s = total arrivals (pairs s) + driver_arrived (driver s);
  inv_unstarted : forall j p r,
    pairs s !! j = Some p -> thread_started (driver s) (idx j r) = false ->
    worker_pc r p = PcStart;
  inv_open : forall j p r,
    pairs s !! j = Some p -> in_loop (worker_pc r p) = true ->
    arrived s = parties s;
  inv_passed : driver_passed (driver s) = true -> arrived s = parties s;
  inv_joined : forall j p r,
    pairs s !! j = Some p -> joined (driver s) (idx j r) = true ->
    worker_pc r p = PcDone;
  inv_t0 :
    match driver s with
    | DStart _ | DNow0 => t0 s = None
    | _ => exists a, t0 s = Some a /\ a <= clock s
    end;
  inv_ret :
    match driver s with
    | DRet => exists a, t0 s = Some a /\ a <= clock s /\ exists c, a <= c <= clock s /\ ret s = Some (c - a)
    | _ => ret s = None
    end;
  inv_range :
    match driver s with
    | DStart k | DJoin k => (k < n_threads s)%nat
    | _ => True
    end
}.

(** *** Termination measure of the thread variant *)

Definition drem (n : nat) (d : dpc) : nat :=
  match d with
  | DStart k => 6 + n + (n - k)
  | DNow0 => 5 + n
  | DArrive => 4 + n
  | DWait => 3 + n
  | DJoin k => 2 + (n - k)
  | DNow1 => 1
  | DRet => 0
  end.

Definition rem_total (iters : Z) (ps : list pair) : nat :=
  foldr (fun p acc => (pair_rem iters p + acc)%nat) O ps.

Definition measure (iters : Z) (s : state) : nat :=
  (drem (n_threads s) (driver s) + rem_total iters (pairs s))%nat.

(** Number of steps no run of [pingpong_threads(iters, n_pairs)] exceeds. *)
Definition bound (iters n_pairs : Z) : nat := measure iters (init 0 iters n_pairs).

(** *** Termination of the thread variant, as a statement *)

(** Every run from the initial state is finite, with at most [bound]
    steps; a state in which no actor can move is one where the driver has
    returned; when the driver has returned, every worker has left its loop
    and the value returned is a non-negative elapsed time; and the
    first-enabled scheduler does reach that state. *)
Definition terminates (c0 iters n_pairs : Z) : Prop :=
  (forall sched s, run iters sched (init c0 iters n_pairs) = Some s ->
     (length sched <= bound iters n_pairs)%nat /\
     (completed s \/ exists a, forall dt, is_Some (step iters (a, dt) s))) /\
  (forall s, reachable c0 iters n_pairs s -> completed s ->
     Forall (fun p => pair_done p = true) (pairs s) /\
     exists e, ret s = Some e /\ 0 <= e) /\
  (forall dt, exists e,
     pingpong_threads c0 dt (bound iters n_pairs) iters n_pairs = Some e /\ 0 <= e).

(** *** The measured interval of the thread variant *)

Definition is_driver (e : actor * nat) : bool :=
  match e.1 with Driver => true | Thread _ => false end.

(** The number of steps the driver takes in a schedule, and the time that
    passes during it. *)
Definition driver_steps (sched : list (actor * nat)) : nat :=
  length (List.filter is_driver sched).

Definition ticks (sched : list (actor * nat)) : Z :=
  foldr (fun e acc => Z.of_nat e.2 + acc) 0 sched.

(** The number of steps the driver has taken since [t0 = now()] when it is
    at [d], with [n] threads: the two halves of [start.wait()], then one
    [join] per thread. *)
Definition steps_since_t0 (n : nat) (d : dpc) : nat :=
  match d with
  | DWait => 1
  | DJoin k => 2 + k
  | DNow1 => 2 + n
  | _ => 0
  end.

(** How a schedule that leads from the initial state to [s] is laid out
    around the two clock readings of the driver. *)
Definition timeline (c0 iters n_pairs : Z) (sched : list (actor * nat)) (s : state)
  : Prop :=
  let n := (2 * Z.to_nat n_pairs)%nat in
  clock s = c0 + ticks sched /\
  match driver s with
  | DStart k => driver_steps sched = k /\ t0 s = None
  | DNow0 => driver_steps sched = n /\ t0 s = None
  | DRet =>
      exists pre d0 mid d1 post s0,
        sched = pre ++ (Driver, d0) :: mid ++ (Driver, d1) :: post /\
        run iters pre (init c0 iters n_pairs) = Some s0 /\
        driver s0 = DNow0 /\ driver_steps pre = n /\
        driver_steps mid = (2 + n)%nat /\ driver_steps post = 0%nat /\
        t0 s = Some (c0 + ticks pre + Z.of_nat d0) /\
        ret s = Some (ticks mid + Z.of_nat d1)
  | d =>
      exists pre d0 mid s0,
        sched = pre ++ (Driver, d0) :: mid /\
        run iters pre (init c0 iters n_pairs) = Some s0 /\
        driver s0 = DNow0 /\ driver_steps pre = n /\
        driver_steps mid = steps_since_t0 n d /\
        t0 s = Some (c0 + ticks pre + Z.of_nat d0)
  end.

End Threads.

(* ===================================================================== *)
(** ** pingpong_asyncio *)
(* ===================================================================== *)

Module Aio.
Import Chan Worker.

(** The coroutine [pingpong_asyncio] itself: [MStart] is [t0 = now()]
    followed by the creation of the [one_pair] tasks, [MWait] is the
    suspended [await asyncio.gather(...)], [MRet] is after the return. *)
Inductive mpc := MStart | MWait | MRet.

(** A [one_pair] task: created but not yet run; suspended in its own
    [gather] with its queues and its two child tasks; returned. *)
Inductive task :=
| TNew
| TRun (p : pair)
| TFin (p : pair).

Record state := State {
  clock : Z;
  main : mpc;
  t0 : option Z;
  ret : option Z;
  tasks : list task
}.

Definition init (c0 : Z) : state := State c0 MStart None None [].

Definition is_fin (t : task) : bool :=
  match t with TFin _ => true | _ => false end.

Definition task_pair (t : task) : option pair :=
  match t with TNew => None | TRun p | TFin p => Some p end.

(** The pairs whose queues exist, in task order. *)
Definition pairs (s : state) : list pair := omap task_pair (tasks s).

(** Run a worker until its next channel operation blocks or its loop
    ends: between two suspension points nothing else runs. *)
Fixpoint run_to_block (fuel : nat) (iters : Z) (r : role) (p : pair) : pair :=
  match fuel with
  | O => p
  | S f =>
      match pair_step iters r p with
      | Some p' => run_to_block f iters r p'
      | None => p
      end
  end.

(** Enough fuel for a whole worker. *)
Definition worker_fuel (iters : Z) : nat := Z.to_nat (2 * iters) + 2.

(** The step of a [pinger] or [ponger] task when the event loop runs it.
    A freshly created task is always ready; a suspended one is ready only
    if the operation it waits on can now proceed. *)
Definition worker_run (iters : Z) (r : role) (p : pair) : option pair :=
  match worker_pc r p with
  | PcStart =>
      Some (run_to_block (worker_fuel iters) iters r (set_pc r (loop_head iters r 0) p))
  | _ =>
      p' ← pair_step iters r p;
      Some (run_to_block (worker_fuel iters) iters r p')
  end.

Definition main_step (n_pairs : Z) (s : state) : option state :=
  match main s with
  | MStart =>
      Some (State (clock s) MWait (Some (clock s)) (ret s)
              (replicate (Z.to_nat n_pairs) TNew))
  | MWait =>
      if forallb is_fin (tasks s) then
        a ← t0 s;
        Some (State (clock s) MRet (t0 s) (Some (clock s - a)) (tasks s))
      else None
  | MRet => None
  end.

Definition set_task (j : nat) (t : task) (s : state) : state :=
  State (clock s) (main s) (t0 s) (ret s) (<[j := t]> (tasks s)).

(** The [one_pair] task [j]: its first run creates the queues and the two
    child tasks; it is resumed once, when both children are done. *)
Definition pair_task_step (j : nat) (s : state) : option state :=
  t ← tasks s !! j;
  match t with
  | TNew => Some (set_task j (TRun (Pair (new_queue 1) (new_queue 1) PcStart PcStart)) s)
  | TRun p => if pair_done p then Some (set_task j (TFin p) s) else None
  | TFin _ => None
  end.

Definition worker_task_step (iters : Z) (j : nat) (r : role) (s : state) : option state :=
  t ← tasks s !! j;
  match t with
  | TRun p => p' ← worker_run iters r p; Some (set_task j (TRun p') s)
  | _ => None
  end.

Inductive actor := Main | PairTask (j : nat) | WorkerTask (j : nat) (r : role).

Definition tick (dt : nat) (s : state) : state :=
  State (clock s + Z.of_nat dt) (main s) (t0 s) (ret s) (tasks s).

(** One turn of the event loop: [dt] ticks pass, then the task [a] runs
    up to its next suspension.  [None] when [a] is not ready. *)
Definition step (iters n_pairs : Z) (e : actor * nat) (s : state) : option state :=
  match e.1 with
  | Main => main_step n_pairs (tick e.2 s)
  | PairTask j => pair_task_step j (tick e.2 s)
  | WorkerTask j r => worker_task_step iters j r (tick e.2 s)
  end.

Fixpoint run (iters n_pairs : Z) (sched : list (actor * nat)) (s : state) : option state :=
  match sched with
  | [] => Some s
  | e :: rest => s' ← step iters n_pairs e s; run iters n_pairs rest s'
  end.

Definition reachable (c0 iters n_pairs : Z) (s : state) : Prop :=
  ∃ sched, run iters n_pairs sched (init c0) = Some s.

Definition completed (s : state) : Prop := main s = MRet.

(** An event loop that always runs the first ready task. *)
Definition actors (s : state) : list actor :=
  Main :: (seq 0 (length (tasks s)) ≫= fun j =>
             [PairTask j; WorkerTask j Pinger; WorkerTask j Ponger]).

Definition first_ready (iters n_pairs : Z) (dt : nat) (s : state) : option state :=
  list_find (fun a => is_Some (step iters n_pairs (a, dt) s)) (actors s)
    ≫= fun '(_, a) => step iters n_pairs (a, dt) s.

Fixpoint run_loop (iters n_pairs : Z) (fuel : nat) (dt : nat) (s : state) : state :=
  match fuel with
  | O => s
  | S f =>
      match first_ready iters n_pairs dt s with
      | Some s' => run_loop iters n_pairs f dt s'
      | None => s
      end
  end.

(** [asyncio.run(pingpong_asyncio(iters, pairs))] under the first-ready
    event loop: the value returned, if the run completes within [fuel]
    turns. *)
Definition pingpong_asyncio (c0 : Z) (dt : nat) (fuel : nat) (iters n_pairs : Z) : option Z :=
  ret (run_loop iters n_pairs fuel dt (init c0)).

(** *** Invariants of the asyncio variant *)

Definition task_inv (iters : Z) (t : task) : Prop :=
  match t with
  | TNew => True
  | TRun p =>
      pair_inv iters p /\ ping p <> PcWait /\ pong p <> PcWait
  | TFin p =>
      pair_inv iters p /\ pair_done p = true
  end.

Record inv (iters n_pairs : Z) (s : state) : Prop := Inv {
  inv_tasks : Forall (task_inv iters) (tasks s);
  inv_main :
    match main s with
    | MStart => tasks s = [] /\ t0 s = None
    | _ => length (tasks s) = Z.to_nat n_pairs /\
           exists a, t0 s = Some a /\ a <= clock s
    end;
  inv_ret :
    match main s with
    | MRet => forallb is_fin (tasks s) = true /\
              exists a c, t0 s = Some a /\ a <= c <= clock s /\ ret s = Some (c - a)
    | _ => ret s = None
    end
}.

(** *** Termination measure of the asyncio variant *)

Definition task_rem (iters : Z) (t : task) : nat :=
  match t with
  | TNew => 2 + 2 * wrem iters Pinger PcStart
  | TRun p => 1 + pair_rem iters p
  | TFin _ => 0
  end.

Definition tasks_rem (iters : Z) (ts : list task) : nat :=
  foldr (fun t acc => (task_rem iters t + acc)%nat) O ts.

Definition measure (iters n_pairs : Z) (s : state) : nat :=
  (match main s with
   | MStart => 2 + Z.to_nat n_pairs * task_rem iters TNew
   | MWait => 1
   | MRet => 0
   end + tasks_rem iters (tasks s))%nat.

(** Number of turns no run of [pingpong_asyncio(iters, n_pairs)] exceeds. *)
Definition bound (iters n_pairs : Z) : nat := measure iters n_pairs (init 0).

(** *** Termination of the asyncio variant, as a statement *)

(** Every run of the event loop from the initial state is finite, with at
    most [bound] turns; a state in which no task is ready is one where
    [pingpong_asyncio] has returned; when it has returned, every
    [one_pair] task has returned with both its workers out of their loops,
    and the value returned is a non-negative elapsed time; and the
    first-ready event loop does reach that state. *)
Definition terminates (c0 iters n_pairs : Z) : Prop :=
  (forall sched s, run iters n_pairs sched (init c0) = Some s ->
     (length sched <= bound iters n_pairs)%nat /\
     (completed s \/ exists a, forall dt, is_Some (step iters n_pairs (a, dt) s))) /\
  (forall s, reachable c0 iters n_pairs s -> completed s ->
     forallb is_fin (tasks s) = true /\
     length (pairs s) = Z.to_nat n_pairs /\
     Forall (fun p => pair_done p = true) (pairs s) /\
     exists e, ret s = Some e /\ 0 <= e) /\
  (forall dt, exists e,
     pingpong_asyncio c0 dt (bound iters n_pairs) iters n_pairs = Some e /\ 0 <= e).

End Aio.

(* ===================================================================== *)
(** ** parse_pairs and main *)
(* ===================================================================== *)

Module Runner.

Inductive exn :=
| ValueError (msg : string)
| RuntimeError (msg : string)
| KeyError (key : Z)
| OverflowError (msg : string)
| ZeroDivisionError
| OtherError (name : string).

(** *** Text: [str.split], [str.strip], [int] *)

(** Characters are code points below 256. *)
Definition is_space (c : ascii) : bool :=
  let n := nat_of_ascii c in
  ((9 <=? n) && (n <=? 13) || (28 <=? n) && (n <=? 32) || (n =? 133) || (n =? 160))%nat.

Definition is_empty (s : string) : bool :=
  match s with EmptyString => true | _ => false end.

(** [s.split(sep)] for a one-character separator. *)
Fixpoint split (sep : ascii) (s : string) : list string :=
  match s with
  | EmptyString => [EmptyString]
  | String c rest =>
      if Ascii.eqb c sep then EmptyString :: split sep rest
      else match split sep rest with
           | [] => [String c EmptyString]
           | w :: ws => String c w :: ws
           end
  end.

Fixpoint lstrip (s : string) : string :=
  match s with
  | String c rest => if is_space c then lstrip rest else s
  | EmptyString => EmptyString
  end.

Fixpoint rstrip (s : string) : string :=
  match s with
  | EmptyString => EmptyString
  | String c rest =>
      let rest' := rstrip rest in
      if is_space c && is_empty rest' then EmptyString else String c rest'
  end.

Definition strip (s : string) : string := rstrip (lstrip s).

Definition digit_val (c : ascii) : option Z :=
  let n := nat_of_ascii c in
  if ((48 <=? n) && (n <=? 57))%nat then Some (Z.of_nat n - 48) else None.

(** Decimal digits with single underscores between digits; [prev] tells
    whether the previous character was a digit. *)
Fixpoint digits (s : string) (acc : Z) (prev : bool) : option Z :=
  match s with
  | EmptyString => if prev then Some acc else None
  | String c rest =>
      match digit_val c with
      | Some d => digits rest (10 * acc + d) true
      | None =>
          if Ascii.eqb c "_"%char && prev then digits rest acc false else None
      end
  end.

(** [int(s)] on a stripped string: an optional sign, then digits.
    [None] stands for the [ValueError] of an invalid literal.  (The
    interpreter's limit on the number of digits of a literal, 4300 by
    default, is not modelled.) *)
Definition int_of_string (s : string) : option Z :=
  match s with
  | String "+"%char rest => digits rest 0 false
  | String "-"%char rest => Z.opp <$> digits rest 0 false
  | _ => digits s 0 false
  end.

(** *** parse_pairs *)

Fixpoint parse_parts (parts : list string) (vals : list Z) : exn + list Z :=
  match parts with
  | [] => inr vals
  | part :: rest =>
      let part := strip part in
      if is_empty part then parse_parts rest vals
      else match int_of_string part with
           | None => inl (ValueError "invalid literal for int() with base 10")
           | Some v =>
               if v <=? 0 then inl (ValueError "pairs must be > 0")
               else parse_parts rest (vals ++ [v])
           end
  end.

Definition parse_pairs (s : string) : exn + list Z :=
  match parse_parts (split ","%char s) [] with
  | inl e => inl e
  | inr [] => inl (ValueError "empty pairs list")
  | inr vals => inr vals
  end.

(** *** Floating point *)

(** A Python [float] is an IEEE 754 binary64 number.  The operations are
    those of the standard library's specification of binary floating
    point ([SpecFloat]), which round to nearest, ties to even. *)
Definition float : Type := spec_float.
Definition prec : Z := 53.
Definition emax : Z := 1024.

(** [0.0] *)
Definition fzero : float := S754_zero false.

(** [x > 0], for a float [x]; false for a NaN. *)
Definition float_gt0 (x : float) : bool := SFltb fzero x.

(** The conversion of the [int] operand of [int / float]: the nearest
    float, or [OverflowError] when that is out of range. *)
Definition float_of_int (n : Z) : exn + float :=
  match binary_normalize prec emax n 0 false with
  | S754_infinity _ => inl (OverflowError "int too large to convert to float")
  | x => inr x
  end.

(** [a / b] on floats: division by a zero raises, everything else is the
    IEEE quotient (which may be an infinity or a NaN). *)
Definition float_div (a b : float) : exn + float :=
  match b with
  | S754_zero _ => inl ZeroDivisionError
  | _ => inr (SFdiv prec emax a b)
  end.

(** [int(x)]: truncation towards zero. *)
Definition int_of_float (x : float) : exn + Z :=
  match x with
  | S754_zero _ => inr 0
  | S754_finite s m (Zneg k) => inr (cond_Zopp s (Z.shiftr (Zpos m) (Zpos k)))
  | S754_finite s m e => inr (cond_Zopp s (Z.shiftl (Zpos m) e))
  | S754_infinity _ => inl (OverflowError "cannot convert float infinity to integer")
  | S754_nan => inl (ValueError "cannot convert float NaN to integer")
  end.

(** *** Throughput *)

(** [(iters * p) / dt if dt > 0 else 0.0] *)
Definition throughput (iters p : Z) (dt : float) : exn + float :=
  if float_gt0 dt then
    match float_of_int (iters * p) with
    | inl e => inl e
    | inr n => float_div n dt
    end
  else inr fzero.

(** *** main *)

Inductive variant := Asyncio | OsThreads.

(** What [main] does that is visible from outside, in order: a
    measurement is started; a result line is printed, with the pair-count,
    the elapsed time and [int(rps)]; the plot is saved; the line
    ["Wrote: pingpong_speedup.png"] is printed. *)
Inductive event :=
| Measure (v : variant) (iters p : Z)
| Row (v : variant) (p : Z) (dt : float) (shown : Z)
| Plot (xs : list Z) (ys : list float)
| Wrote.

(** Computations that log events and may raise. *)
Definition M (A : Type) : Type := list event -> (exn + A) * list event.

Definition m_ret {A} (a : A) : M A := fun l => (inr a, l).
Definition m_bind {A B} (f : A -> M B) (m : M A) : M B :=
  fun l => match m l with
           | (inl e, l') => (inl e, l')
           | (inr a, l') => f a l'
           end.
Definition lift {A} (r : exn + A) : M A := fun l => (r, l).
Definition emit (ev : event) : M unit := fun l => (inr tt, l ++ [ev]).

#[export] Instance M_ret : MRet M := @m_ret.
#[export] Instance M_bind : MBind M := @m_bind.

Record args := Args { arg_iters : Z; arg_pairs : string; arg_plot : bool }.

Record report := Report {
  rps_async : gmap Z float;
  rps_thr : gmap Z float;
  xs : list Z;
  ys : list float
}.

Definition dict_get (d : gmap Z float) (k : Z) : M float :=
  lift (match d !! k with Some v => inr v | None => inl (KeyError k) end).

(** [(rps_async[x] / rps_thr[x]) if rps_thr[x] > 0 else 0.0] *)
Definition speedup (a t : gmap Z float) (x : Z) : M float :=
  rt ← dict_get t x;
  if float_gt0 rt then
    ra ← dict_get a x;
    rt ← dict_get t x;
    lift (float_div ra rt)
  else mret fzero.

Fixpoint ratios (a t : gmap Z float) (keys : list Z) : M (list float) :=
  match keys with
  | [] => mret []
  | x :: rest =>
      y ← speedup a t x;
      ys ← ratios a t rest;
      mret (y :: ys)
  end.

(** What the [matplotlib] calls of [plot_speedup] do with the two lists:
    they save the figure, or raise. *)
Definition pyplot : Type := list Z -> list float -> exn + unit.

Section Main.
(** The two benchmark calls, as seen by [main]: the [k]-th iteration of
    the loop gets an elapsed time in seconds, or an exception. *)
Variable bench : variant -> nat -> Z -> Z -> exn + float.
(** The module [matplotlib.pyplot], or [None] when it could not be
    imported. *)
Variable plt : option pyplot.

Definition measure (v : variant) (k : nat) (iters p : Z) : M float :=
  _ ← emit (Measure v iters p); lift (bench v k iters p).

(** [print(f"... pairs={p:<3d} time={dt:.6f}s rps={int(rps)}")] *)
Definition print_row (v : variant) (p : Z) (dt rps : float) : M unit :=
  shown ← lift (int_of_float rps); emit (Row v p dt shown).

Fixpoint loop (iters : Z) (k : nat) (ps : list Z) (a t : gmap Z float)
  : M (gmap Z float * gmap Z float) :=
  match ps with
  | [] => mret (a, t)
  | p :: rest =>
      dt_a ← measure Asyncio k iters p;
      rps_a ← lift (throughput iters p dt_a);
      let a := <[p := rps_a]> a in
      _ ← print_row Asyncio p dt_a rps_a;
      dt_t ← measure OsThreads k iters p;
      rps_t ← lift (throughput iters p dt_t);
      let t := <[p := rps_t]> t in
      _ ← print_row OsThreads p dt_t rps_t;
      loop iters (S k) rest a t
  end.

Definition plot_speedup (xs : list Z) (ys : list float) : M unit :=
  match plt with
  | None =>
      lift (inl (RuntimeError "matplotlib not installed (pip install matplotlib)"))
  | Some draw => _ ← lift (draw xs ys); emit (Plot xs ys)
  end.

Definition main (ar : args) : M report :=
  pairs_list ← lift (parse_pairs (arg_pairs ar));
  '(a, t) ← loop (arg_iters ar) 0 pairs_list ∅ ∅;
  let xs := merge_sort Z.le (elements (dom a ∩ dom t)) in
  ys ← ratios a t xs;
  _ ← (if arg_plot ar then _ ← plot_speedup xs ys; emit Wrote else mret tt);
  mret (Report a t xs ys).

Definition run_main (ar : args) : (exn + report) * list event := main ar [].
End Main.

(** *** Reading the pair-count list *)

(** The entries of a comma-separated list: its parts, stripped, the blank
    ones dropped. *)
Definition listed_parts (parts : list string) : list string :=
  List.filter (fun part => negb (is_empty part)) (List.map strip parts).

Definition listed (s : string) : list string := listed_parts (split ","%char s).

(** An entry that [parse_pairs] accepts: an integer literal with a
    positive value. *)
Definition positive_literal (part : string) (v : Z) : Prop :=
  int_of_string part = Some v /\ 0 < v.

Definition is_value_error {A} (r : exn + A) : Prop :=
  exists msg, r = inl (ValueError msg).

(** *** What the measurement loop leaves behind *)

Definition is_ok {A} (r : exn + A) : Prop := exists a, r = inr a.

(** One measurement of the loop, from the benchmark call to the printed
    line: the elapsed time, the throughput and the figure that is printed,
    or the exception that ends [main] there. *)
Definition outcome (bench : variant -> nat -> Z -> Z -> exn + float)
    (v : variant) (k : nat) (iters p : Z) : exn + (float * float * Z) :=
  match bench v k iters p with
  | inl e => inl e
  | inr dt =>
      match throughput iters p dt with
      | inl e => inl e
      | inr rps =>
          match int_of_float rps with
          | inl e => inl e
          | inr shown => inr (dt, rps, shown)
          end
      end
  end.

Definition dt_of (o : exn + (float * float * Z)) : float :=
  match o with inr (dt, _, _) => dt | inl _ => fzero end.
Definition rps_of (o : exn + (float * float * Z)) : float :=
  match o with inr (_, rps, _) => rps | inl _ => fzero end.
Definition shown_of (o : exn + (float * float * Z)) : Z :=
  match o with inr (_, _, shown) => shown | inl _ => 0 end.

(** The events of the [k]-th iteration of the loop when both measurements
    get to their printed line. *)
Definition pair_events (bench : variant -> nat -> Z -> Z -> exn + float)
    (iters : Z) (k : nat) (p : Z) : list event :=
  let oa := outcome bench Asyncio k iters p in
  let ot := outcome bench OsThreads k iters p in
  [Measure Asyncio iters p; Row Asyncio p (dt_of oa) (shown_of oa);
   Measure OsThreads iters p; Row OsThreads p (dt_of ot) (shown_of ot)].

Fixpoint loop_events (bench : variant -> nat -> Z -> Z -> exn + float)
    (iters : Z) (k : nat) (ps : list Z) : list event :=
  match ps with
  | [] => []
  | p :: rest => pair_events bench iters k p ++ loop_events bench iters (S k) rest
  end.

(** Both measurements of every iteration get to their printed line. *)
Fixpoint all_ok (bench : variant -> nat -> Z -> Z -> exn + float)
    (iters : Z) (k : nat) (ps : list Z) : Prop :=
  match ps with
  | [] => True
  | p :: rest =>
      is_ok (outcome bench Asyncio k iters p) /\
      is_ok (outcome bench OsThreads k iters p) /\
      all_ok bench iters (S k) rest
  end.

(** The two dictionaries after the loop. *)
Fixpoint record_all (bench : variant -> nat -> Z -> Z -> exn + float)
    (iters : Z) (k : nat) (ps : list Z) (a t : gmap Z float)
  : gmap Z float * gmap Z float :=
  match ps with
  | [] => (a, t)
  | p :: rest =>
      record_all bench iters (S k) rest
        (<[p := rps_of (outcome bench Asyncio k iters p)]> a)
        (<[p := rps_of (outcome bench OsThreads k iters p)]> t)
  end.

(** The events of an iteration that ends [main] in the measurement of
    variant [v], before its line is printed. *)
Definition failed_events (bench : variant -> nat -> Z -> Z -> exn + float)
    (iters : Z) (k : nat) (p : Z) (v : variant) : list event :=
  match v with
  | Asyncio => [Measure Asyncio iters p]
  | OsThreads =>
      let oa := outcome bench Asyncio k iters p in
      [Measure Asyncio iters p; Row Asyncio p (dt_of oa) (shown_of oa);
       Measure OsThreads iters p]
  end.

(** The measurements started, in order. *)
Definition measured (log : list event) : list (variant * Z) :=
  omap (fun ev => match ev with Measure v _ p => Some (v, p) | _ => None end) log.

Definition is_row (ev : event) : bool :=
  match ev with Row _ _ _ _ => true | _ => false end.

Definition is_plot (ev : event) : bool :=
  match ev with Plot _ _ => true | _ => false end.

(** Floats that are numbers. *)
Definition is_finite (x : float) : bool :=
  match x with S754_zero _ | S754_finite _ _ _ => true | _ => false end.

(** A printed line of a run with [iters] iterations: the pair-count is
    positive, the throughput was computed from the elapsed time on the
    line, by a division when this time is positive, and the figure shown
    is its integer part. *)
Definition row_reported (iters : Z) (ev : event) : Prop :=
  match ev with
  | Row _ p dt shown =>
      1 <= p /\
      exists rps,
        throughput iters p dt = inr rps /\ int_of_float rps = inr shown /\
        (float_gt0 dt = true ->
         exists n, float_of_int (iters * p) = inr n /\ rps = SFdiv prec emax n dt) /\
        (float_gt0 dt = false -> rps = fzero)
  | _ => True
  end.

(** A float with a sign: not a NaN, and its sign bit is [s]. *)
Definition has_sign (s : bool) (x : float) : Prop :=
  match x with
  | S754_nan => False
  | S754_zero s' | S754_infinity s' | S754_finite s' _ _ => s' = s
  end.

(** The speedup computed from two recorded throughputs. *)
Definition speedup_of (ra rt : float) : float :=
  if float_gt0 rt then SFdiv prec emax ra rt else fzero.

(** The end of [main], once the report is computed and [log] has been
    done: the plot, if it is asked for, and the line that follows it. *)
Definition finish (plt : option pyplot) (plot : bool) (rep : report)
    (log : list event) : (exn + report) * list event :=
  if plot then
    match plt with
    | None =>
        (inl (RuntimeError "matplotlib not installed (pip install matplotlib)"), log)
    | Some draw =>
        match draw (xs rep) (ys rep) with
        | inl e => (inl e, log)
        | inr _ => (inr rep, log ++ [Plot (xs rep) (ys rep); Wrote])
        end
    end
  else (inr rep, log).

(** The report of a run whose measurements are those of [ps]. *)
Definition report_of (bench : variant -> nat -> Z -> Z -> exn + float)
    (iters : Z) (ps : list Z) (rep : report) : Prop :=
  (rps_async rep, rps_thr rep) = record_all bench iters 0 ps ∅ ∅ /\
  xs rep = merge_sort Z.le (elements (dom (rps_async rep) ∩ dom (rps_thr rep))) /\
  Forall2 (fun x y => exists ra rt,
             rps_async rep !! x = Some ra /\ rps_thr rep !! x = Some rt /\
             y = speedup_of ra rt) (xs rep) (ys rep).

End Runner.

(* ===================================================================== *)
(** ** 1_free_thread.py *)
(* ===================================================================== *)

Module FreeThread.

(** [sum(i * i for i in range(n))] *)
Definition cpu_bound_task (n : Z) : Z :=
  foldl (fun acc i => acc + i * i) 0 (seqZ 0 n).

End FreeThread.

(* ===================================================================== *)
(** ** 2_bench_sync_async.py: the variants and the table of results *)
(* ===================================================================== *)

Module Bench.
Import Runner.

Definition n_tasks_list : list Z := [100; 1000; 10000; 100000].

(** [CPU = os.cpu_count() or 4]: 4 when the count is [None] or 0. *)
Definition CPU (cpu_count : option Z) : Z :=
  match cpu_count with
  | Some c => if c =? 0 then 4 else c
  | None => 4
  end.

(** [CAPPED_WORKERS = min(200, 50 * CPU)] *)
Definition CAPPED_WORKERS (cpu_count : option Z) : Z := Z.min 200 (50 * CPU cpu_count).

(** The coroutines handed to [run_asyncio_in_new_loop]. *)
Inductive coro :=
| SleepCoro (n_tasks : Z)        (* run_asyncio_sleep_coro(n_tasks) *)
| ToThreadCoro (n_tasks : Z).    (* run_asyncio_to_thread_coro(n_tasks) *)

(** The two timed primitives [run_variant] ends in. *)
Inductive call :=
| Threadpool (n_tasks max_workers : Z)
    (* run_threadpool(n_tasks, max_workers) *)
| NewLoop (c : coro) (max_workers : option Z).
    (* run_asyncio_in_new_loop(coro, max_workers=...) *)

(** The keys of [VARIANTS], in order (the labels are not used by the
    loop). *)
Definition VARIANTS : list string :=
  ["threadpool_capped"; "threadpool_naive"; "asyncio_to_thread_capped";
   "asyncio_sleep"]%string.

(** The values of a row of the table. *)
Inductive value :=
| VInt (z : Z)
| VFloat (x : float)
| VBool (b : bool)
| VStr (s : string).

(** [float("nan")] *)
Definition nan : float := S754_nan.

(** An exception, as far as the script looks at it: the names of the
    classes it is an instance of (its class and the bases of its class, as
    in [type(e).__mro__]) and [str(e)]. *)
Record exc := Exc { exc_classes : list string; exc_str : string }.

(** [isinstance(e, cls)], the test that [except cls] makes. *)
Definition isinstance (e : exc) (cls : string) : bool :=
  bool_decide (cls ∈ exc_classes e).

(** [ValueError(msg)] and [RuntimeError(msg)] *)
Definition value_error (msg : string) : exc :=
  Exc ["ValueError"; "Exception"; "BaseException"; "object"]%string msg.

Definition runtime_error (msg : string) : exc :=
  Exc ["RuntimeError"; "Exception"; "BaseException"; "object"]%string msg.

(** Computations that make timed calls, in order, and may raise. *)
Definition B (A : Type) : Type := list call -> (exc + A) * list call.

Definition b_ret {A} (a : A) : B A := fun l => (inr a, l).
Definition b_bind {A C} (f : A -> B C) (m : B A) : B C :=
  fun l => match m l with
           | (inl e, l') => (inl e, l')
           | (inr a, l') => f a l'
           end.
Definition b_raise {A} (e : exc) : B A := fun l => (inl e, l).

#[export] Instance B_ret : MRet B := @b_ret.
#[export] Instance B_bind : MBind B := @b_bind.

Section Env.
(** The value of [os.cpu_count()]. *)
Variable cpu_count : option Z.
(** What the [k]-th timed call of the script does: it returns an elapsed
    time in seconds or raises.  ([run_asyncio_in_new_loop] raises, in the
    calling thread, the [Exception] its worker thread caught; a worker
    thread that ends otherwise without an elapsed time is not modelled.) *)
Variable exec : nat -> call -> exc + float.

Definition timed (c : call) : B float := fun l => (exec (length l) c, l ++ [c]).

Definition run_asyncio_sleep (n_tasks : Z) : B float :=
  timed (NewLoop (SleepCoro n_tasks) None).

Definition run_asyncio_to_thread_capped (n_tasks : Z) : B float :=
  let workers := Z.min (CAPPED_WORKERS cpu_count) n_tasks in
  timed (NewLoop (ToThreadCoro n_tasks) (Some workers)).

Definition run_variant (variant : string) (n_tasks : Z) : B float :=
  if String.eqb variant "threadpool_capped" then
    timed (Threadpool n_tasks (Z.min (CAPPED_WORKERS cpu_count) n_tasks))
  else if String.eqb variant "threadpool_naive" then
    timed (Threadpool n_tasks n_tasks)
  else if String.eqb variant "asyncio_to_thread_capped" then
    run_asyncio_to_thread_capped n_tasks
  else if String.eqb variant "asyncio_sleep" then
    run_asyncio_sleep n_tasks
  else b_raise (value_error (String.append "Unknown variant: " variant)).

(** The body of [for key, _label in VARIANTS]: [except RuntimeError]
    catches the instances of [RuntimeError], those of its subclasses
    included, and nothing else. *)
Definition record_variant (key : string) (n : Z) (row : gmap string value)
  : B (gmap string value) :=
  fun l =>
    match run_variant key n l with
    | (inr t, l') =>
        (inr (<[String.append key "_error_msg" := VStr ""]>
                (<[String.append key "_error" := VBool false]>
                   (<[String.append key "_time_s" := VFloat t]> row))), l')
    | (inl e, l') =>
        if isinstance e "RuntimeError" then
          (inr (<[String.append key "_error_msg" := VStr (exc_str e)]>
                  (<[String.append key "_error" := VBool true]>
                     (<[String.append key "_time_s" := VFloat nan]> row))), l')
        else (inl e, l')
    end.

Fixpoint record_variants (keys : list string) (n : Z) (row : gmap string value)
  : B (gmap string value) :=
  match keys with
  | [] => mret row
  | key :: rest => row' ← record_variant key n row; record_variants rest n row'
  end.

(** The body of [for n in n_tasks_list]. *)
Definition make_row (n : Z) : B (gmap string value) :=
  row ← record_variants VARIANTS n {["n_tasks"%string := VInt n]};
  mret (<["threadpool_naive_workers"%string := VInt n]>
          (<["asyncio_to_thread_capped_workers"%string :=
               VInt (Z.min (CAPPED_WORKERS cpu_count) n)]>
             (<["threadpool_capped_workers"%string :=
                  VInt (Z.min (CAPPED_WORKERS cpu_count) n)]> row))).

Fixpoint make_rows (ns : list Z) : B (list (gmap string value)) :=
  match ns with
  | [] => mret []
  | n :: rest => row ← make_row n; rows ← make_rows rest; mret (row :: rows)
  end.

(** [rows], and the timed calls made, when the script reaches
    [df = pd.DataFrame(rows)]. *)
Definition rows : (exc + list (gmap string value)) * list call :=
  make_rows n_tasks_list [].
End Env.

(** *** What a row says about one variant *)

(** The timed call [run_variant key n] makes. *)
Definition call_of (cpu_count : option Z) (key : string) (n : Z) : option call :=
  if String.eqb key "threadpool_capped" then
    Some (Threadpool n (Z.min (CAPPED_WORKERS cpu_count) n))
  else if String.eqb key "threadpool_naive" then Some (Threadpool n n)
  else if String.eqb key "asyncio_to_thread_capped" then
    Some (NewLoop (ToThreadCoro n) (Some (Z.min (CAPPED_WORKERS cpu_count) n)))
  else if String.eqb key "asyncio_sleep" then Some (NewLoop (SleepCoro n) None)
  else None.

(** The three cells a row holds for a variant whose call returned [r]. *)
Definition cells_ok (row : gmap string value) (key : string) (r : exc + float)
  : Prop :=
  match r with
  | inr t =>
      row !! String.append key "_time_s" = Some (VFloat t) /\
      row !! String.append key "_error" = Some (VBool false) /\
      row !! String.append key "_error_msg" = Some (VStr "")
  | inl e =>
      isinstance e "RuntimeError" = true /\
      row !! String.append key "_time_s" = Some (VFloat nan) /\
      row !! String.append key "_error" = Some (VBool true) /\
      row !! String.append key "_error_msg" = Some (VStr (exc_str e))
  end.

(** Results the loop can record: a time, or an instance of
    [RuntimeError]. *)
Definition recordable (r : exc + float) : Prop :=
  match r with
  | inr _ => True
  | inl e => isinstance e "RuntimeError" = true
  end.

(** The columns the loop writes for a variant. *)
Definition columns (key : string) : list string :=
  [String.append key "_time_s"; String.append key "_error";
   String.append key "_error_msg"].

(** The timed calls of one row, and of a run, in which nothing escapes
    the loop. *)
Definition row_calls (cpu_count : option Z) (n : Z) : list call :=
  omap (fun key => call_of cpu_count key n) VARIANTS.

Definition planned_calls (cpu_count : option Z) (ns : list Z) : list call :=
  n ← ns; row_calls cpu_count n.

(** A finished row for [n] whose first timed call was call number
    [base]. *)
Definition row_ok (cpu_count : option Z) (exec : nat -> call -> exc + float)
    (base : nat) (n : Z) (row : gmap string value) : Prop :=
  row !! "n_tasks"%string = Some (VInt n) /\
  row !! "threadpool_capped_workers"%string
    = Some (VInt (Z.min (CAPPED_WORKERS cpu_count) n)) /\
  row !! "asyncio_to_thread_capped_workers"%string
    = Some (VInt (Z.min (CAPPED_WORKERS cpu_count) n)) /\
  row !! "threadpool_naive_workers"%string = Some (VInt n) /\
  forall (j : nat) key, VARIANTS !! j = Some key ->
    exists c, call_of cpu_count key n = Some c /\
              recordable (exec (base + j)%nat c) /\
              cells_ok row key (exec (base + j)%nat c).

(** The arguments of a timed call. *)
Definition n_tasks_of (c : call) : Z :=
  match c with
  | Threadpool n _ => n
  | NewLoop (SleepCoro n) _ | NewLoop (ToThreadCoro n) _ => n
  end.

Definition max_workers_of (c : call) : option Z :=
  match c with
  | Threadpool _ w => Some w
  | NewLoop _ w => w
  end.

End Bench.

(* ===================================================================== *)
(** ** Example schedules *)
(* ===================================================================== *)

Module Examples.
Import Worker.

(** One pair, [n] iterations, thread variant: the driver starts both
    threads, reads the clock and arrives at the barrier; the workers arrive;
    everybody leaves the barrier; the workers exchange [n] tokens; the
    driver joins both threads and returns. *)
Definition thread_schedule (n : nat) : list (Threads.actor * nat) :=
  let d := (Threads.Driver, 1%nat) in
  let t i := (Threads.Thread i, 1%nat) in
  [d; d; d; d; t 0%nat; t 1%nat; t 1%nat; t 0%nat; d]
  ++ concat (replicate n [t 0%nat; t 1%nat; t 1%nat; t 0%nat])
  ++ [d; d; d].

(** One pair, [n] iterations, asyncio variant: the event loop runs the
    main coroutine, the pair task, and then pinger and ponger in turn, each
    up to its next blocking operation. *)
Definition aio_schedule (n : nat) : list (Aio.actor * nat) :=
  let e a := (a, 1%nat) in
  [e Aio.Main; e (Aio.PairTask 0); e (Aio.WorkerTask 0 Pinger); e (Aio.WorkerTask 0 Ponger)]
  ++ concat (replicate (n - 1) [e (Aio.WorkerTask 0 Pinger); e (Aio.WorkerTask 0 Ponger)])
  ++ (match n with O => [] | S _ => [e (Aio.WorkerTask 0 Pinger)] end)
  ++ [e (Aio.PairTask 0); e Aio.Main].

(** [m * 2^e] seconds, as a float. *)
Definition seconds (m e : Z) : Runner.float :=
  binary_normalize Runner.prec Runner.emax m e false.

(** Measurements as [main] may see them: constant elapsed times; a
    cooperative variant that fails to run. *)
Definition bench_const (dt_a dt_t : Runner.float)
  : Runner.variant -> nat -> Z -> Z -> Runner.exn + Runner.float :=
  fun v _ _ _ => inr (match v with Runner.Asyncio => dt_a | Runner.OsThreads => dt_t end).

Definition bench_asyncio_fails
  : Runner.variant -> nat -> Z -> Z -> Runner.exn + Runner.float :=
  fun v _ _ _ =>
    match v with
    | Runner.Asyncio => inl (Runner.RuntimeError "can't start new thread")
    | Runner.OsThreads => inr (seconds 1 0)
    end.

(** Elapsed times that depend on the iteration of the loop: [k + 1]
    seconds for the cooperative variant, twice as much for threads. *)
Definition bench_by_index
  : Runner.variant -> nat -> Z -> Z -> Runner.exn + Runner.float :=
  fun v k _ _ =>
    inr (match v with
         | Runner.Asyncio => seconds (Z.of_nat k + 1) 0
         | Runner.OsThreads => seconds (2 * (Z.of_nat k + 1)) 0
         end).

(** A plotting library that works, and one that cannot write its file. *)
Definition plt_ok : option Runner.pyplot := Some (fun _ _ => inr tt).


(** Exceptions a timed call may raise: a subclass of [RuntimeError], and
    a class that is none. *)
Definition recursion_error : Bench.exc :=
  Bench.Exc
    ["RecursionError"; "RuntimeError"; "Exception"; "BaseException"; "object"]%string
    "maximum recursion depth exceeded".

Definition memory_error : Bench.exc :=
  Bench.Exc ["MemoryError"; "Exception"; "BaseException"; "object"]%string "".

(** A run of the table benchmark in which every second timed call fails:
    it cannot start its threads, or it exceeds the recursion limit. *)
Definition exec_flaky (k : nat) (c : Bench.call) : Bench.exc + Runner.float :=
  if Nat.even k then inr (seconds 1 0)
  else if (k mod 4 =? 1)%nat then inl (Bench.runtime_error "can't start new thread")
  else inl recursion_error.

(** A run of the table benchmark whose [k0]-th timed call runs out of
    memory. *)
Definition exec_out_of_memory (k0 k : nat) (c : Bench.call)
  : Bench.exc + Runner.float :=
  if (k =? k0)%nat then inl memory_error else exec_flaky k c.

End Examples.

(* ===================================================================== *)
(** * Properties *)
(* ===================================================================== *)

Module WorkerFacts.
Import Chan Worker.

Lemma seqZ_snoc (i : Z) : 0 <= i -> seqZ 0 i ++ [i] = seqZ 0 (i + 1).
Proof.
  intros Hi. rewrite (seqZ_app 0 i 1) by lia. reflexivity.
Qed.

Lemma loop_head_cases iters r i :
  (i < iters /\ loop_head iters r i = match r with Pinger => PcPut i i | Ponger => PcGet i end)
  \/ (iters <= i /\ loop_head iters r i = PcDone).
Proof.
  unfold loop_head. destruct (Z.ltb_spec i iters); [left | right]; split; auto.
Qed.

Lemma pair_inv_init iters :
  pair_inv iters (Pair (new_queue 1) (new_queue 1) PcStart PcStart).
Proof.
  unfold pair_inv; simpl. unfold loop_head.
  destruct (Z.ltb_spec 0 iters).
  - apply (sync_put1 iters 0). lia.
  - replace (new_queue 1) with (Queue [] 1 (seqZ 0 iters) (seqZ 0 iters)).
    + constructor.
    + unfold new_queue, seqZ. replace (Z.to_nat iters) with O by lia. reflexivity.
Qed.

Lemma eff_loop_head iters r i : eff iters r (loop_head iters r i) = loop_head iters r i.
Proof. unfold loop_head. destruct (i <? iters), r; reflexivity. Qed.

Ltac use_eff :=
  match goal with H : _ = eff _ _ _ |- _ => rewrite <- H end.
Ltac absurd_head :=
  match goal with
  | H : loop_head _ _ _ = _ |- _ => unfold loop_head in H; case_match; discriminate
  end.

Lemma pair_step_inv iters r p p' :
  pair_inv iters p -> pair_step iters r p = Some p' -> pair_inv iters p'.
Proof.
  unfold pair_inv, pair_step. destruct p as [a b c d]; simpl.
  intros Hinv Hstep.
  destruct r; simpl in *.
  - destruct c; simpl in *; try discriminate.
    + inversion Hinv; subst; simpl in *.
      injection Hstep as <-; simpl. use_eff.
      rewrite seqZ_snoc by lia. by constructor.
    + inversion Hinv; subst; simpl in *; try discriminate.
      injection Hstep as <-; simpl. use_eff.
      rewrite seqZ_snoc by lia.
      destruct (loop_head_cases iters Pinger (i + 1)) as [[? ->]|[? ->]];
      destruct (loop_head_cases iters Ponger (i + 1)) as [[? ->]|[? ->]]; try lia; simpl.
      * constructor; lia.
      * replace (i + 1) with iters by lia. constructor.
  - destruct d; simpl in *; try discriminate.
    + inversion Hinv; subst; simpl in *; try absurd_head.
      injection Hstep as <-; simpl. use_eff.
      rewrite eff_loop_head, seqZ_snoc by lia. by constructor.
    + inversion Hinv; subst; simpl in *; try discriminate.
      injection Hstep as <-; simpl. use_eff.
      rewrite seqZ_snoc by lia. by constructor.
Qed.

Lemma pair_step_frame iters r p p2 :
  pair_step iters r p = Some p2 ->
  worker_pc (other r) p2 = worker_pc (other r) p
  /\ worker_pc r p <> PcStart /\ worker_pc r p <> PcWait /\ worker_pc r p <> PcDone.
Proof.
  unfold pair_step. destruct p as [a b c d], r; simpl.
  - destruct c; simpl; try discriminate.
    + destruct (put v a); simpl; [|discriminate]. intros [= <-]. auto.
    + destruct (get b) as [[? ?]|]; simpl; [|discriminate]. intros [= <-]. auto.
  - destruct d; simpl; try discriminate.
    + destruct (put v b); simpl; [|discriminate]. intros [= <-]. auto.
    + destruct (get a) as [[? ?]|]; simpl; [|discriminate]. intros [= <-]. auto.
Qed.

Lemma loop_head_rem iters r i :
  (wrem iters r (loop_head iters r (i + 1)) <= 2 * Z.to_nat (iters - i))%nat.
Proof.
  unfold loop_head. destruct (Z.ltb_spec (i + 1) iters), r; simpl; lia.
Qed.

Lemma loop_head_rem0 iters r :
  (wrem iters r (loop_head iters r 0) <= 2 * Z.to_nat iters + 2)%nat.
Proof.
  unfold loop_head. destruct (Z.ltb_spec 0 iters), r; simpl; lia.
Qed.

Lemma pair_step_rem iters r p p2 :
  pair_step iters r p = Some p2 -> (pair_rem iters p2 < pair_rem iters p)%nat.
Proof.
  unfold pair_step, pair_rem. destruct p as [a b c d], r; simpl.
  - destruct c; simpl; try discriminate.
    + destruct (put v a); simpl; [|discriminate]. intros [= <-]. simpl. lia.
    + destruct (get b) as [[? ?]|]; simpl; [|discriminate]. intros [= <-]. simpl.
      pose proof (loop_head_rem iters Pinger i). lia.
  - destruct d; simpl; try discriminate.
    + destruct (put v b); simpl; [|discriminate]. intros [= <-]. simpl.
      pose proof (loop_head_rem iters Ponger i). lia.
    + destruct (get a) as [[? ?]|]; simpl; [|discriminate]. intros [= <-]. simpl. lia.
Qed.

(** In every phase but the last, one of the two workers can move (or has
    yet to get through the start of its function). *)
Lemma pair_progress iters p :
  pair_inv iters p -> pair_done p = false ->
  exists r, worker_pc r p = PcStart \/ worker_pc r p = PcWait
            \/ is_Some (pair_step iters r p).
Proof.
  unfold pair_inv, pair_done, pair_step. destruct p as [a b c d]; simpl.
  intros Hinv Hnd.
  inversion Hinv; subst.
  - exists Pinger; simpl. destruct c; simpl in *; simplify_eq; eauto.
  - exists Ponger; simpl. destruct d; simpl in *; simplify_eq; eauto.
  - exists Ponger; simpl. destruct d; simpl in *; simplify_eq; eauto.
  - exists Pinger; simpl. destruct c; simpl in *; simplify_eq; eauto.
  - destruct c; simpl in *; try discriminate.
    + exists Pinger; auto.
    + exists Pinger; auto.
    + destruct d; simpl in *; try discriminate.
      * exists Ponger; auto.
      * exists Ponger; auto.
Qed.

Lemma pair_done_settled iters p :
  pair_inv iters p -> pair_done p = true -> settled iters p.
Proof.
  unfold pair_inv, pair_done, settled. destruct p as [a b c d]; simpl.
  intros Hinv Hd. destruct c, d; try discriminate. simpl in Hinv.
  inversion Hinv; subst; simpl; auto 10.
Qed.

Lemma pair_step_arrived iters r p p2 :
  pair_step iters r p = Some p2 -> in_loop (worker_pc r p2) = true.
Proof.
  unfold pair_step. destruct p as [a b c d], r; simpl.
  - destruct c; simpl; try discriminate.
    + destruct (put v a); simpl; [|discriminate]. by intros [= <-].
    + destruct (get b) as [[? ?]|]; simpl; [|discriminate]. intros [= <-]. simpl.
      unfold loop_head. by destruct (_ <? _).
  - destruct d; simpl; try discriminate.
    + destruct (put v b); simpl; [|discriminate]. intros [= <-]. simpl.
      unfold loop_head. by destruct (_ <? _).
    + destruct (get a) as [[? ?]|]; simpl; [|discriminate]. by intros [= <-].
Qed.

Lemma in_loop_arrived c : in_loop c = true -> has_arrived c = true.
Proof. by destruct c. Qed.

Lemma worker_pc_set_same r c p : worker_pc r (set_pc r c p) = c.
Proof. by destruct r. Qed.

Lemma worker_pc_set_other r c p : worker_pc (other r) (set_pc r c p) = worker_pc (other r) p.
Proof. by destruct r. Qed.

Lemma role_cases (r r2 : role) : r2 = r \/ r2 = other r.
Proof. destruct r, r2; auto. Qed.

Lemma pair_inv_set_pc iters r c p :
  eff iters r c = eff iters r (worker_pc r p) ->
  pair_inv iters p -> pair_inv iters (set_pc r c p).
Proof.
  unfold pair_inv. destruct r; simpl; intros ->; auto.
Qed.

Lemma lookup_insert_cases (ps : list pair) j0 p2 j q :
  <[j0 := p2]> ps !! j = Some q ->
  (j = j0 /\ q = p2) \/ (j <> j0 /\ ps !! j = Some q).
Proof.
  intros H. destruct (decide (j = j0)) as [->|Hne].
  - left. split; [done|].
    destruct (decide (j0 < length ps)%nat).
    + rewrite list_lookup_insert_eq in H by done. congruence.
    + rewrite list_insert_ge in H by lia. apply lookup_lt_Some in H. lia.
  - right. rewrite list_lookup_insert_ne in H by done. done.
Qed.

Lemma pair_rem_set_pc iters r c p :
  (wrem iters r c < wrem iters r (worker_pc r p))%nat ->
  (pair_rem iters (set_pc r c p) < pair_rem iters p)%nat.
Proof. unfold pair_rem. destruct r; simpl; lia. Qed.

Lemma total_insert (f : pair -> Z) ps j p p2 :
  ps !! j = Some p -> total f (<[j := p2]> ps) = total f ps - f p + f p2.
Proof.
  revert j. induction ps as [|q ps IH]; intros [|j] Hj; simpl in *; try discriminate.
  - injection Hj as ->. lia.
  - rewrite (IH j Hj). lia.
Qed.

Lemma total_const (f : pair -> Z) m ps :
  Forall (fun p => f p = m) ps -> total f ps = m * Z.of_nat (length ps).
Proof.
  induction 1 as [|q ps Hq _ IH]; simpl; [lia|]. rewrite IH, Hq. lia.
Qed.

Lemma total_le (f : pair -> Z) m ps :
  (forall p, f p <= m) -> total f ps <= m * Z.of_nat (length ps).
Proof.
  intros Hf. induction ps as [|q ps IH]; simpl; [lia|]. specialize (Hf q). lia.
Qed.

Lemma total_lookup_le (f : pair -> Z) m ps j p :
  (forall q, f q <= m) -> ps !! j = Some p ->
  total f ps <= f p + m * (Z.of_nat (length ps) - 1).
Proof.
  intros Hf. revert j. induction ps as [|q ps IH]; intros [|j] Hj; simpl in *; try discriminate.
  - injection Hj as ->. pose proof (total_le f m ps Hf). lia.
  - specialize (IH j Hj). specialize (Hf q). lia.
Qed.

Lemma total_lt_witness (f : pair -> Z) m ps :
  total f ps < m * Z.of_nat (length ps) ->
  exists j p, ps !! j = Some p /\ f p < m.
Proof.
  induction ps as [|q ps IH]; simpl; [lia|]. intros Hlt.
  destruct (Z.lt_ge_cases (f q) m) as [Hq|Hq].
  - exists O, q. auto.
  - destruct IH as (j & p & Hj & Hp); [lia|]. exists (S j), p. auto.
Qed.


Lemma settled_counts iters p :
  0 <= iters -> settled iters p -> exact_counts iters p.
Proof.
  intros Hi (_ & _ & H1 & H2 & H3 & H4).
  unfold exact_counts, n_puts, n_gets. rewrite H1, H2, H3, H4, length_seqZ. lia.
Qed.

Lemma settled_fifo iters p :
  settled iters p -> fifo_complete iters (q1 p) /\ fifo_complete iters (q2 p).
Proof. intros (_ & _ & H1 & H2 & H3 & H4). by repeat split. Qed.

Lemma exact_counts_ops iters p :
  exact_counts iters p -> ops_A p = 2 * iters /\ ops_B p = 2 * iters.
Proof. unfold exact_counts, ops_A, ops_B, n_ops. lia. Qed.

Lemma settled_run_counts iters n_pairs ps :
  0 <= iters -> 0 <= n_pairs -> length ps = Z.to_nat n_pairs ->
  Forall (settled iters) ps -> run_counts iters n_pairs ps.
Proof.
  intros Hi Hn Hlen Hs.
  assert (Hc : Forall (exact_counts iters) ps).
  { eapply Forall_impl; [exact Hs|]. intros p. by apply settled_counts. }
  assert (Ho : Forall (fun p => ops_A p = 2 * iters /\ ops_B p = 2 * iters) ps).
  { eapply Forall_impl; [exact Hc|]. intros p. apply exact_counts_ops. }
  repeat split; auto; [lia|..].
  - rewrite (total_const ops_A (2 * iters)); [lia|].
    eapply Forall_impl; [exact Ho|]. by intros p [? ?].
  - rewrite (total_const ops_B (2 * iters)); [lia|].
    eapply Forall_impl; [exact Ho|]. by intros p [? ?].
Qed.

Lemma pair_inv_fifo iters p :
  pair_inv iters p -> fifo_prefix (q1 p) /\ fifo_prefix (q2 p).
Proof.
  unfold pair_inv, fifo_prefix. destruct p as [a b c d]; simpl.
  inversion 1; subst; simpl; rewrite ?app_nil_r, ?seqZ_snoc by lia; auto.
Qed.

(** While neither worker has entered its loop, nothing has happened on the
    channels of the pair. *)
Lemma pair_inv_idle iters p :
  pair_inv iters p -> in_loop (ping p) = false -> in_loop (pong p) = false ->
  pair_ops p = 0.
Proof.
  unfold pair_inv, pair_ops, ops_A, ops_B, n_ops, n_puts, n_gets.
  destruct p as [a b c d]; simpl. intros Hinv Hc Hd.
  assert (Ec : eff iters Pinger c = loop_head iters Pinger 0) by (by destruct c).
  assert (Ed : eff iters Ponger d = loop_head iters Ponger 0) by (by destruct d).
  rewrite Ec, Ed in Hinv. unfold loop_head in Hinv.
  destruct (Z.ltb_spec 0 iters); inversion Hinv; subst; simpl; try done.
  unfold seqZ. replace (Z.to_nat iters) with O by lia. done.
Qed.

(** With no iteration to run nothing ever happens on the channels. *)
Lemma pair_inv_no_iters iters p :
  iters <= 0 -> pair_inv iters p -> pair_ops p = 0.
Proof.
  unfold pair_inv, pair_ops, ops_A, ops_B, n_ops, n_puts, n_gets.
  destruct p as [a b c d]; simpl. intros Hi.
  inversion 1; subst; simpl; try lia.
  unfold seqZ. replace (Z.to_nat iters) with O by lia. done.
Qed.

Lemma total_zero (f : pair -> Z) ps :
  Forall (fun p => f p = 0) ps -> total f ps = 0.
Proof. intros H. rewrite (total_const f 0 ps H). lia. Qed.

Lemma pair_ops_nonneg p : 0 <= pair_ops p.
Proof. unfold pair_ops, ops_A, ops_B, n_ops, n_puts, n_gets. lia. Qed.


Lemma pair_inv_lockstep iters p : pair_inv iters p -> lockstep p.
Proof.
  unfold pair_inv, lockstep, n_puts, n_gets. destruct p as [a b c d]; simpl.
  inversion 1; subst; simpl; rewrite ?length_seqZ; repeat split; lia.
Qed.

Lemma put_counts v q q2 :
  put v q = Some q2 -> n_puts q2 = n_puts q + 1 /\ n_gets q2 = n_gets q.
Proof.
  unfold put, n_puts, n_gets. destruct (full q); [done|]. intros [= <-]; simpl.
  rewrite length_app; simpl. lia.
Qed.

Lemma get_counts v q q2 :
  get q = Some (v, q2) -> n_gets q2 = n_gets q + 1 /\ n_puts q2 = n_puts q.
Proof.
  unfold get, n_puts, n_gets. destruct (items q); [done|]. intros [= <- <-]; simpl.
  rewrite length_app; simpl. lia.
Qed.

Lemma pair_step_ops iters r p p2 :
  pair_step iters r p = Some p2 ->
  ops_by r p2 = ops_by r p + 1 /\ ops_by (other r) p2 = ops_by (other r) p.
Proof.
  unfold pair_step, ops_by. destruct p as [a b c d], r; simpl.
  - destruct c; simpl; try discriminate.
    + destruct (put v a) as [a2|] eqn:E; simpl; [|discriminate]. intros [= <-]; simpl.
      apply put_counts in E. lia.
    + destruct (get b) as [[w b2]|] eqn:E; simpl; [|discriminate]. intros [= <-]; simpl.
      apply get_counts in E. lia.
  - destruct d; simpl; try discriminate.
    + destruct (put v b) as [b2|] eqn:E; simpl; [|discriminate]. intros [= <-]; simpl.
      apply put_counts in E. lia.
    + destruct (get a) as [[w a2]|] eqn:E; simpl; [|discriminate]. intros [= <-]; simpl.
      apply get_counts in E. lia.
Qed.

Lemma pair_step_pair_ops iters r p p2 :
  pair_step iters r p = Some p2 -> pair_ops p2 = pair_ops p + 1.
Proof.
  intros H. apply pair_step_ops in H as [H1 H2].
  unfold pair_ops, ops_A, ops_B, n_ops. destruct r; simpl in *; lia.
Qed.

(** Neither worker is ever more than one operation ahead of its peer. *)
Lemma pair_inv_lead iters p :
  pair_inv iters p -> -1 <= ops_by Pinger p - ops_by Ponger p <= 1.
Proof.
  intros H. apply pair_inv_lockstep in H as (_ & ? & ? & ? & ?). simpl. lia.
Qed.

Lemma lead_role iters r p :
  pair_inv iters p -> ops_by r p - ops_by (other r) p <= 1.
Proof. intros H. apply pair_inv_lead in H. destruct r; simpl in *; lia. Qed.

(** The two workers of a pair are never both able to move. *)
Lemma pair_one_enabled iters p :
  pair_inv iters p ->
  pair_step iters Pinger p = None \/ pair_step iters Ponger p = None.
Proof.
  intros Hinv.
  destruct (pair_step iters Pinger p) as [p1|] eqn:E1; [|by left].
  destruct (pair_step iters Ponger p) as [p2|] eqn:E2; [|by right].
  exfalso. unfold pair_step in E1, E2. destruct p as [a b c d]; simpl in *.
  unfold pair_inv in Hinv; simpl in Hinv.
  destruct c; simpl in E1; try discriminate; destruct d; simpl in E2; try discriminate;
    simpl in Hinv; inversion Hinv; subst; simpl in *; try discriminate;
    try (unfold loop_head in *; destruct (_ <? _); discriminate).
Qed.

(** A worker completes at most two channel operations in a row: then it
    has to wait for its peer. *)
Lemma two_steps_then_blocked iters r p p1 p2 :
  pair_inv iters p ->
  pair_step iters r p = Some p1 -> pair_step iters r p1 = Some p2 ->
  pair_step iters r p2 = None.
Proof.
  intros Hinv H1 H2.
  destruct (pair_step iters r p2) as [p3|] eqn:H3; [exfalso|done].
  assert (Hinv3 : pair_inv iters p3) by eauto using pair_step_inv.
  pose proof (lead_role _ (other r) _ Hinv) as Hl.
  pose proof (lead_role _ r _ Hinv3) as Hl3.
  apply pair_step_ops in H1 as [A1 B1], H2 as [A2 B2], H3 as [A3 B3].
  replace (other (other r)) with r in Hl by (by destruct r). lia.
Qed.

Lemma pair_done_final iters p :
  pair_inv iters p -> pair_done p = true -> p = final_pair iters.
Proof.
  unfold pair_inv, pair_done, final_pair. destruct p as [a b c d]; simpl.
  intros Hinv Hd. destruct c, d; try discriminate. simpl in Hinv.
  by inversion Hinv; subst.
Qed.

Lemma Forall_eq_replicate {A} (x : A) (l : list A) :
  Forall (fun y => y = x) l -> l = replicate (length l) x.
Proof. induction 1 as [|y l -> _ IH]; simpl; [done|]. by rewrite <- IH. Qed.

End WorkerFacts.

Module ThreadsFacts.
Import Chan Worker WorkerFacts Threads.

Lemma idx_pair_of j r : pair_of (idx j r) = j.
Proof.
  unfold pair_of, idx. destruct r.
  - rewrite Nat.add_0_r, Nat.mul_comm. apply Nat.div_mul. lia.
  - rewrite Nat.mul_comm, Nat.div_add_l by lia. simpl. lia.
Qed.

Lemma idx_role_of j r : role_of (idx j r) = r.
Proof.
  unfold role_of, idx. destruct r.
  - rewrite Nat.add_0_r, Nat.even_mul. reflexivity.
  - rewrite Nat.even_add, Nat.even_mul. reflexivity.
Qed.

Lemma idx_decompose i : idx (pair_of i) (role_of i) = i.
Proof.
  unfold idx, pair_of, role_of.
  pose proof (Nat.div_mod_eq i 2) as Hd.
  destruct (Nat.even i) eqn:He.
  - apply Nat.even_spec in He. destruct He as [k ->].
    rewrite (Nat.mul_comm 2 k), Nat.div_mul by lia. lia.
  - assert (Ho : Nat.odd i = true) by (rewrite <- Nat.negb_even, He; reflexivity).
    apply Nat.odd_spec in Ho. destruct Ho as [k ->].
    rewrite (Nat.mul_comm 2 k), Nat.div_add_l by lia. simpl. lia.
Qed.

Lemma arrivals_le p : arrivals p <= 2.
Proof. unfold arrivals. destruct (has_arrived (ping p)), (has_arrived (pong p)); simpl; lia. Qed.

Lemma arrivals_start p r : worker_pc r p = PcStart -> arrivals p <= 1.
Proof.
  unfold arrivals. destruct r; simpl; intros ->; simpl.
  - destruct (has_arrived (pong p)); simpl; lia.
  - destruct (has_arrived (ping p)); simpl; lia.
Qed.

Lemma inv_init c0 iters n_pairs : inv iters n_pairs (init c0 iters n_pairs).
Proof.
  unfold init. split; simpl.
  - apply length_replicate.
  - reflexivity.
  - apply Forall_replicate, pair_inv_init.
  - rewrite (total_const arrivals 0).
    + unfold start_head. destruct (_ <? _)%nat; simpl; lia.
    + apply Forall_replicate. reflexivity.
  - intros j p r [-> _]%lookup_replicate _. by destruct r.
  - intros j p r [-> _]%lookup_replicate. by destruct r.
  - unfold start_head. destruct (_ <? _)%nat; simpl; discriminate.
  - intros j p r [-> _]%lookup_replicate. unfold start_head. destruct (_ <? _)%nat; simpl; discriminate.
  - unfold start_head. destruct (_ <? _)%nat; reflexivity.
  - unfold start_head. destruct (_ <? _)%nat; reflexivity.
  - unfold start_head, n_threads. simpl. destruct (_ <? _)%nat eqn:E; [|done].
    by apply Nat.ltb_lt in E.
Qed.

Lemma inv_tick iters n_pairs dt s :
  inv iters n_pairs s -> inv iters n_pairs (tick dt s).
Proof.
  intros [H1 H2 H3 H4 H5 H6 H7 H8 H9 H10 H11]. split; simpl; auto.
  - destruct (driver s); auto; destruct H9 as (a & ? & ?); exists a; split; auto; lia.
  - destruct (driver s); auto. destruct H10 as (a & ? & ? & c & ? & ?).
    exists a. repeat split; auto; try lia. exists c. split; auto; lia.
Qed.

Lemma no_pairs_lookup iters n_pairs s j p :
  inv iters n_pairs s -> pairs s !! j = Some p ->
  (j < length (pairs s))%nat /\ 0 < n_pairs /\ parties s = 2 * Z.of_nat (length (pairs s)) + 1.
Proof.
  intros Hinv Hj. apply lookup_lt_Some in Hj.
  pose proof (inv_len _ _ _ Hinv). pose proof (inv_parties _ _ _ Hinv).
  split; [done|]. split; lia.
Qed.

Lemma inv_driver_step iters n_pairs s s2 :
  inv iters n_pairs s -> driver_step s = Some s2 -> inv iters n_pairs s2.
Proof.
  intros Hinv Hstep. pose proof Hinv as [H1 H2 H3 H4 H5 H6 H7 H8 H9 H10 H11].
  unfold driver_step in Hstep.
  destruct (driver s) eqn:Ed; simpl in *.
  - (* threads[k].start() *)
    injection Hstep as <-. unfold start_head, n_threads in *.
    split; simpl; auto.
    all: destruct (S k <? _)%nat eqn:E; simpl; rewrite ?Ed; simpl; auto; try done.
    all: try (apply Nat.ltb_lt in E; try done).
    intros j p r Hj Hlt. apply (H5 j p r Hj).
    apply Nat.ltb_ge in Hlt. apply Nat.ltb_ge. lia.
  - (* t0 = now() *)
    injection Hstep as <-. split; simpl; auto; try done.
    exists (clock s). split; [done|lia].
  - (* start.wait(): arrival *)
    injection Hstep as <-. split; simpl; rewrite ?Ed; simpl; auto; try done.
    + lia.
    + intros j p r Hj Hl. exfalso.
      pose proof (H6 j p r Hj Hl) as Ho.
      destruct (no_pairs_lookup _ _ _ _ _ Hinv Hj) as (_ & _ & Hp).
      pose proof (total_le arrivals 2 (pairs s) arrivals_le). lia.
  - (* start.wait(): release *)
    unfold barrier_open in Hstep. destruct (Z.eqb_spec (arrived s) (parties s)) as [Ho|]; [|done].
    injection Hstep as <-. unfold join_head, n_threads.
    split; simpl; auto.
    all: destruct (0 <? _)%nat eqn:E; simpl; rewrite ?Ed; simpl; auto; try done.
    all: try (apply Nat.ltb_lt in E; try done).
    intros j p r Hj _. apply lookup_lt_Some in Hj. apply Nat.ltb_ge in E. lia.
  - (* threads[k].join() *)
    unfold thread_pc in Hstep.
    destruct (pairs s !! pair_of k) as [p|] eqn:Ek; simpl in Hstep; [|done].
    destruct (is_done _) eqn:Edone; [|done].
    injection Hstep as <-. unfold join_head, n_threads.
    split; simpl; auto.
    all: destruct (S k <? _)%nat eqn:E; simpl; rewrite ?Ed; simpl; auto; try done.
    all: try (apply Nat.ltb_lt in E; try done).
    + intros j q r Hj Hlt. apply Nat.ltb_lt in Hlt.
      destruct (decide (idx j r = k)) as [<-|Hne].
      * rewrite idx_pair_of, idx_role_of in *. simplify_eq.
        by destruct (worker_pc _ _).
      * apply (H8 j q r Hj). apply Nat.ltb_lt. lia.
    + intros j q r Hj _.
      destruct (decide (idx j r = k)) as [<-|Hne].
      * rewrite idx_pair_of, idx_role_of in *. simplify_eq.
        by destruct (worker_pc _ _).
      * apply (H8 j q r Hj). apply Nat.ltb_lt.
        apply Nat.ltb_ge in E. apply lookup_lt_Some in Hj.
        unfold idx in *. destruct r; lia.
  - (* return now() - t0 *)
    destruct H9 as (a & Ha & Hle). rewrite Ha in Hstep. simpl in Hstep.
    injection Hstep as <-. split; simpl; auto; try done.
    + exists a. done.
    + exists a. repeat split; auto. exists (clock s). split; [lia|done].
  - done.
Qed.

Lemma arrivals_same r p p2 :
  worker_pc (other r) p2 = worker_pc (other r) p ->
  has_arrived (worker_pc r p2) = has_arrived (worker_pc r p) ->
  arrivals p2 = arrivals p.
Proof. unfold arrivals. destruct r; simpl; intros -> ->; reflexivity. Qed.

(** A worker that is past its arrival at the barrier moves without
    touching the barrier. *)
Lemma inv_update iters n_pairs s j0 r p p2 :
  inv iters n_pairs s ->
  pairs s !! j0 = Some p ->
  worker_pc r p <> PcStart -> worker_pc r p <> PcDone ->
  has_arrived (worker_pc r p2) = true ->
  worker_pc (other r) p2 = worker_pc (other r) p ->
  pair_inv iters p2 ->
  (in_loop (worker_pc r p2) = true -> arrived s = parties s) ->
  inv iters n_pairs (set_pair j0 p2 s).
Proof.
  intros [H1 H2 H3 H4 H5 H6 H7 H8 H9 H10 H11] Hj0 Hns Hnd Harr Hoth Hpi Hopen.
  split; simpl; auto.
  - by rewrite length_insert.
  - by apply Forall_insert.
  - rewrite (total_insert _ _ _ _ _ Hj0), (arrivals_same r p p2); auto; [lia|].
    rewrite Harr. by destruct (worker_pc r p).
  - intros j q r2 [[-> ->]|[Hne Hj]]%lookup_insert_cases Hst; [|eauto].
    destruct (role_cases r r2) as [->| ->].
    + by specialize (H5 _ _ _ Hj0 Hst).
    + rewrite Hoth. eauto.
  - intros j q r2 [[-> ->]|[Hne Hj]]%lookup_insert_cases Hl; [|eauto].
    destruct (role_cases r r2) as [->| ->]; [auto|].
    rewrite Hoth in Hl. eauto.
  - intros j q r2 [[-> ->]|[Hne Hj]]%lookup_insert_cases Hjn; [|eauto].
    destruct (role_cases r r2) as [->| ->].
    + by specialize (H8 _ _ _ Hj0 Hjn).
    + rewrite Hoth. eauto.
  - unfold n_threads in *. simpl. by rewrite length_insert.
Qed.

Lemma inv_arrive iters n_pairs s j0 r p :
  inv iters n_pairs s ->
  pairs s !! j0 = Some p ->
  thread_started (driver s) (idx j0 r) = true ->
  worker_pc r p = PcStart ->
  inv iters n_pairs (set_pair j0 (set_pc r PcWait p) (arrive s)).
Proof.
  intros Hinv Hj0 Hst Hpc. pose proof Hinv as [H1 H2 H3 H4 H5 H6 H7 H8 H9 H10 H11].
  destruct (no_pairs_lookup _ _ _ _ _ Hinv Hj0) as (Hlt & Hpos & Hpar).
  assert (Hclosed : arrived s < parties s).
  { pose proof (total_lookup_le arrivals 2 _ _ _ arrivals_le Hj0).
    pose proof (arrivals_start _ _ Hpc).
    assert (driver_arrived (driver s) <= 1) by (destruct (driver s); simpl; lia). lia. }
  split; simpl; auto.
  - by rewrite length_insert.
  - apply Forall_insert; [done|]. apply pair_inv_set_pc; [by rewrite Hpc|].
    eapply Forall_lookup_1; eauto.
  - rewrite (total_insert _ _ _ _ _ Hj0).
    assert (arrivals (set_pc r PcWait p) = arrivals p + 1); [|lia].
    unfold arrivals. destruct r; simpl in *; rewrite Hpc; simpl; lia.
  - intros j q r2 [[-> ->]|[Hne Hj]]%lookup_insert_cases Hns; [|eauto].
    destruct (role_cases r r2) as [->| ->]; [congruence|].
    rewrite worker_pc_set_other. eauto.
  - intros j q r2 [[-> ->]|[Hne Hj]]%lookup_insert_cases Hl.
    + destruct (role_cases r r2) as [->| ->].
      * by rewrite worker_pc_set_same in Hl.
      * rewrite worker_pc_set_other in Hl. specialize (H6 _ _ _ Hj0 Hl). lia.
    + specialize (H6 _ _ _ Hj Hl). lia.
  - intros Hp. specialize (H7 Hp). lia.
  - intros j q r2 [[-> ->]|[Hne Hj]]%lookup_insert_cases Hjn; [|eauto].
    destruct (role_cases r r2) as [->| ->].
    + specialize (H8 _ _ _ Hj0 Hjn). congruence.
    + rewrite worker_pc_set_other. eauto.
  - unfold n_threads in *. simpl. by rewrite length_insert.
Qed.

Lemma inv_thread_step iters n_pairs i s s2 :
  inv iters n_pairs s -> thread_step iters i s = Some s2 -> inv iters n_pairs s2.
Proof.
  intros Hinv. unfold thread_step.
  destruct (thread_started (driver s) i) eqn:Hst; [|done].
  destruct (pairs s !! pair_of i) as [p|] eqn:Hj; simpl; [|done].
  rewrite <- (idx_decompose i) in Hst.
  assert (Hpi : pair_inv iters p).
  { eapply Forall_lookup_1; [apply Hinv | apply Hj]. }
  destruct (worker_pc (role_of i) p) eqn:Hpc.
  - intros [= <-]. by apply inv_arrive.
  - unfold barrier_open. destruct (Z.eqb_spec (arrived s) (parties s)); [|done].
    intros [= <-]. apply (inv_update _ _ _ _ (role_of i) p); auto; try congruence.
    + rewrite worker_pc_set_same. unfold loop_head. by destruct (_ <? _), (role_of i).
    + apply worker_pc_set_other.
    + apply pair_inv_set_pc; [|done]. by rewrite Hpc, eff_loop_head.
  - destruct (pair_step _ _ _) as [p2|] eqn:Hs; simpl; [|done]. intros [= <-].
    destruct (pair_step_frame _ _ _ _ Hs) as (Ho & Hn1 & Hn2 & Hn3).
    pose proof (pair_step_arrived _ _ _ _ Hs).
    apply (inv_update _ _ _ _ (role_of i) p); auto using in_loop_arrived.
    + eapply pair_step_inv; eauto.
    + intros _. eapply inv_open; eauto. by rewrite Hpc.
  - destruct (pair_step _ _ _) as [p2|] eqn:Hs; simpl; [|done]. intros [= <-].
    destruct (pair_step_frame _ _ _ _ Hs) as (Ho & Hn1 & Hn2 & Hn3).
    pose proof (pair_step_arrived _ _ _ _ Hs).
    apply (inv_update _ _ _ _ (role_of i) p); auto using in_loop_arrived.
    + eapply pair_step_inv; eauto.
    + intros _. eapply inv_open; eauto. by rewrite Hpc.
  - destruct (pair_step _ _ _) as [p2|] eqn:Hs; simpl; [|done]. intros [= <-].
    destruct (pair_step_frame _ _ _ _ Hs) as (Ho & Hn1 & Hn2 & Hn3). congruence.
Qed.

Lemma inv_step iters n_pairs e s s2 :
  inv iters n_pairs s -> step iters e s = Some s2 -> inv iters n_pairs s2.
Proof.
  intros Hinv. unfold step. destruct e as [[|i] dt]; simpl.
  - apply inv_driver_step, inv_tick, Hinv.
  - apply inv_thread_step, inv_tick, Hinv.
Qed.

Lemma inv_run iters n_pairs sched s s2 :
  inv iters n_pairs s -> run iters sched s = Some s2 -> inv iters n_pairs s2.
Proof.
  revert s. induction sched as [|e sched IH]; simpl; intros s Hinv.
  - by intros [= <-].
  - destruct (step iters e s) as [s1|] eqn:Hs; simpl; [|done].
    apply IH. eapply inv_step; eauto.
Qed.

Lemma inv_reachable c0 iters n_pairs s :
  reachable c0 iters n_pairs s -> inv iters n_pairs s.
Proof. intros [sched Hr]. eapply inv_run; [apply inv_init | apply Hr]. Qed.


Lemma rem_total_insert iters ps j p p2 :
  ps !! j = Some p -> (pair_rem iters p2 < pair_rem iters p)%nat ->
  (rem_total iters (<[j := p2]> ps) < rem_total iters ps)%nat.
Proof.
  revert j. induction ps as [|q ps IH]; intros [|j] Hj Hlt; simpl in *; try discriminate.
  - injection Hj as ->. lia.
  - specialize (IH j Hj Hlt). lia.
Qed.

Lemma driver_step_measure iters s s2 :
  driver_step s = Some s2 -> (measure iters s2 < measure iters s)%nat.
Proof.
  unfold driver_step, measure, start_head, join_head, n_threads.
  destruct (driver s) eqn:Ed; simpl.
  - intros [= <-]; simpl.
    destruct (_ <? _)%nat eqn:E; [apply Nat.ltb_lt in E|apply Nat.ltb_ge in E]; simpl; lia.
  - intros [= <-]; simpl. lia.
  - intros [= <-]; simpl. lia.
  - destruct (barrier_open s); [|done]. intros [= <-]; simpl.
    destruct (_ <? _)%nat eqn:E; [apply Nat.ltb_lt in E|apply Nat.ltb_ge in E]; simpl; lia.
  - destruct (thread_pc s k); simpl; [|done]. destruct (is_done _); [|done].
    intros [= <-]; simpl.
    destruct (_ <? _)%nat eqn:E; [apply Nat.ltb_lt in E|apply Nat.ltb_ge in E]; simpl; lia.
  - destruct (t0 s); simpl; [|done]. intros [= <-]; simpl. lia.
  - done.
Qed.

Lemma thread_step_measure iters i s s2 :
  thread_step iters i s = Some s2 -> (measure iters s2 < measure iters s)%nat.
Proof.
  unfold thread_step, measure, n_threads.
  destruct (thread_started _ _); [|done].
  destruct (pairs s !! pair_of i) as [p|] eqn:Hj; simpl; [|done].
  assert (Hupd : forall p2 s1, pairs s1 = pairs s -> driver s1 = driver s ->
            (pair_rem iters p2 < pair_rem iters p)%nat ->
            (drem (2 * length (pairs (set_pair (pair_of i) p2 s1))) (driver (set_pair (pair_of i) p2 s1))
              + rem_total iters (pairs (set_pair (pair_of i) p2 s1))
             < drem (2 * length (pairs s)) (driver s) + rem_total iters (pairs s))%nat).
  { intros p2 s1 Hp Hd Hlt. simpl. rewrite Hp, Hd, length_insert.
    pose proof (rem_total_insert iters _ _ _ _ Hj Hlt). lia. }
  destruct (worker_pc (role_of i) p) eqn:Hpc.
  - intros [= <-]. apply Hupd; auto. apply pair_rem_set_pc. rewrite Hpc. destruct (role_of i); simpl; lia.
  - destruct (barrier_open s); [|done]. intros [= <-]. apply Hupd; auto.
    apply pair_rem_set_pc. rewrite Hpc.
    pose proof (loop_head_rem0 iters (role_of i)). destruct (role_of i); simpl in *; lia.
  - destruct (pair_step _ _ _) as [p2|] eqn:Hs; simpl; [|done]. intros [= <-].
    apply Hupd; auto. eapply pair_step_rem; eauto.
  - destruct (pair_step _ _ _) as [p2|] eqn:Hs; simpl; [|done]. intros [= <-].
    apply Hupd; auto. eapply pair_step_rem; eauto.
  - destruct (pair_step _ _ _) as [p2|] eqn:Hs; simpl; [|done]. intros [= <-].
    apply Hupd; auto. eapply pair_step_rem; eauto.
Qed.

Lemma step_measure iters e s s2 :
  step iters e s = Some s2 -> (measure iters s2 < measure iters s)%nat.
Proof.
  unfold step. destruct e as [[|i] dt]; simpl; intros H.
  - apply (driver_step_measure iters) in H. exact H.
  - apply thread_step_measure in H. exact H.
Qed.

Lemma run_measure iters sched s s2 :
  run iters sched s = Some s2 -> (length sched + measure iters s2 <= measure iters s)%nat.
Proof.
  revert s. induction sched as [|e sched IH]; simpl; intros s.
  - intros [= <-]. lia.
  - destruct (step iters e s) as [s1|] eqn:Hs; simpl; [|done].
    intros Hr. apply IH in Hr. apply step_measure in Hs. lia.
Qed.

(** Whether an actor can take a step does not depend on the clock. *)
Lemma thread_can_step iters dt s j r p :
  pairs s !! j = Some p ->
  thread_started (driver s) (idx j r) = true ->
  (worker_pc r p = PcStart
   \/ (worker_pc r p = PcWait /\ arrived s = parties s)
   \/ is_Some (pair_step iters r p)) ->
  is_Some (step iters (Thread (idx j r), dt) s).
Proof.
  intros Hj Hst Hc. unfold step, thread_step; simpl.
  rewrite Hst, idx_pair_of, idx_role_of, Hj; simpl.
  destruct Hc as [->|[[-> Ho]|[p2 Hs]]]; [done| |].
  - unfold barrier_open; simpl. rewrite Ho, Z.eqb_refl. done.
  - destruct (pair_step_frame _ _ _ _ Hs) as (_ & Hn1 & Hn2 & _).
    rewrite Hs. destruct (worker_pc r p); done.
Qed.

Lemma arrivals_lt_start p : arrivals p < 2 -> exists r, worker_pc r p = PcStart.
Proof.
  unfold arrivals. destruct (ping p) eqn:E1; [exists Pinger; done|..];
  (destruct (pong p) eqn:E2; [exists Ponger; done|..]); simpl; lia.
Qed.

(** Deadlock freedom: as long as the driver has not returned, some actor
    can take a step. *)
Lemma progress iters n_pairs s :
  0 <= n_pairs -> inv iters n_pairs s -> driver s <> DRet ->
  exists a, forall dt, is_Some (step iters (a, dt) s).
Proof.
  intros Hnp Hinv Hnr. pose proof Hinv as [H1 H2 H3 H4 H5 H6 H7 H8 H9 H10 H11].
  assert (Hpar : parties s = 2 * Z.of_nat (length (pairs s)) + 1) by lia.
  destruct (driver s) eqn:Ed; try done.
  - exists Driver. intros dt. unfold step, driver_step; simpl. rewrite Ed. done.
  - exists Driver. intros dt. unfold step, driver_step; simpl. rewrite Ed. done.
  - exists Driver. intros dt. unfold step, driver_step; simpl. rewrite Ed. done.
  - destruct (Z.eqb_spec (arrived s) (parties s)) as [Ho|Hc].
    + exists Driver. intros dt. unfold step, driver_step, barrier_open; simpl.
      rewrite Ed, Ho, Z.eqb_refl. done.
    + destruct (total_lt_witness arrivals 2 (pairs s)) as (j & p & Hj & Hp).
      { pose proof (total_le arrivals 2 (pairs s) arrivals_le). simpl in H4. lia. }
      destruct (arrivals_lt_start _ Hp) as [r Hr].
      exists (Thread (idx j r)). intros dt.
      eapply thread_can_step; eauto. by rewrite Ed.
  - assert (Hk : (pair_of k < length (pairs s))%nat).
    { unfold n_threads in H11. rewrite <- (idx_decompose k) in H11.
      unfold idx in H11. destruct (role_of k); lia. }
    destruct (lookup_lt_is_Some_2 _ _ Hk) as [p Hj].
    destruct (is_done (worker_pc (role_of k) p)) eqn:Hd.
    + exists Driver. intros dt. unfold step, driver_step, thread_pc; simpl.
      rewrite Ed, Hj; simpl. rewrite Hd. done.
    + assert (Hpd : pair_done p = false).
      { unfold pair_done. destruct (role_of k); simpl in Hd; rewrite Hd; auto using andb_false_r. }
      assert (Hpi : pair_inv iters p) by (eapply Forall_lookup_1; eauto).
      destruct (pair_progress _ _ Hpi Hpd) as (r & Hr).
      exists (Thread (idx (pair_of k) r)). intros dt.
      eapply thread_can_step; eauto; [by rewrite Ed|].
      destruct Hr as [?|[?|?]]; auto.
  - exists Driver. intros dt. unfold step, driver_step; simpl. rewrite Ed.
    destruct H9 as (a & -> & _). done.
Qed.

Lemma step_actor iters a dt s :
  is_Some (step iters (a, dt) s) -> a ∈ actors s.
Proof.
  unfold actors. destruct a as [|i]; [intros _; apply list_elem_of_here|].
  intros [s2 Hs]. apply list_elem_of_further, list_elem_of_fmap_2, elem_of_seq.
  unfold step, thread_step in Hs; simpl in Hs.
  destruct (thread_started _ _); [|done].
  destruct (pairs s !! pair_of i) as [p|] eqn:Hj; [|done].
  apply lookup_lt_Some in Hj. unfold n_threads.
  pose proof (idx_decompose i) as Hi. unfold idx in Hi.
  destruct (role_of i); lia.
Qed.

Lemma first_enabled_step iters dt s s2 :
  first_enabled iters dt s = Some s2 -> exists a, step iters (a, dt) s = Some s2.
Proof.
  unfold first_enabled.
  destruct (list_find _ _) as [[k a]|]; simpl; [|done]. eauto.
Qed.

Lemma first_enabled_progress iters n_pairs dt s :
  0 <= n_pairs -> inv iters n_pairs s -> driver s <> DRet ->
  is_Some (first_enabled iters dt s).
Proof.
  intros Hnp Hinv Hnr. destruct (progress _ _ _ Hnp Hinv Hnr) as [a Ha].
  specialize (Ha dt). unfold first_enabled.
  destruct (list_find_elem_of (fun a => is_Some (step iters (a, dt) s)) (actors s) a)
    as [[k b] Hf]; [by eapply step_actor|done|].
  rewrite Hf; simpl. by apply list_find_Some in Hf as (_ & Hb & _).
Qed.

Lemma run_fair_reach iters fuel dt s :
  exists sched, run iters sched s = Some (run_fair iters fuel dt s).
Proof.
  revert s. induction fuel as [|f IH]; intros s; simpl.
  - by exists [].
  - destruct (first_enabled iters dt s) as [s1|] eqn:Hf; [|by exists []].
    destruct (first_enabled_step _ _ _ _ Hf) as [a Ha].
    destruct (IH s1) as [sched Hs]. exists ((a, dt) :: sched). simpl.
    by rewrite Ha.
Qed.

(** With fuel for [measure] steps the first-enabled scheduler runs the
    driver to its [return]. *)
Lemma run_fair_completes iters n_pairs fuel dt s :
  0 <= n_pairs -> inv iters n_pairs s -> (measure iters s <= fuel)%nat ->
  completed (run_fair iters fuel dt s).
Proof.
  intros Hnp. revert s. induction fuel as [|f IH]; intros s Hinv Hm; simpl.
  - unfold measure in Hm. unfold completed. destruct (driver s); simpl in Hm; try lia. done.
  - destruct (first_enabled iters dt s) as [s1|] eqn:Hf.
    + destruct (first_enabled_step _ _ _ _ Hf) as [a Ha].
      apply IH; [by eapply inv_step|]. apply step_measure in Ha. lia.
    + unfold completed.
      assert (Hd : driver s = DRet \/ driver s <> DRet)
        by (destruct (driver s); auto; right; discriminate).
      destruct Hd as [|Hn]; [done|].
      destruct (first_enabled_progress iters n_pairs dt s Hnp Hinv Hn) as [? ?]. congruence.
Qed.

Lemma completed_settled iters n_pairs s :
  inv iters n_pairs s -> completed s -> Forall (settled iters) (pairs s).
Proof.
  intros Hinv Hc. apply Forall_lookup_2. intros j p Hj.
  apply pair_done_settled; [eapply Forall_lookup_1; [apply Hinv|done]|].
  unfold pair_done, completed in *.
  pose proof (inv_joined _ _ _ Hinv j p Pinger Hj) as Hp.
  pose proof (inv_joined _ _ _ Hinv j p Ponger Hj) as Hq.
  rewrite Hc in Hp, Hq. simpl in *. by rewrite Hp, Hq.
Qed.

Lemma completed_ret iters n_pairs s :
  inv iters n_pairs s -> completed s -> exists e, ret s = Some e /\ 0 <= e.
Proof.
  intros Hinv Hc. pose proof (inv_ret _ _ _ Hinv) as Hr.
  unfold completed in Hc. rewrite Hc in Hr.
  destruct Hr as (a & _ & _ & c & Hac & ->). exists (c - a). split; [done|lia].
Qed.


Lemma total_max_all (f : pair -> Z) m ps j p :
  (forall q, f q <= m) -> total f ps = m * Z.of_nat (length ps) ->
  ps !! j = Some p -> f p = m.
Proof.
  intros Hf Ht Hj. pose proof (total_lookup_le f m ps j p Hf Hj). specialize (Hf p). lia.
Qed.

(** Once the barrier is open, every worker and the driver are at it. *)
Lemma open_all_arrived iters n_pairs s j p r :
  inv iters n_pairs s -> arrived s = parties s -> pairs s !! j = Some p ->
  driver_arrived (driver s) = 1 /\ has_arrived (worker_pc r p) = true.
Proof.
  intros Hinv Ho Hj.
  destruct (no_pairs_lookup _ _ _ _ _ Hinv Hj) as (_ & _ & Hpar).
  pose proof (inv_arrived _ _ _ Hinv) as Ha.
  pose proof (total_le arrivals 2 (pairs s) arrivals_le) as Hle.
  assert (Hd : driver_arrived (driver s) <= 1) by (destruct (driver s); simpl; lia).
  split; [lia|].
  assert (Hp : arrivals p = 2).
  { apply (total_max_all arrivals 2 (pairs s) j); auto using arrivals_le. lia. }
  unfold arrivals in Hp.
  destruct r; simpl; destruct (has_arrived (ping p)), (has_arrived (pong p)); simpl in Hp; auto; lia.
Qed.

(** A channel operation has happened only if some worker is in its loop. *)
Lemma ops_in_loop iters n_pairs s j p :
  inv iters n_pairs s -> pairs s !! j = Some p -> 0 < pair_ops p ->
  exists r, in_loop (worker_pc r p) = true.
Proof.
  intros Hinv Hj Hops.
  assert (Hpi : pair_inv iters p) by (eapply Forall_lookup_1; [apply Hinv|done]).
  destruct (in_loop (ping p)) eqn:E1; [by exists Pinger|].
  destruct (in_loop (pong p)) eqn:E2; [by exists Ponger|].
  rewrite (pair_inv_idle _ _ Hpi E1 E2) in Hops. lia.
Qed.

Lemma closed_no_ops iters n_pairs s :
  inv iters n_pairs s -> arrived s <> parties s -> total pair_ops (pairs s) = 0.
Proof.
  intros Hinv Hc. apply total_zero, Forall_lookup_2. intros j p Hj.
  assert (Hpi : pair_inv iters p) by (eapply Forall_lookup_1; [apply Hinv|done]).
  apply (pair_inv_idle iters); [done|..].
  - destruct (in_loop (ping p)) eqn:E; [|done].
    destruct Hc. by apply (inv_open _ _ _ Hinv j p Pinger).
  - destruct (in_loop (pong p)) eqn:E; [|done].
    destruct Hc. by apply (inv_open _ _ _ Hinv j p Ponger).
Qed.

Lemma measure_init c0 iters n_pairs :
  measure iters (init c0 iters n_pairs) = bound iters n_pairs.
Proof. reflexivity. Qed.

(** The run of the first-enabled scheduler from the initial state. *)
Lemma pingpong_threads_returns c0 dt iters n_pairs :
  0 <= n_pairs ->
  exists e, pingpong_threads c0 dt (bound iters n_pairs) iters n_pairs = Some e /\ 0 <= e.
Proof.
  intros Hn. unfold pingpong_threads.
  set (s := run_fair _ _ _ _).
  assert (Hinv : inv iters n_pairs s).
  { destruct (run_fair_reach iters (bound iters n_pairs) dt (init c0 iters n_pairs)) as [sched Hr].
    eapply inv_run; [apply inv_init|exact Hr]. }
  apply (completed_ret _ _ _ Hinv).
  apply (run_fair_completes iters n_pairs); [done|apply inv_init|].
  by rewrite measure_init.
Qed.

Lemma run_bounded c0 iters n_pairs sched s :
  run iters sched (init c0 iters n_pairs) = Some s ->
  (length sched <= bound iters n_pairs)%nat.
Proof. intros Hr. apply run_measure in Hr. rewrite measure_init in Hr. lia. Qed.

Lemma total_nonneg (f : pair -> Z) ps :
  (forall p, 0 <= f p) -> 0 <= total f ps.
Proof.
  intros Hf. induction ps as [|q ps IH]; simpl; [lia|]. specialize (Hf q). lia.
Qed.

Lemma arrivals_nonneg p : 0 <= Threads.arrivals p.
Proof.
  unfold Threads.arrivals.
  destruct (has_arrived (ping p)), (has_arrived (pong p)); simpl; lia.
Qed.

Lemma before_arrival_no_ops iters n_pairs s :
  Threads.inv iters n_pairs s -> Threads.driver_arrived (Threads.driver s) = 0 ->
  total pair_ops (Threads.pairs s) = 0.
Proof.
  intros Hinv Hd. apply (closed_no_ops iters n_pairs); [done|].
  pose proof (Threads.inv_arrived _ _ _ Hinv) as Ha.
  pose proof (Threads.inv_parties _ _ _ Hinv) as Hpar.
  pose proof (Threads.inv_len _ _ _ Hinv) as Hlen.
  pose proof (total_le Threads.arrivals 2 (Threads.pairs s) arrivals_le) as Hle.
  pose proof (total_nonneg Threads.arrivals (Threads.pairs s) arrivals_nonneg) as Hge.
  lia.
Qed.


Lemma completed_done iters n_pairs s :
  inv iters n_pairs s -> completed s -> Forall (fun p => pair_done p = true) (pairs s).
Proof.
  intros Hinv Hc. apply Forall_lookup_2. intros j p Hj.
  unfold pair_done, completed in *.
  pose proof (inv_joined _ _ _ Hinv j p Pinger Hj) as Hp.
  pose proof (inv_joined _ _ _ Hinv j p Ponger Hj) as Hq.
  rewrite Hc in Hp, Hq. simpl in *. by rewrite Hp, Hq.
Qed.

Lemma threads_terminate c0 iters n_pairs :
  0 <= n_pairs -> terminates c0 iters n_pairs.
Proof.
  intros Hn. split; [|split].
  - intros sched s Hr. split; [by eapply run_bounded|].
    assert (Hinv : inv iters n_pairs s) by (eapply inv_run; [apply inv_init|exact Hr]).
    assert (Hd : driver s = DRet \/ driver s <> DRet)
      by (destruct (driver s); auto; right; discriminate).
    destruct Hd as [Hd|Hd]; [by left|right]. by eapply progress.
  - intros s Hr Hc. apply inv_reachable in Hr. split.
    + by eapply completed_done.
    + by eapply completed_ret.
  - intros dt. by apply pingpong_threads_returns.
Qed.

(** The first thing a started worker does is to arrive at the barrier;
    this touches no channel. *)
Lemma first_action_arrive iters i dt s s2 :
  thread_pc s i = Some PcStart -> step iters (Thread i, dt) s = Some s2 ->
  thread_pc s2 i = Some PcWait /\ arrived s2 = arrived s + 1 /\
  total pair_ops (pairs s2) = total pair_ops (pairs s).
Proof.
  unfold thread_pc, step, thread_step; simpl.
  destruct (thread_started _ _); [|by intros _ ?].
  destruct (pairs s !! pair_of i) as [p|] eqn:Hj; simpl; [|done].
  intros [= ->] [= <-]; simpl.
  rewrite list_lookup_insert_eq by (by eapply lookup_lt_Some); simpl.
  rewrite worker_pc_set_same. split; [done|]. split; [done|].
  rewrite (total_insert _ _ _ _ _ Hj). destruct (role_of i); unfold pair_ops, ops_A, ops_B; simpl; lia.
Qed.

(** A worker inside [start.wait()] leaves it only when the barrier is
    full, and leaving touches no channel. *)
Lemma leave_barrier iters i dt s s2 :
  thread_pc s i = Some PcWait -> step iters (Thread i, dt) s = Some s2 ->
  arrived s = parties s /\
  total pair_ops (pairs s2) = total pair_ops (pairs s).
Proof.
  unfold thread_pc, step, thread_step, barrier_open; simpl.
  destruct (thread_started _ _); [|by intros _ ?].
  destruct (pairs s !! pair_of i) as [p|] eqn:Hj; simpl; [|done].
  intros [= ->]. destruct (Z.eqb_spec (arrived s) (parties s)); [|done].
  intros [= <-]; simpl. split; [done|].
  rewrite (total_insert _ _ _ _ _ Hj). destruct (role_of i); unfold pair_ops, ops_A, ops_B; simpl; lia.
Qed.

Lemma open_everybody_arrived iters n_pairs s :
  inv iters n_pairs s -> arrived s = parties s -> pairs s <> [] ->
  driver_arrived (driver s) = 1 /\
  Forall (fun q => has_arrived (ping q) = true /\ has_arrived (pong q) = true) (pairs s).
Proof.
  intros Hinv Ho Hne. split.
  - destruct (pairs s) as [|p ps] eqn:E; [done|].
    eapply (open_all_arrived iters n_pairs s 0 p Pinger); eauto. by rewrite E.
  - apply Forall_lookup_2. intros j p Hj. split.
    + by apply (open_all_arrived iters n_pairs s j p Pinger).
    + by apply (open_all_arrived iters n_pairs s j p Ponger).
Qed.


(** A worker that has arrived cannot leave [start.wait()] while the driver
    has not arrived; a thread that is not started cannot run. *)
Example worker_held_at_barrier :
  run 1 [(Driver, 0%nat); (Driver, 0%nat); (Thread 0, 0%nat); (Thread 1, 0%nat);
         (Thread 0, 0%nat)] (init 0 1 1) = None.
Proof. reflexivity. Qed.

Example unstarted_thread_cannot_run :
  run 1 [(Driver, 0%nat); (Thread 1, 0%nat)] (init 0 1 1) = None.
Proof. reflexivity. Qed.


Lemma run_snoc iters sched e s s2 :
  run iters (sched ++ [e]) s = Some s2 <->
  exists s1, run iters sched s = Some s1 /\ step iters e s1 = Some s2.
Proof.
  revert s. induction sched as [|e' sched IH]; intros s; simpl.
  - split.
    + destruct (step iters e s) as [s1|] eqn:E; simpl; [|done].
      intros [= <-]. by exists s.
    + intros (s1 & [= <-] & ->). done.
  - destruct (step iters e' s) as [s1|]; simpl; [apply IH|].
    split; [done|]. by intros (s0 & ? & _).
Qed.

Lemma ticks_app l1 l2 : ticks (l1 ++ l2) = ticks l1 + ticks l2.
Proof. induction l1 as [|e l1 IH]; simpl; [done|]. unfold ticks in *. simpl. lia. Qed.

Lemma driver_steps_app l1 l2 :
  driver_steps (l1 ++ l2) = (driver_steps l1 + driver_steps l2)%nat.
Proof. unfold driver_steps. by rewrite List.filter_app, length_app. Qed.

Lemma thread_step_frame iters i s s2 :
  thread_step iters i s = Some s2 ->
  clock s2 = clock s /\ driver s2 = driver s /\ t0 s2 = t0 s /\ ret s2 = ret s.
Proof.
  unfold thread_step. destruct (thread_started _ _); [|done].
  destruct (pairs s !! pair_of i) as [p|]; simpl; [|done].
  destruct (worker_pc (role_of i) p); try (intros [= <-]; done).
  - destruct (barrier_open s); [|done]. by intros [= <-].
  - destruct (pair_step _ _ _); simpl; [|done]. by intros [= <-].
  - destruct (pair_step _ _ _); simpl; [|done]. by intros [= <-].
  - destruct (pair_step _ _ _); simpl; [|done]. by intros [= <-].
Qed.

Lemma ticks_snoc l e : ticks (l ++ [e]) = ticks l + Z.of_nat e.2.
Proof. rewrite ticks_app. unfold ticks. simpl. lia. Qed.

Lemma driver_steps_snoc l e :
  driver_steps (l ++ [e]) = (driver_steps l + if is_driver e then 1 else 0)%nat.
Proof.
  rewrite driver_steps_app. f_equal. unfold driver_steps. simpl.
  by destruct (is_driver e).
Qed.

Lemma timeline_run c0 iters n_pairs sched s :
  run iters sched (init c0 iters n_pairs) = Some s ->
  timeline c0 iters n_pairs sched s.
Proof.
  revert s. induction sched as [|[a dt] sched IH] using rev_ind; intros s Hrun.
  - simpl in Hrun. injection Hrun as <-. unfold timeline, init. simpl.
    split; [unfold ticks; simpl; lia|].
    rewrite length_replicate. unfold start_head.
    destruct (_ <? _)%nat eqn:E; [done|].
    apply Nat.ltb_ge in E. split; [|done]. unfold driver_steps. simpl. lia.
  - apply run_snoc in Hrun as (s1 & Hrun & Hstep).
    specialize (IH s1 Hrun). destruct IH as [Hclock IH].
    assert (Hinv : inv iters n_pairs s1) by (apply (inv_reachable c0); by eexists).
    pose proof (inv_len _ _ _ Hinv) as Hlen.
    pose proof (inv_range _ _ _ Hinv) as Hrange.
    assert (Hn : n_threads s1 = (2 * Z.to_nat n_pairs)%nat)
      by (unfold n_threads; by rewrite Hlen).
    unfold timeline. rewrite ticks_snoc. cbn [snd].
    destruct a as [|i]; unfold step in Hstep; cbn [fst snd] in Hstep.
    + (* the driver moves *)
      unfold driver_step in Hstep. cbn [tick driver] in Hstep.
      destruct (driver s1) as [k| | | |k| |] eqn:Ed.
      * injection Hstep as <-. cbn [set_driver clock driver t0 tick].
        split; [lia|]. destruct IH as [Hk Ht0].
        rewrite driver_steps_snoc. cbn [is_driver fst].
        unfold n_threads. cbn [tick pairs]. fold (n_threads s1). rewrite Hn.
        rewrite Hn in Hrange. unfold start_head.
        destruct (_ <? _)%nat eqn:E.
        -- split; [lia|done].
        -- apply Nat.ltb_ge in E. split; [lia|done].
      * injection Hstep as <-. cbn [clock driver t0 tick].
        split; [lia|]. destruct IH as [Hk Ht0].
        exists sched, dt, [], s1. split; [done|]. split; [done|].
        split; [done|]. split; [done|]. split; [done|].
        f_equal. lia.
      * injection Hstep as <-. cbn [set_driver arrive clock driver t0 tick].
        split; [lia|].
        destruct IH as (pre & d0 & mid & s0 & -> & Hpre & Hd0 & Hcnt & Hmid & Ht0).
        exists pre, d0, (mid ++ [(Driver, dt)]), s0.
        split; [by rewrite <- app_assoc|]. split; [done|]. split; [done|].
        split; [done|]. split; [|done].
        rewrite driver_steps_snoc, Hmid. cbn. lia.
      * destruct (barrier_open _); [|done]. injection Hstep as <-.
        cbn [set_driver clock driver t0 tick]. split; [lia|].
        destruct IH as (pre & d0 & mid & s0 & -> & Hpre & Hd0 & Hcnt & Hmid & Ht0).
        unfold n_threads. cbn [tick pairs]. fold (n_threads s1). rewrite Hn.
        assert (Hsnoc : driver_steps (mid ++ [(Driver, dt)]) = 2%nat)
          by (rewrite driver_steps_snoc, Hmid; cbn; lia).
        unfold join_head. destruct (_ <? _)%nat eqn:E.
        -- exists pre, d0, (mid ++ [(Driver, dt)]), s0.
           split; [by rewrite <- app_assoc|]. done.
        -- apply Nat.ltb_ge in E.
           exists pre, d0, (mid ++ [(Driver, dt)]), s0.
           split; [by rewrite <- app_assoc|]. repeat (split; [done|]).
           split; [|done]. rewrite Hsnoc. cbn. lia.
      * destruct (thread_pc _ k) as [c|]; simpl in Hstep; [|done].
        destruct (is_done c); [|done]. injection Hstep as <-.
        cbn [set_driver clock driver t0 tick]. split; [lia|].
        destruct IH as (pre & d0 & mid & s0 & -> & Hpre & Hd0 & Hcnt & Hmid & Ht0).
        unfold n_threads. cbn [tick pairs]. fold (n_threads s1). rewrite Hn.
        rewrite Hn in Hrange.
        assert (Hsnoc : driver_steps (mid ++ [(Driver, dt)]) = (2 + S k)%nat)
          by (rewrite driver_steps_snoc, Hmid; cbn; lia).
        unfold join_head. destruct (_ <? _)%nat eqn:E.
        -- exists pre, d0, (mid ++ [(Driver, dt)]), s0.
           split; [by rewrite <- app_assoc|]. done.
        -- apply Nat.ltb_ge in E.
           exists pre, d0, (mid ++ [(Driver, dt)]), s0.
           split; [by rewrite <- app_assoc|]. repeat (split; [done|]).
           split; [|done]. rewrite Hsnoc. cbn. lia.
      * destruct IH as (pre & d0 & mid & s0 & -> & Hpre & Hd0 & Hcnt & Hmid & Ht0).
        cbn [tick t0] in Hstep. rewrite Ht0 in Hstep. simpl in Hstep.
        injection Hstep as <-. cbn [clock driver t0 ret].
        split; [lia|].
        exists pre, d0, mid, dt, [], s0.
        split; [by rewrite <- app_assoc|]. repeat (split; [done|]).
        f_equal. rewrite Hclock, ticks_app. unfold ticks at 2. cbn [foldr snd].
        fold (ticks mid). lia.
      * done.
    + (* a worker thread moves *)
      apply thread_step_frame in Hstep as (Hc & Hd & Ht & Hr).
      cbn [tick clock driver t0 ret] in Hc, Hd, Ht, Hr.
      rewrite Hc, Hd, Ht, Hr. split; [lia|].
      destruct (driver s1) as [k| | | |k| |] eqn:Ed.
      * by rewrite driver_steps_snoc, Nat.add_0_r.
      * by rewrite driver_steps_snoc, Nat.add_0_r.
      * destruct IH as (pre & d0 & mid & s0 & -> & Hpre & Hd0 & Hcnt & Hmid & Ht0).
        exists pre, d0, (mid ++ [(Thread i, dt)]), s0.
        split; [by rewrite <- app_assoc|]. repeat (split; [done|]).
        split; [|done]. by rewrite driver_steps_snoc, Nat.add_0_r.
      * destruct IH as (pre & d0 & mid & s0 & -> & Hpre & Hd0 & Hcnt & Hmid & Ht0).
        exists pre, d0, (mid ++ [(Thread i, dt)]), s0.
        split; [by rewrite <- app_assoc|]. repeat (split; [done|]).
        split; [|done]. by rewrite driver_steps_snoc, Nat.add_0_r.
      * destruct IH as (pre & d0 & mid & s0 & -> & Hpre & Hd0 & Hcnt & Hmid & Ht0).
        exists pre, d0, (mid ++ [(Thread i, dt)]), s0.
        split; [by rewrite <- app_assoc|]. repeat (split; [done|]).
        split; [|done]. by rewrite driver_steps_snoc, Nat.add_0_r.
      * destruct IH as (pre & d0 & mid & s0 & -> & Hpre & Hd0 & Hcnt & Hmid & Ht0).
        exists pre, d0, (mid ++ [(Thread i, dt)]), s0.
        split; [by rewrite <- app_assoc|]. repeat (split; [done|]).
        split; [|done]. by rewrite driver_steps_snoc, Nat.add_0_r.
      * destruct IH as (pre & d0 & mid & d1 & post & s0 & -> & Hpre & Hd0 & Hcnt & Hmid
                        & Hpost & Ht0 & Hret).
        exists pre, d0, mid, d1, (post ++ [(Thread i, dt)]), s0.
        split; [rewrite <- app_assoc; cbn; by rewrite <- app_assoc|].
        repeat (split; [done|]).
        split; [|done]. by rewrite driver_steps_snoc, Nat.add_0_r.
Qed.

End ThreadsFacts.

Module AioFacts.
Import Chan Worker WorkerFacts Aio.

Lemma wrem_step iters r p p2 :
  pair_step iters r p = Some p2 ->
  (wrem iters r (worker_pc r p2) < wrem iters r (worker_pc r p))%nat.
Proof.
  intros Hs. pose proof (pair_step_rem _ _ _ _ Hs) as Hlt.
  destruct (pair_step_frame _ _ _ _ Hs) as (Ho & _).
  unfold pair_rem in Hlt. destruct r; simpl in *; rewrite Ho in Hlt; lia.
Qed.

(** [run_to_block] is a sequence of channel operations of one worker. *)
Lemma run_to_block_ind (P : pair -> Prop) fuel iters r p :
  P p -> (forall q q2, P q -> pair_step iters r q = Some q2 -> P q2) ->
  P (run_to_block fuel iters r p).
Proof.
  intros Hp Hstep. revert p Hp. induction fuel as [|f IH]; intros p Hp; simpl; [done|].
  destruct (pair_step iters r p) as [p2|] eqn:Hs; [|done]. eauto.
Qed.

Lemma run_to_block_inv iters fuel r p :
  pair_inv iters p -> pair_inv iters (run_to_block fuel iters r p).
Proof.
  intros Hp. apply (run_to_block_ind (pair_inv iters)); [done|].
  intros q q2 Hq Hs. eapply pair_step_inv; eauto.
Qed.

Lemma run_to_block_rem iters fuel r p :
  (pair_rem iters (run_to_block fuel iters r p) <= pair_rem iters p)%nat.
Proof.
  apply (run_to_block_ind (fun q => pair_rem iters q <= pair_rem iters p)%nat); [done|].
  intros q q2 Hq Hs. apply pair_step_rem in Hs. lia.
Qed.

Lemma run_to_block_other iters fuel r p :
  worker_pc (other r) (run_to_block fuel iters r p) = worker_pc (other r) p.
Proof.
  apply (run_to_block_ind (fun q => worker_pc (other r) q = worker_pc (other r) p)); [done|].
  intros q q2 Hq Hs. apply pair_step_frame in Hs as (-> & _). done.
Qed.

Lemma run_to_block_no_wait iters fuel r p :
  worker_pc r p <> PcWait -> worker_pc r (run_to_block fuel iters r p) <> PcWait.
Proof.
  intros Hp. apply (run_to_block_ind (fun q => worker_pc r q <> PcWait)); [done|].
  intros q q2 Hq Hs. apply pair_step_arrived in Hs. by destruct (worker_pc r q2).
Qed.

(** The fuel never runs out: when [run_to_block] stops, the worker is
    blocked on a channel or has left its loop. *)
Lemma run_to_block_blocked iters fuel r p :
  (wrem iters r (worker_pc r p) <= fuel)%nat ->
  pair_step iters r (run_to_block fuel iters r p) = None.
Proof.
  revert p. induction fuel as [|f IH]; intros p Hle; simpl.
  - unfold pair_step. destruct r, p as [a b c d]; simpl in *.
    + destruct c; simpl in *; try done; try lia.
    + destruct d; simpl in *; try done; try lia.
  - destruct (pair_step iters r p) as [p2|] eqn:Hs; [|done].
    apply IH. apply wrem_step in Hs.
    revert Hle Hs. generalize (wrem iters r (worker_pc r p2)), (wrem iters r (worker_pc r p)).
    intros; lia.
Qed.

Lemma wrem_loop_bound iters r p :
  pair_inv iters p -> in_loop (worker_pc r p) = true ->
  (wrem iters r (worker_pc r p) <= Z.to_nat (2 * iters) + 2)%nat.
Proof.
  unfold pair_inv. destruct p as [a b c d], r; simpl; intros Hinv Hl.
  - destruct c; simpl in *; try done; try lia; inversion Hinv; subst; lia.
  - destruct d; simpl in *; try done; try lia; inversion Hinv; subst; try lia.
    all: unfold loop_head in *; destruct (_ <? _) eqn:E; simplify_eq; lia.
Qed.

Lemma worker_run_blocked iters r p p2 :
  pair_inv iters p ->
  worker_run iters r p = Some p2 -> pair_step iters r p2 = None.
Proof.
  intros Hinv. unfold worker_run.
  assert (Hs : forall q, pair_step iters r p = Some q ->
             pair_step iters r (run_to_block (worker_fuel iters) iters r q) = None).
  { intros q Hq. apply run_to_block_blocked. unfold worker_fuel.
    apply wrem_loop_bound; [by eapply pair_step_inv|by eapply pair_step_arrived]. }
  destruct (worker_pc r p) eqn:Hpc.
  - intros [= <-]. apply run_to_block_blocked. unfold worker_fuel.
    apply wrem_loop_bound.
    + apply pair_inv_set_pc; [|done]. by rewrite Hpc, eff_loop_head.
    + rewrite worker_pc_set_same. unfold loop_head. by destruct (_ <? _), r.
  - destruct (pair_step iters r p) eqn:E; simpl; [|done]. intros [= <-]. eauto.
  - destruct (pair_step iters r p) eqn:E; simpl; [|done]. intros [= <-]. eauto.
  - destruct (pair_step iters r p) eqn:E; simpl; [|done]. intros [= <-]. eauto.
  - destruct (pair_step iters r p) eqn:E; simpl; [|done]. intros [= <-]. eauto.
Qed.

Lemma worker_run_spec iters r p p2 :
  task_inv iters (TRun p) -> worker_run iters r p = Some p2 ->
  task_inv iters (TRun p2) /\ (pair_rem iters p2 < pair_rem iters p)%nat.
Proof.
  intros (Hinv & Hw1 & Hw2). unfold worker_run.
  assert (Hgen : forall q,
            pair_inv iters q -> worker_pc (other r) q = worker_pc (other r) p ->
            worker_pc r q <> PcWait -> (pair_rem iters q < pair_rem iters p)%nat ->
            task_inv iters (TRun (run_to_block (worker_fuel iters) iters r q))
            /\ (pair_rem iters (run_to_block (worker_fuel iters) iters r q) < pair_rem iters p)%nat).
  { intros q Hq Ho Hnw Hlt. split.
    - split; [by apply run_to_block_inv|].
      pose proof (run_to_block_other iters (worker_fuel iters) r q) as Ho2.
      pose proof (run_to_block_no_wait iters (worker_fuel iters) r q Hnw) as Hn2.
      rewrite Ho in Ho2. destruct r; simpl in *; rewrite ?Ho2; auto.
    - pose proof (run_to_block_rem iters (worker_fuel iters) r q). lia. }
  assert (Hstep : forall q, pair_step iters r p = Some q ->
            task_inv iters (TRun (run_to_block (worker_fuel iters) iters r q))
            /\ (pair_rem iters (run_to_block (worker_fuel iters) iters r q) < pair_rem iters p)%nat).
  { intros q Hq. apply Hgen.
    - by eapply pair_step_inv.
    - by apply pair_step_frame in Hq as (? & _).
    - apply pair_step_arrived in Hq. by destruct (worker_pc r q).
    - by eapply pair_step_rem. }
  destruct (worker_pc r p) eqn:Hpc.
  - intros [= <-]. apply Hgen.
    + apply pair_inv_set_pc; [|done]. by rewrite Hpc, eff_loop_head.
    + apply worker_pc_set_other.
    + rewrite worker_pc_set_same. unfold loop_head. by destruct (_ <? _), r.
    + apply pair_rem_set_pc. rewrite Hpc.
      pose proof (loop_head_rem0 iters r). destruct r; simpl in *; lia.
  - destruct (pair_step iters r p) eqn:E; simpl; [|done]. intros [= <-]. eauto.
  - destruct (pair_step iters r p) eqn:E; simpl; [|done]. intros [= <-]. eauto.
  - destruct (pair_step iters r p) eqn:E; simpl; [|done]. intros [= <-]. eauto.
  - destruct (pair_step iters r p) eqn:E; simpl; [|done]. intros [= <-]. eauto.
Qed.

Lemma aio_inv_init c0 iters n_pairs : inv iters n_pairs (init c0).
Proof. split; simpl; auto. Qed.

Lemma aio_inv_tick iters n_pairs dt s :
  inv iters n_pairs s -> inv iters n_pairs (tick dt s).
Proof.
  intros [H1 H2 H3]. split; simpl; auto.
  - destruct (main s); auto; destruct H2 as (? & a & ? & ?); (split; [done|]);
      exists a; split; auto; lia.
  - destruct (main s); auto. destruct H3 as (? & a & c & ? & ? & ?).
    split; [done|]. exists a, c. repeat split; auto; lia.
Qed.

Lemma forallb_is_fin_lookup ts j t :
  forallb is_fin ts = true -> ts !! j = Some t -> is_fin t = true.
Proof.
  intros Hf Hj. rewrite forallb_forall in Hf. apply Hf.
  apply list_elem_of_In. by eapply list_elem_of_lookup_2.
Qed.

Lemma inv_set_task iters n_pairs s j t t2 :
  inv iters n_pairs s -> tasks s !! j = Some t -> is_fin t = false ->
  task_inv iters t2 ->
  inv iters n_pairs (set_task j t2 s).
Proof.
  intros [H1 H2 H3] Hj Hnf Ht. split; simpl.
  - by apply Forall_insert.
  - destruct (main s); rewrite ?length_insert; auto.
    destruct H2 as [Hnil _]. by rewrite Hnil in Hj.
  - destruct (main s); auto. destruct H3 as [Hf _].
    rewrite (forallb_is_fin_lookup _ _ _ Hf Hj) in Hnf. done.
Qed.

Lemma aio_inv_step iters n_pairs e s s2 :
  inv iters n_pairs s -> step iters n_pairs e s = Some s2 -> inv iters n_pairs s2.
Proof.
  intros Hinv0. pose proof (aio_inv_tick _ _ e.2 _ Hinv0) as Hinv.
  unfold step. destruct e as [[|j|j r] dt]; simpl in *; revert Hinv;
    generalize (tick dt s); clear s Hinv0; intros s Hinv.
  - unfold main_step. pose proof Hinv as [H1 H2 H3].
    destruct (main s) eqn:Em.
    + intros [= <-]. split; simpl.
      * by apply Forall_replicate.
      * split; [apply length_replicate|]. exists (clock s). split; [done|lia].
      * done.
    + destruct (forallb is_fin (tasks s)) eqn:Hf; [|done].
      destruct H2 as (Hlen & a & Ha & Hle). rewrite Ha. simpl. intros [= <-].
      split; simpl; auto.
      * split; [done|]. by exists a.
      * split; [done|]. exists a, (clock s). repeat split; auto; lia.
    + done.
  - unfold pair_task_step. destruct (tasks s !! j) as [t|] eqn:Hj; simpl; [|done].
    pose proof (Forall_lookup_1 _ _ _ _ (inv_tasks _ _ _ Hinv) Hj) as Ht.
    destruct t as [|p|p]; [| |done].
    + intros [= <-]. eapply inv_set_task; eauto. simpl.
      split; [apply pair_inv_init|]. done.
    + destruct (pair_done p) eqn:Hd; [|done]. intros [= <-].
      eapply inv_set_task; eauto. simpl. by destruct Ht.
  - unfold worker_task_step. destruct (tasks s !! j) as [t|] eqn:Hj; simpl; [|done].
    pose proof (Forall_lookup_1 _ _ _ _ (inv_tasks _ _ _ Hinv) Hj) as Ht.
    destruct t as [|p|p]; [done| |done].
    destruct (worker_run iters r p) as [p2|] eqn:Hw; simpl; [|done]. intros [= <-].
    eapply inv_set_task; eauto. by apply (worker_run_spec _ _ _ _ Ht Hw).
Qed.

Lemma aio_inv_run iters n_pairs sched s s2 :
  inv iters n_pairs s -> run iters n_pairs sched s = Some s2 -> inv iters n_pairs s2.
Proof.
  revert s. induction sched as [|e sched IH]; simpl; intros s Hinv.
  - by intros [= <-].
  - destruct (step iters n_pairs e s) as [s1|] eqn:Hs; simpl; [|done].
    apply IH. eapply aio_inv_step; eauto.
Qed.

Lemma aio_inv_reachable c0 iters n_pairs s :
  reachable c0 iters n_pairs s -> inv iters n_pairs s.
Proof. intros [sched Hr]. eapply aio_inv_run; [apply aio_inv_init | apply Hr]. Qed.


Lemma tasks_rem_insert iters ts j t t2 :
  ts !! j = Some t -> (task_rem iters t2 < task_rem iters t)%nat ->
  (tasks_rem iters (<[j := t2]> ts) < tasks_rem iters ts)%nat.
Proof.
  revert j. induction ts as [|q ts IH]; intros [|j] Hj Hlt; simpl in *; try discriminate.
  - injection Hj as ->. lia.
  - specialize (IH j Hj Hlt). lia.
Qed.

Lemma tasks_rem_replicate iters n t :
  tasks_rem iters (replicate n t) = (n * task_rem iters t)%nat.
Proof. induction n as [|n IH]; simpl; [done|]. rewrite IH. lia. Qed.

Lemma worker_run_rem iters r p p2 :
  worker_run iters r p = Some p2 -> (pair_rem iters p2 < pair_rem iters p)%nat.
Proof.
  unfold worker_run.
  assert (Hstep : forall q, pair_step iters r p = Some q ->
    (pair_rem iters (run_to_block (worker_fuel iters) iters r q) < pair_rem iters p)%nat).
  { intros q Hq. apply pair_step_rem in Hq.
    pose proof (run_to_block_rem iters (worker_fuel iters) r q). lia. }
  destruct (worker_pc r p) eqn:Hpc.
  - intros [= <-].
    pose proof (run_to_block_rem iters (worker_fuel iters) r (set_pc r (loop_head iters r 0) p)).
    assert (pair_rem iters (set_pc r (loop_head iters r 0) p) < pair_rem iters p)%nat; [|lia].
    apply pair_rem_set_pc. rewrite Hpc.
    pose proof (loop_head_rem0 iters r). destruct r; simpl in *; lia.
  - destruct (pair_step iters r p) eqn:E; simpl; [|done]. intros [= <-]. eauto.
  - destruct (pair_step iters r p) eqn:E; simpl; [|done]. intros [= <-]. eauto.
  - destruct (pair_step iters r p) eqn:E; simpl; [|done]. intros [= <-]. eauto.
  - destruct (pair_step iters r p) eqn:E; simpl; [|done]. intros [= <-]. eauto.
Qed.

Lemma aio_step_measure iters n_pairs e s s2 :
  step iters n_pairs e s = Some s2 ->
  (measure iters n_pairs s2 < measure iters n_pairs s)%nat.
Proof.
  unfold step. destruct e as [[|j|j r] dt]; simpl.
  - unfold main_step; simpl. destruct (main s) eqn:Em.
    + intros [= <-]. unfold measure. cbn [main tasks].
      rewrite Em, tasks_rem_replicate. lia.
    + destruct (forallb _ _); [|done]. destruct (t0 s); simpl; [|done].
      intros [= <-]. unfold measure. cbn [main tasks]. rewrite Em. lia.
    + done.
  - unfold pair_task_step; simpl. destruct (tasks s !! j) as [t|] eqn:Hj; simpl; [|done].
    destruct t as [|p|p]; [| |done].
    + intros [= <-]. unfold measure. cbn [main tasks set_task tick].
      apply Nat.add_lt_mono_l, (tasks_rem_insert _ _ _ _ _ Hj).
      unfold task_rem, pair_rem; simpl. lia.
    + destruct (pair_done p); [|done]. intros [= <-].
      unfold measure. cbn [main tasks set_task tick].
      apply Nat.add_lt_mono_l, (tasks_rem_insert _ _ _ _ _ Hj).
      unfold task_rem. lia.
  - unfold worker_task_step; simpl. destruct (tasks s !! j) as [t|] eqn:Hj; simpl; [|done].
    destruct t as [|p|p]; [done| |done].
    destruct (worker_run iters r p) as [p2|] eqn:Hw; simpl; [|done]. intros [= <-].
    unfold measure. cbn [main tasks set_task tick].
    apply Nat.add_lt_mono_l, (tasks_rem_insert _ _ _ _ _ Hj).
    apply worker_run_rem in Hw. unfold task_rem. lia.
Qed.

Lemma aio_run_measure iters n_pairs sched s s2 :
  run iters n_pairs sched s = Some s2 ->
  (length sched + measure iters n_pairs s2 <= measure iters n_pairs s)%nat.
Proof.
  revert s. induction sched as [|e sched IH]; simpl; intros s.
  - intros [= <-]. lia.
  - destruct (step iters n_pairs e s) as [s1|] eqn:Hs; simpl; [|done].
    intros Hr. apply IH in Hr. apply aio_step_measure in Hs. lia.
Qed.

Lemma forallb_is_fin_false ts :
  forallb is_fin ts = false -> exists j t, ts !! j = Some t /\ is_fin t = false.
Proof.
  induction ts as [|t ts IH]; simpl; [done|].
  destruct (is_fin t) eqn:Ht; simpl.
  - intros (j & u & Hj & Hu)%IH. by exists (S j), u.
  - intros _. by exists O, t.
Qed.

(** Deadlock freedom: until [pingpong_asyncio] has returned, some task is
    ready to run. *)
Lemma aio_progress iters n_pairs s :
  inv iters n_pairs s -> main s <> MRet ->
  exists a, forall dt, is_Some (step iters n_pairs (a, dt) s).
Proof.
  intros [H1 H2 H3] Hnr. destruct (main s) eqn:Em; [| |done].
  - exists Main. intros dt. unfold step, main_step; simpl. by rewrite Em.
  - destruct (forallb is_fin (tasks s)) eqn:Hf.
    + exists Main. intros dt. unfold step, main_step; simpl. rewrite Em, Hf.
      destruct H2 as (_ & a & -> & _). done.
    + destruct (forallb_is_fin_false _ Hf) as (j & t & Hj & Ht).
      pose proof (Forall_lookup_1 _ _ _ _ H1 Hj) as Hti.
      destruct t as [|p|p]; [| |done].
      * exists (PairTask j). intros dt. unfold step, pair_task_step; simpl. by rewrite Hj.
      * destruct (pair_done p) eqn:Hd.
        { exists (PairTask j). intros dt. unfold step, pair_task_step; simpl.
          rewrite Hj; simpl. by rewrite Hd. }
        destruct Hti as (Hpi & Hw1 & Hw2).
        destruct (pair_progress _ _ Hpi Hd) as (r & Hr).
        exists (WorkerTask j r). intros dt. unfold step, worker_task_step, worker_run; simpl.
        rewrite Hj; simpl.
        destruct Hr as [->|[Hr|[q Hq]]]; [done|by destruct r|].
        rewrite Hq; simpl.
        destruct (pair_step_frame _ _ _ _ Hq) as (_ & ? & _).
        destruct (worker_pc r p); done.
Qed.

Lemma aio_step_actor iters n_pairs a dt s :
  is_Some (step iters n_pairs (a, dt) s) -> a ∈ actors s.
Proof.
  unfold actors. destruct a as [|j|j r]; [intros _; apply list_elem_of_here|..];
    intros [s2 Hs]; apply list_elem_of_further, list_elem_of_bind; exists j;
    unfold step, pair_task_step, worker_task_step in Hs; simpl in Hs;
    (destruct (tasks s !! j) as [t|] eqn:Hj; [|done]);
    apply lookup_lt_Some in Hj.
  - split; [apply list_elem_of_here|]. apply elem_of_seq. lia.
  - split; [|apply elem_of_seq; lia].
    destruct r; [apply list_elem_of_further, list_elem_of_here|].
    apply list_elem_of_further, list_elem_of_further, list_elem_of_here.
Qed.

Lemma first_ready_step iters n_pairs dt s s2 :
  first_ready iters n_pairs dt s = Some s2 ->
  exists a, step iters n_pairs (a, dt) s = Some s2.
Proof.
  unfold first_ready.
  destruct (list_find _ _) as [[k a]|]; simpl; [|done]. eauto.
Qed.

Lemma first_ready_progress iters n_pairs dt s :
  inv iters n_pairs s -> main s <> MRet ->
  is_Some (first_ready iters n_pairs dt s).
Proof.
  intros Hinv Hnr. destruct (aio_progress _ _ _ Hinv Hnr) as [a Ha].
  specialize (Ha dt). unfold first_ready.
  destruct (list_find_elem_of (fun a => is_Some (step iters n_pairs (a, dt) s)) (actors s) a)
    as [[k b] Hf]; [by eapply aio_step_actor|done|].
  rewrite Hf; simpl. by apply list_find_Some in Hf as (_ & Hb & _).
Qed.

Lemma run_loop_reach iters n_pairs fuel dt s :
  exists sched, run iters n_pairs sched s = Some (run_loop iters n_pairs fuel dt s).
Proof.
  revert s. induction fuel as [|f IH]; intros s; simpl.
  - by exists [].
  - destruct (first_ready iters n_pairs dt s) as [s1|] eqn:Hf; [|by exists []].
    destruct (first_ready_step _ _ _ _ _ Hf) as [a Ha].
    destruct (IH s1) as [sched Hs]. exists ((a, dt) :: sched). simpl.
    by rewrite Ha.
Qed.

(** With fuel for [measure] turns the first-ready event loop runs
    [pingpong_asyncio] to its [return]. *)
Lemma run_loop_completes iters n_pairs fuel dt s :
  inv iters n_pairs s -> (measure iters n_pairs s <= fuel)%nat ->
  completed (run_loop iters n_pairs fuel dt s).
Proof.
  revert s. induction fuel as [|f IH]; intros s Hinv Hm; simpl.
  - unfold measure in Hm. unfold completed. destruct (main s); simpl in Hm; try lia. done.
  - destruct (first_ready iters n_pairs dt s) as [s1|] eqn:Hf.
    + destruct (first_ready_step _ _ _ _ _ Hf) as [a Ha].
      apply IH; [by eapply aio_inv_step|]. apply aio_step_measure in Ha. lia.
    + unfold completed.
      assert (Hd : main s = MRet \/ main s <> MRet)
        by (destruct (main s); auto; right; discriminate).
      destruct Hd as [|Hn]; [done|].
      destruct (first_ready_progress iters n_pairs dt s Hinv Hn) as [? ?]. congruence.
Qed.

Lemma fin_tasks_settled iters ts :
  Forall (task_inv iters) ts -> forallb is_fin ts = true ->
  length (omap task_pair ts) = length ts /\ Forall (settled iters) (omap task_pair ts).
Proof.
  induction 1 as [|t ts Ht _ IH]; simpl; [done|].
  destruct t as [|p|p]; simpl; try done. intros Hf.
  destruct (IH Hf) as [Hl Hs]. destruct Ht as [Hpi Hd].
  split; [f_equal; exact Hl|]. constructor; [|exact Hs]. by apply pair_done_settled.
Qed.

Lemma aio_completed_settled iters n_pairs s :
  inv iters n_pairs s -> completed s ->
  length (pairs s) = Z.to_nat n_pairs /\ Forall (settled iters) (pairs s).
Proof.
  intros [H1 H2 H3] Hc. unfold completed in Hc. rewrite Hc in *.
  destruct H3 as [Hf _]. destruct H2 as [Hlen _].
  destruct (fin_tasks_settled _ _ H1 Hf) as [Hl Hs].
  unfold pairs. split; [congruence|done].
Qed.

Lemma aio_completed_ret iters n_pairs s :
  inv iters n_pairs s -> completed s -> exists e, ret s = Some e /\ 0 <= e.
Proof.
  intros [H1 H2 H3] Hc. unfold completed in Hc. rewrite Hc in *.
  destruct H3 as (_ & a & c & _ & Hac & ->). exists (c - a). split; [done|lia].
Qed.


Lemma aio_measure_init c0 iters n_pairs :
  measure iters n_pairs (init c0) = bound iters n_pairs.
Proof. reflexivity. Qed.

Lemma pingpong_asyncio_returns c0 dt iters n_pairs :
  exists e, pingpong_asyncio c0 dt (bound iters n_pairs) iters n_pairs = Some e /\ 0 <= e.
Proof.
  unfold pingpong_asyncio.
  set (s := run_loop _ _ _ _ _).
  assert (Hinv : inv iters n_pairs s).
  { destruct (run_loop_reach iters n_pairs (bound iters n_pairs) dt (init c0)) as [sched Hr].
    eapply aio_inv_run; [apply aio_inv_init|exact Hr]. }
  apply (aio_completed_ret _ _ _ Hinv).
  apply (run_loop_completes iters n_pairs); [apply aio_inv_init|].
  by rewrite aio_measure_init.
Qed.

Lemma aio_run_bounded c0 iters n_pairs sched s :
  run iters n_pairs sched (init c0) = Some s ->
  (length sched <= bound iters n_pairs)%nat.
Proof. intros Hr. apply aio_run_measure in Hr. rewrite aio_measure_init in Hr. lia. Qed.

Lemma pairs_inv iters n_pairs s :
  inv iters n_pairs s -> Forall (pair_inv iters) (pairs s).
Proof.
  intros [H1 _ _]. unfold pairs. induction H1 as [|t ts Ht _ IH]; [constructor|].
  destruct t as [|p|p]; simpl in *; auto; constructor; auto; by destruct Ht.
Qed.


Lemma fin_tasks_done iters ts :
  Forall (task_inv iters) ts -> forallb is_fin ts = true ->
  Forall (fun p => pair_done p = true) (omap task_pair ts).
Proof.
  induction 1 as [|t ts Ht _ IH]; simpl; [constructor|].
  destruct t as [|p|p]; simpl; try done. intros Hf.
  destruct Ht as [_ Hd]. constructor; [done|]. exact (IH Hf).
Qed.

Lemma asyncio_terminates c0 iters n_pairs : terminates c0 iters n_pairs.
Proof.
  split; [|split].
  - intros sched s Hr. split; [by eapply aio_run_bounded|].
    assert (Hinv : inv iters n_pairs s) by (eapply aio_inv_run; [apply aio_inv_init|exact Hr]).
    assert (Hd : main s = MRet \/ main s <> MRet)
      by (destruct (main s); auto; right; discriminate).
    destruct Hd as [Hd|Hd]; [by left|right]. by eapply aio_progress.
  - intros s Hr Hc. apply aio_inv_reachable in Hr.
    destruct (aio_completed_settled _ _ _ Hr Hc) as [Hl _].
    pose proof (aio_completed_ret _ _ _ Hr Hc) as He.
    destruct Hr as [H1 H2 H3]. unfold completed in Hc. rewrite Hc in H3.
    destruct H3 as [Hf _]. repeat split; auto.
    by eapply fin_tasks_done.
  - intros dt. apply pingpong_asyncio_returns.
Qed.

Lemma no_iters_no_ops iters n_pairs s :
  iters <= 0 -> inv iters n_pairs s -> total pair_ops (pairs s) = 0.
Proof.
  intros Hi Hinv. apply total_zero.
  eapply Forall_impl; [by eapply pairs_inv|]. intros p. by apply pair_inv_no_iters.
Qed.


(** The cooperative hand-over for one pair and two iterations: the pinger
    puts 0 and blocks on its get; the ponger gets 0, puts it back and
    blocks on its next get. *)
Example cooperative_turns :
  run 2 1 [(Main, 0%nat); (PairTask 0, 0%nat); (WorkerTask 0 Pinger, 0%nat);
           (WorkerTask 0 Ponger, 0%nat)] (init 0)
  = Some (State 0 MWait (Some 0) None
            [TRun (Pair (Queue [] 1 [0] [0]) (Queue [0] 1 [0] []) (PcGet 0) (PcGet 1))]).
Proof. reflexivity. Qed.

(** A task blocked on its channel is not ready. *)
Example blocked_task_not_ready :
  run 2 1 [(Main, 0%nat); (PairTask 0, 0%nat); (WorkerTask 0 Ponger, 0%nat);
           (WorkerTask 0 Ponger, 0%nat)] (init 0) = None.
Proof. reflexivity. Qed.


Lemma run_to_block_stuck iters fuel r p :
  pair_step iters r p = None -> run_to_block fuel iters r p = p.
Proof. intros H. destruct fuel; simpl; [done|]. by rewrite H. Qed.

Lemma run_to_block_two iters fuel r p :
  pair_inv iters p -> (2 <= fuel)%nat ->
  pair_ops p <= pair_ops (run_to_block fuel iters r p) <= pair_ops p + 2.
Proof.
  intros Hinv Hf. destruct fuel as [|[|f]]; try lia. simpl.
  destruct (pair_step iters r p) as [p1|] eqn:E1; [|lia].
  pose proof (pair_step_pair_ops _ _ _ _ E1).
  destruct (pair_step iters r p1) as [p2|] eqn:E2; [|lia].
  pose proof (pair_step_pair_ops _ _ _ _ E2).
  rewrite run_to_block_stuck by eauto using two_steps_then_blocked. lia.
Qed.

Lemma run_to_block_one iters fuel r p p1 :
  pair_inv iters p -> pair_step iters r p = Some p1 -> (1 <= fuel)%nat ->
  pair_ops p + 1 <= pair_ops (run_to_block fuel iters r p1) <= pair_ops p + 2.
Proof.
  intros Hinv E1 Hf. pose proof (pair_step_pair_ops _ _ _ _ E1).
  destruct fuel as [|f]; try lia. simpl.
  destruct (pair_step iters r p1) as [p2|] eqn:E2; [|lia].
  pose proof (pair_step_pair_ops _ _ _ _ E2).
  rewrite run_to_block_stuck by eauto using two_steps_then_blocked. lia.
Qed.

Lemma pair_ops_set_pc r c p : pair_ops (set_pc r c p) = pair_ops p.
Proof. by destruct r. Qed.

(** One turn of a worker task: one or two channel operations (none or up
    to two on its first turn), after which it is blocked or done. *)
Lemma worker_run_turn iters r p p2 :
  pair_inv iters p -> worker_run iters r p = Some p2 ->
  pair_ops p <= pair_ops p2 <= pair_ops p + 2 /\
  (worker_pc r p <> PcStart -> pair_ops p + 1 <= pair_ops p2) /\
  pair_step iters r p2 = None.
Proof.
  intros Hinv Hrun. split; [|split]; [| |by eapply worker_run_blocked].
  - unfold worker_run, worker_fuel in Hrun.
    destruct (worker_pc r p) eqn:Hpc.
    1: { injection Hrun as <-.
         pose proof (run_to_block_two iters (Z.to_nat (2 * iters) + 2) r
                       (set_pc r (loop_head iters r 0) p)) as Hb.
         rewrite pair_ops_set_pc in Hb. apply Hb; [|lia].
         apply pair_inv_set_pc; [|done]. by rewrite Hpc, eff_loop_head. }
    all: destruct (pair_step iters r p) as [p1|] eqn:E1; simpl in Hrun; [|done];
         injection Hrun as <-;
         pose proof (run_to_block_one iters (Z.to_nat (2 * iters) + 2) r p p1 Hinv E1);
         lia.
  - intros Hns. unfold worker_run, worker_fuel in Hrun.
    destruct (worker_pc r p) eqn:Hpc; [done|..].
    all: destruct (pair_step iters r p) as [p1|] eqn:E1; simpl in Hrun; [|done];
         injection Hrun as <-;
         pose proof (run_to_block_one iters (Z.to_nat (2 * iters) + 2) r p p1 Hinv E1);
         lia.
Qed.

End AioFacts.

Module RunnerFacts.
Import Runner.

Lemma listed_parts_cons part parts :
  listed_parts (part :: parts) =
  if is_empty (strip part) then listed_parts parts else strip part :: listed_parts parts.
Proof. unfold listed_parts; simpl. by destruct (is_empty (strip part)). Qed.

Lemma parse_parts_bad parts vals part v :
  In part (listed_parts parts) -> int_of_string part = Some v -> v <= 0 ->
  is_value_error (parse_parts parts vals).
Proof.
  intros Hin Hv Hle. revert vals Hin.
  induction parts as [|q parts IH]; intros vals Hin; [done|].
  rewrite listed_parts_cons in Hin. simpl.
  destruct (is_empty (strip q)) eqn:Eq; [by apply IH|].
  destruct (int_of_string (strip q)) as [w|] eqn:Ew; [|by eexists].
  destruct (Z.leb_spec w 0); [by eexists|].
  destruct Hin as [<-|Hin]; [|by apply IH].
  rewrite Ew in Hv. injection Hv as ->. lia.
Qed.

Lemma parse_parts_good parts vals :
  Forall (fun part => exists v, positive_literal part v) (listed_parts parts) ->
  exists vs, parse_parts parts vals = inr (vals ++ vs) /\
             Forall2 positive_literal (listed_parts parts) vs.
Proof.
  revert vals. induction parts as [|q parts IH]; intros vals Hall.
  - exists []. simpl. rewrite app_nil_r. split; [done|constructor].
  - rewrite listed_parts_cons in *. simpl.
    destruct (is_empty (strip q)) eqn:Eq; [by apply IH|].
    apply Forall_cons in Hall as [(v & Hv & Hpos) Hall].
    rewrite Hv. destruct (Z.leb_spec v 0); [lia|].
    destruct (IH (vals ++ [v]) Hall) as (vs & Hp & Hf).
    exists (v :: vs). rewrite Hp, <- app_assoc. split; [done|].
    constructor; [by split|done].
Qed.

Lemma parse_parts_inr parts vals res :
  parse_parts parts vals = inr res ->
  exists vs, res = vals ++ vs /\ Forall2 positive_literal (listed_parts parts) vs.
Proof.
  revert vals. induction parts as [|q parts IH]; intros vals; simpl.
  - intros [= <-]. exists []. rewrite app_nil_r. split; [done|constructor].
  - rewrite listed_parts_cons.
    destruct (is_empty (strip q)) eqn:Eq; [by apply IH|].
    destruct (int_of_string (strip q)) as [v|] eqn:Ev; [|done].
    destruct (Z.leb_spec v 0); [done|].
    intros (vs & -> & Hf)%IH. exists (v :: vs). rewrite <- app_assoc.
    split; [done|]. constructor; [by split|done].
Qed.

Lemma parse_parts_error parts vals e :
  parse_parts parts vals = inl e -> exists msg, e = ValueError msg.
Proof.
  revert vals. induction parts as [|q parts IH]; intros vals; simpl; [done|].
  destruct (is_empty (strip q)); [by apply IH|].
  destruct (int_of_string (strip q)) as [v|]; [|intros [= <-]; by eexists].
  destruct (v <=? 0); [intros [= <-]; by eexists|by apply IH].
Qed.

Lemma parse_pairs_bad s part v :
  In part (listed s) -> int_of_string part = Some v -> v <= 0 ->
  is_value_error (parse_pairs s).
Proof.
  intros Hin Hv Hle. unfold parse_pairs.
  destruct (parse_parts_bad _ [] _ _ Hin Hv Hle) as [msg ->]. by eexists.
Qed.

Lemma parse_pairs_empty s :
  listed s = [] -> parse_pairs s = inl (ValueError "empty pairs list").
Proof.
  intros He. unfold parse_pairs.
  destruct (parse_parts_good (split ","%char s) []) as (vs & -> & Hf).
  { unfold listed in He. rewrite He. constructor. }
  unfold listed in He. rewrite He in Hf. by inversion Hf.
Qed.

Lemma parse_pairs_good s :
  listed s <> [] ->
  Forall (fun part => exists v, positive_literal part v) (listed s) ->
  exists vals, parse_pairs s = inr vals /\ Forall2 positive_literal (listed s) vals.
Proof.
  intros Hne Hall. unfold parse_pairs.
  destruct (parse_parts_good (split ","%char s) [] Hall) as (vs & -> & Hf).
  exists vs. split; [|done]. simpl.
  destruct vs; [|done]. inversion Hf as [E|]. unfold listed in Hne. congruence.
Qed.

Lemma parse_pairs_inr s vals :
  parse_pairs s = inr vals ->
  Forall2 positive_literal (listed s) vals /\ vals <> [].
Proof.
  unfold parse_pairs.
  destruct (parse_parts _ _) as [e|res] eqn:E; [done|].
  apply parse_parts_inr in E as (vs & -> & Hf). simpl.
  destruct vs; [done|]. intros [= <-]. by split.
Qed.

Lemma parse_pairs_error s e :
  parse_pairs s = inl e -> exists msg, e = ValueError msg.
Proof.
  unfold parse_pairs.
  destruct (parse_parts _ _) as [e2|res] eqn:E.
  - intros [= <-]. by eapply parse_parts_error.
  - destruct res; [|done]. intros [= <-]. by eexists.
Qed.








Lemma measured_app l1 l2 : measured (l1 ++ l2) = measured l1 ++ measured l2.
Proof. unfold measured. apply omap_app. Qed.





Lemma sorted_nodup_strict (l : list Z) :
  StronglySorted Z.le l -> NoDup l -> StronglySorted Z.lt l.
Proof.
  induction 1 as [|x l Hs IH Hx]; intros Hnd; [constructor|].
  apply NoDup_cons in Hnd as [Hnx Hnd]. constructor; [by apply IH|].
  rewrite Forall_forall in Hx |- *. intros y Hy.
  specialize (Hx y Hy). assert (x <> y) by (intros ->; by apply Hnx, list_elem_of_In). lia.
Qed.

Lemma sorted_keys_spec (d : gset Z) :
  StronglySorted Z.lt (merge_sort Z.le (elements d)) /\
  forall x, x ∈ merge_sort Z.le (elements d) <-> x ∈ d.
Proof.
  split.
  - apply sorted_nodup_strict; [apply StronglySorted_merge_sort; apply _|].
    rewrite merge_sort_Permutation. apply NoDup_elements.
  - intros x. rewrite merge_sort_Permutation. apply elem_of_elements.
Qed.










Lemma positive_literals_ge1 parts vals :
  Forall2 positive_literal parts vals -> Forall (fun p => 1 <= p) vals.
Proof.
  induction 1 as [|part v parts vals [_ Hv] _ IH]; constructor; [lia|done].
Qed.



(** Concrete readings, as the interpreter gives them. *)
Example split_keeps_empty_parts : split ","%char "a,,b," = ["a"; ""; "b"; ""]%string.
Proof. reflexivity. Qed.

Example parse_pairs_default : parse_pairs "1,2,4,8" = inr [1; 2; 4; 8].
Proof. reflexivity. Qed.

Example parse_pairs_blanks_skipped : parse_pairs " 1 ,, 2," = inr [1; 2].
Proof. reflexivity. Qed.

Example parse_pairs_sign_and_underscore : parse_pairs "+1_0,007" = inr [10; 7].
Proof. reflexivity. Qed.

Example parse_pairs_not_a_number :
  parse_pairs "1,x" = inl (ValueError "invalid literal for int() with base 10").
Proof. reflexivity. Qed.

Example parse_pairs_negative : parse_pairs "2,-3" = inl (ValueError "pairs must be > 0").
Proof. reflexivity. Qed.

Example parse_pairs_only_blanks : parse_pairs " , " = inl (ValueError "empty pairs list").
Proof. reflexivity. Qed.








Lemma split_nonempty sep s : split sep s <> [].
Proof.
  destruct s as [|c s]; simpl; [done|].
  destruct (Ascii.eqb c sep); [done|]. by destruct (split sep s).
Qed.

(** Splitting at a separator distributes over joining with it. *)
Lemma split_join sep a b :
  split sep (String.append a (String sep b)) = split sep a ++ split sep b.
Proof.
  induction a as [|c a IH]; simpl.
  - by rewrite Ascii.eqb_refl.
  - destruct (Ascii.eqb c sep); [by rewrite IH|].
    rewrite IH. pose proof (split_nonempty sep a).
    by destruct (split sep a).
Qed.

Lemma listed_parts_app l1 l2 :
  listed_parts (l1 ++ l2) = listed_parts l1 ++ listed_parts l2.
Proof. unfold listed_parts. by rewrite List.map_app, List.filter_app. Qed.

Lemma listed_join a b :
  listed (String.append a (String ","%char b)) = listed a ++ listed b.
Proof. unfold listed. by rewrite split_join, listed_parts_app. Qed.

Lemma parse_parts_app l1 l2 vals :
  parse_parts (l1 ++ l2) vals =
  match parse_parts l1 vals with
  | inl e => inl e
  | inr vs => parse_parts l2 vs
  end.
Proof.
  revert vals. induction l1 as [|q l1 IH]; intros vals; simpl; [done|].
  destruct (is_empty (strip q)); [by apply IH|].
  destruct (int_of_string (strip q)) as [v|]; [|done].
  destruct (v <=? 0); [done|by apply IH].
Qed.

Lemma parse_parts_acc l vals :
  parse_parts l vals =
  match parse_parts l [] with
  | inl e => inl e
  | inr vs => inr (vals ++ vs)
  end.
Proof.
  revert vals. induction l as [|q l IH]; intros vals; simpl.
  - by rewrite app_nil_r.
  - destruct (is_empty (strip q)); [by apply IH|].
    destruct (int_of_string (strip q)) as [v|]; [|done].
    destruct (v <=? 0); [done|].
    rewrite (IH (vals ++ [v])), (IH [v]).
    destruct (parse_parts l []); [done|]. by rewrite <- app_assoc.
Qed.

Lemma parse_parts_blank l vals :
  listed_parts l = [] -> parse_parts l vals = inr vals.
Proof.
  intros Hl. destruct (parse_parts_good l vals) as (vs & -> & Hf).
  { rewrite Hl. constructor. }
  rewrite Hl in Hf. inversion Hf. by rewrite app_nil_r.
Qed.

Lemma parse_pairs_parts s vals :
  parse_pairs s = inr vals -> parse_parts (split ","%char s) [] = inr vals.
Proof.
  unfold parse_pairs. destruct (parse_parts _ _) as [e|[|v vs]]; try done.
Qed.

Lemma parse_pairs_join a b va vb :
  parse_pairs a = inr va -> parse_pairs b = inr vb ->
  parse_pairs (String.append a (String ","%char b)) = inr (va ++ vb).
Proof.
  intros Ha Hb. pose proof (parse_pairs_inr _ _ Ha) as [_ Hne].
  apply parse_pairs_parts in Ha, Hb.
  unfold parse_pairs. rewrite split_join, parse_parts_app, Ha, parse_parts_acc, Hb.
  destruct va; [done|]. done.
Qed.

Lemma parse_pairs_blank_l a b :
  listed a = [] ->
  parse_pairs (String.append a (String ","%char b)) = parse_pairs b.
Proof.
  intros Ha. unfold parse_pairs.
  by rewrite split_join, parse_parts_app, (parse_parts_blank _ _ Ha).
Qed.

Lemma parse_pairs_blank_r a b :
  listed b = [] ->
  parse_pairs (String.append a (String ","%char b)) = parse_pairs a.
Proof.
  intros Hb. unfold parse_pairs. rewrite split_join, parse_parts_app.
  destruct (parse_parts (split ","%char a) []) as [e|vs]; [done|].
  by rewrite (parse_parts_blank _ _ Hb).
Qed.

(** The first entry that is not accepted decides the error: an error in
    the left part of a list is the error of the whole list. *)
Lemma parse_pairs_error_l a b e :
  parse_pairs a = inl e -> listed a <> [] ->
  parse_pairs (String.append a (String ","%char b)) = inl e.
Proof.
  intros Ha Hne. unfold parse_pairs in *. rewrite split_join, parse_parts_app.
  destruct (parse_parts (split ","%char a) []) as [e1|vs] eqn:E.
  - by injection Ha as <-.
  - apply parse_parts_inr in E as (ws & -> & Hf). simpl in *.
    destruct ws; [|done]. inversion Hf as [E2|]. by destruct Hne.
Qed.







(** *** Floats *)

Lemma float_gt0_cases x :
  float_gt0 x = true ->
  (exists m e, x = S754_finite false m e) \/ x = S754_infinity false.
Proof.
  unfold float_gt0, SFltb, fzero. destruct x as [s|[]| |[] m e]; simpl; try done.
  - intros _. by right.
  - intros _. left. by eexists _, _.
Qed.

Lemma float_div_gt0 a b :
  float_gt0 b = true -> float_div a b = inr (SFdiv prec emax a b).
Proof.
  intros [(m & e & ->)| ->]%float_gt0_cases; reflexivity.
Qed.

Lemma int_of_float_inr x n : int_of_float x = inr n -> is_finite x = true.
Proof. destruct x as [s|s| |s m e]; simpl; try done. Qed.

Lemma iter_pos_shr_nonneg p mrs :
  0 <= shr_m mrs -> 0 <= shr_m (SpecFloat.iter_pos shr_1 p mrs).
Proof.
  assert (H1 : forall mrs, 0 <= shr_m mrs -> 0 <= shr_m (shr_1 mrs)).
  { intros [m r s] Hm. simpl in *. destruct m as [|[q|q|]|q]; simpl; lia. }
  revert mrs. induction p as [p IH|p IH|]; intros mrs Hm; simpl; auto.
Qed.

Lemma shr_fexp_nonneg m e l :
  0 <= m -> 0 <= shr_m (fst (shr_fexp prec emax m e l)).
Proof.
  intros Hm. unfold shr_fexp, shr.
  assert (H0 : 0 <= shr_m (shr_record_of_loc m l))
    by (destruct l as [|[]]; simpl; lia).
  destruct (_ - e); simpl; auto. by apply iter_pos_shr_nonneg.
Qed.

Lemma binary_round_aux_sign sx mx ex lx :
  0 <= mx -> has_sign sx (binary_round_aux prec emax sx mx ex lx).
Proof.
  intros Hm. unfold binary_round_aux.
  pose proof (shr_fexp_nonneg mx ex lx Hm) as H1.
  destruct (shr_fexp prec emax mx ex lx) as [mrs' e'] eqn:E1. simpl in H1.
  assert (H2 : 0 <= round_nearest_even (shr_m mrs') (loc_of_shr_record mrs')).
  { unfold round_nearest_even. destruct (loc_of_shr_record mrs') as [|[]]; try lia.
    destruct (Z.even _); lia. }
  pose proof (shr_fexp_nonneg _ e' loc_Exact H2) as H3.
  destruct (shr_fexp prec emax _ e' loc_Exact) as [mrs'' e''] eqn:E2. simpl in H3.
  destruct (shr_m mrs'') as [|m|m]; simpl; [done| |lia].
  by destruct (_ <=? _).
Qed.

Lemma float_of_int_sign n x :
  float_of_int n = inr x -> is_finite x = true /\ has_sign (n <? 0) x.
Proof.
  unfold float_of_int, binary_normalize.
  destruct n as [|m|m].
  - intros [= <-]. done.
  - unfold binary_round. destruct (shl_align _ _ _) as [mz ez].
    pose proof (binary_round_aux_sign false (Z.pos mz) ez loc_Exact ltac:(lia)) as H.
    destruct (binary_round_aux _ _ _ _ _ _); try done; by intros [= <-].
  - unfold binary_round. destruct (shl_align _ _ _) as [mz ez].
    pose proof (binary_round_aux_sign true (Z.pos mz) ez loc_Exact ltac:(lia)) as H.
    destruct (binary_round_aux _ _ _ _ _ _); try done; by intros [= <-].
Qed.

Lemma SFdiv_sign sa a b :
  is_finite a = true -> has_sign sa a -> float_gt0 b = true ->
  has_sign sa (SFdiv prec emax a b).
Proof.
  intros Hf Ha [(m & e & ->)| ->]%float_gt0_cases.
  - destruct a as [s|s| |s ma ea]; simpl in *; try done.
    + by rewrite xorb_false_r.
    + unfold SFdiv_core_binary.
      set (m' := match _ - _ - _ with Z0 => _ | Z.pos _ => _ | Z.neg _ => _ end).
      assert (Hm' : 0 <= m').
      { subst m'. destruct (_ - _ - _); try lia. by apply Z.shiftl_nonneg. }
      pose proof (Z.div_pos m' (Z.pos m) Hm' ltac:(lia)) as Hq.
      unfold Z.div in Hq. destruct (Z.div_eucl m' (Z.pos m)) as [q r]. simpl in Hq.
      rewrite xorb_false_r in *. subst s. by apply binary_round_aux_sign.
  - destruct a as [s|s| |s ma ea]; simpl in *; try done; by rewrite xorb_false_r.
Qed.

Lemma throughput_inr iters p dt rps :
  throughput iters p dt = inr rps ->
  (float_gt0 dt = true ->
   exists n, float_of_int (iters * p) = inr n /\ rps = SFdiv prec emax n dt) /\
  (float_gt0 dt = false -> rps = fzero) /\
  has_sign (if float_gt0 dt then iters * p <? 0 else false) rps.
Proof.
  unfold throughput. destruct (float_gt0 dt) eqn:Hdt.
  - destruct (float_of_int (iters * p)) as [e|n] eqn:Hn; [done|].
    rewrite (float_div_gt0 _ _ Hdt). intros [= <-].
    split; [intros _; by exists n|]. split; [done|].
    apply float_of_int_sign in Hn as [Hf Hs]. by apply SFdiv_sign.
  - intros [= <-]. split; [done|]. split; done.
Qed.

Lemma int_of_float_nonneg x n :
  has_sign false x -> int_of_float x = inr n -> 0 <= n.
Proof.
  destruct x as [s|s| |s m e]; simpl; try done.
  - by intros _ [= <-].
  - intros ->. destruct e as [|k|k]; intros [= <-]; unfold cond_Zopp.
    + apply Z.shiftl_nonneg. lia.
    + apply Z.shiftl_nonneg. lia.
    + apply Z.shiftr_nonneg. lia.
Qed.


Lemma main_parse_error bench plt iters plot s e :
  parse_pairs s = inl e ->
  run_main bench plt (Args iters s plot) = (inl e, []).
Proof.
  intros He. unfold run_main, main; simpl.
  unfold mbind, M_bind, m_bind, lift. by rewrite He.
Qed.

Ltac munfold :=
  repeat (progress
    (unfold mbind, M_bind, m_bind, mret, M_ret, m_ret, measure, print_row,
       plot_speedup, speedup, dict_get, emit, lift in *;
     cbv beta iota zeta in *)).

Lemma outcome_inr bench v k iters p dt rps shown :
  outcome bench v k iters p = inr (dt, rps, shown) <->
  bench v k iters p = inr dt /\ throughput iters p dt = inr rps /\
  int_of_float rps = inr shown.
Proof.
  unfold outcome. split.
  - destruct (bench v k iters p) as [e|dt']; [done|].
    destruct (throughput iters p dt') as [e|rps'] eqn:Et; [done|].
    destruct (int_of_float rps') as [e|n] eqn:Ei; [done|].
    intros [= <- <- <-]. done.
  - intros (-> & -> & ->). done.
Qed.

(** How a measurement can end [main]: the benchmark call raises, the
    conversion of [iters * p] for the division overflows, or the
    throughput is not a number [int] can convert. *)
Lemma outcome_inl bench v k iters p e :
  outcome bench v k iters p = inl e <->
  bench v k iters p = inl e \/
  (exists dt, bench v k iters p = inr dt /\ throughput iters p dt = inl e) \/
  (exists dt rps, bench v k iters p = inr dt /\ throughput iters p dt = inr rps /\
                  int_of_float rps = inl e).
Proof.
  unfold outcome. split.
  - destruct (bench v k iters p) as [e'|dt]; [intros [= <-]; by left|].
    destruct (throughput iters p dt) as [e'|rps] eqn:Et.
    { intros [= <-]. right. left. by exists dt. }
    destruct (int_of_float rps) as [e'|n] eqn:Ei; [|done].
    intros [= <-]. right. right. by exists dt, rps.
  - intros [->|[(dt & -> & ->)|(dt & rps & -> & -> & ->)]]; done.
Qed.

Lemma is_ok_outcome bench v k iters p :
  is_ok (outcome bench v k iters p) ->
  exists dt rps shown, outcome bench v k iters p = inr (dt, rps, shown).
Proof. intros [[[dt rps] shown] H]. by exists dt, rps, shown. Qed.

Lemma loop_step bench iters k p rest a t l :
  is_ok (outcome bench Asyncio k iters p) ->
  is_ok (outcome bench OsThreads k iters p) ->
  loop bench iters k (p :: rest) a t l =
  loop bench iters (S k) rest
    (<[p := rps_of (outcome bench Asyncio k iters p)]> a)
    (<[p := rps_of (outcome bench OsThreads k iters p)]> t)
    (l ++ pair_events bench iters k p).
Proof.
  intros (da & ra & na & Ha)%is_ok_outcome (dt & rt & nt & Ht)%is_ok_outcome.
  unfold pair_events. rewrite Ha, Ht. cbn [dt_of rps_of shown_of].
  apply outcome_inr in Ha as (Ha1 & Ha2 & Ha3).
  apply outcome_inr in Ht as (Ht1 & Ht2 & Ht3).
  cbn [loop]. munfold.
  rewrite Ha1; cbv beta iota zeta. rewrite Ha2; cbv beta iota zeta.
  rewrite Ha3; cbv beta iota zeta. rewrite Ht1; cbv beta iota zeta.
  rewrite Ht2; cbv beta iota zeta. rewrite Ht3; cbv beta iota zeta.
  by rewrite <- !app_assoc.
Qed.

Lemma loop_step_fail bench iters k p rest a t l v e :
  (v = OsThreads -> is_ok (outcome bench Asyncio k iters p)) ->
  outcome bench v k iters p = inl e ->
  loop bench iters k (p :: rest) a t l =
  (inl e, l ++ failed_events bench iters k p v).
Proof.
  intros Hv He. cbn [loop]. munfold. destruct v.
  - unfold outcome in He.
    destruct (bench Asyncio k iters p) as [e'|dt]; [by injection He as ->|].
    destruct (throughput iters p dt) as [e'|rps]; [by injection He as ->|].
    destruct (int_of_float rps) as [e'|n]; [by injection He as ->|done].
  - destruct (is_ok_outcome _ _ _ _ _ (Hv eq_refl)) as (da & ra & na & Ha).
    unfold failed_events. rewrite Ha. cbn [dt_of shown_of].
    apply outcome_inr in Ha as (Ha1 & Ha2 & Ha3).
    rewrite Ha1; cbv beta iota zeta. rewrite Ha2; cbv beta iota zeta.
    rewrite Ha3; cbv beta iota zeta.
    unfold outcome in He.
    destruct (bench OsThreads k iters p) as [e'|dt];
      [injection He as ->; by rewrite <- !app_assoc|].
    destruct (throughput iters p dt) as [e'|rps];
      [injection He as ->; by rewrite <- !app_assoc|].
    destruct (int_of_float rps) as [e'|n]; [|done].
    injection He as ->. by rewrite <- !app_assoc.
Qed.

Lemma loop_ok bench iters k ps a t l :
  all_ok bench iters k ps ->
  loop bench iters k ps a t l =
  (inr (record_all bench iters k ps a t), l ++ loop_events bench iters k ps).
Proof.
  revert k a t l. induction ps as [|p ps IH]; intros k a t l.
  - intros _. simpl. munfold. by rewrite app_nil_r.
  - intros (Ha & Ht & Hok). rewrite (loop_step _ _ _ _ _ _ _ _ Ha Ht).
    rewrite (IH _ _ _ _ Hok). cbn [record_all loop_events].
    by rewrite <- !app_assoc.
Qed.

Lemma loop_fail bench iters k pre p rest v e a t l :
  all_ok bench iters k pre ->
  (v = OsThreads -> is_ok (outcome bench Asyncio (k + length pre)%nat iters p)) ->
  outcome bench v (k + length pre)%nat iters p = inl e ->
  loop bench iters k (pre ++ p :: rest) a t l =
  (inl e, l ++ loop_events bench iters k pre
            ++ failed_events bench iters (k + length pre)%nat p v).
Proof.
  revert k a t l. induction pre as [|q pre IH]; intros k a t l.
  - intros _ Hv He. simpl in *. rewrite Nat.add_0_r in *.
    by apply loop_step_fail.
  - intros (Ha & Ht & Hok) Hv He. cbn [app]. rewrite (loop_step _ _ _ _ _ _ _ _ Ha Ht).
    cbn [length] in *.
    replace (k + S (length pre))%nat with (S k + length pre)%nat in * by lia.
    rewrite (IH _ _ _ _ Hok Hv He). cbn [loop_events]. by rewrite <- !app_assoc.
Qed.

Lemma loop_cases bench iters k p :
  (is_ok (outcome bench Asyncio k iters p) /\
   is_ok (outcome bench OsThreads k iters p)) \/
  (exists v e,
     (v = OsThreads -> is_ok (outcome bench Asyncio k iters p)) /\
     outcome bench v k iters p = inl e).
Proof.
  destruct (outcome bench Asyncio k iters p) as [e|oa] eqn:Ha.
  { right. exists Asyncio, e. split; [discriminate|done]. }
  destruct (outcome bench OsThreads k iters p) as [e|ot] eqn:Ht.
  { right. exists OsThreads, e. split; [intros _; by eexists|done]. }
  left. split; by eexists.
Qed.

Lemma loop_inr bench iters k ps a t l r l2 :
  loop bench iters k ps a t l = (inr r, l2) -> all_ok bench iters k ps.
Proof.
  revert k a t l. induction ps as [|p ps IH]; intros k a t l; [done|].
  destruct (loop_cases bench iters k p) as [[Ha Ht]|(v & e & Hv & He)].
  - rewrite (loop_step _ _ _ _ _ _ _ _ Ha Ht). intros H. apply IH in H. done.
  - by rewrite (loop_step_fail _ _ _ _ _ _ _ _ _ _ Hv He).
Qed.


Lemma loop_events_measured bench iters k ps :
  measured (loop_events bench iters k ps) =
  ps ≫= fun p => [(Asyncio, p); (OsThreads, p)].
Proof.
  revert k. induction ps as [|p ps IH]; intros k; [done|].
  cbn [loop_events]. rewrite measured_app, IH. reflexivity.
Qed.

Lemma loop_events_no_plot bench iters k ps :
  List.filter is_plot (loop_events bench iters k ps) = [].
Proof.
  revert k. induction ps as [|p ps IH]; intros k; [done|].
  cbn [loop_events]. by rewrite List.filter_app, IH.
Qed.

Lemma record_all_dom bench iters k ps a t :
  dom (record_all bench iters k ps a t).1 = dom a ∪ list_to_set ps /\
  dom (record_all bench iters k ps a t).2 = dom t ∪ list_to_set ps.
Proof.
  revert k a t. induction ps as [|p ps IH]; intros k a t; simpl.
  - rewrite !union_empty_r_L. done.
  - destruct (IH (S k) (<[p := rps_of (outcome bench Asyncio k iters p)]> a)
                (<[p := rps_of (outcome bench OsThreads k iters p)]> t)) as [-> ->].
    rewrite !dom_insert_L.
    split; rewrite (comm_L (∪) {[p]}), <- (assoc_L (∪)); reflexivity.
Qed.

Lemma record_all_notin bench iters k ps a t x :
  x ∉ ps ->
  (record_all bench iters k ps a t).1 !! x = a !! x /\
  (record_all bench iters k ps a t).2 !! x = t !! x.
Proof.
  revert k a t. induction ps as [|p ps IH]; intros k a t Hx; simpl; [done|].
  apply not_elem_of_cons in Hx as [Hne Hx].
  destruct (IH (S k) (<[p := rps_of (outcome bench Asyncio k iters p)]> a)
              (<[p := rps_of (outcome bench OsThreads k iters p)]> t) Hx)
    as [-> ->].
  by rewrite !lookup_insert_ne.
Qed.

(** The entry recorded for a pair-count is the one of its last
    measurement. *)
Lemma record_all_last bench iters k ps a t i x :
  ps !! i = Some x -> x ∉ drop (S i) ps ->
  (record_all bench iters k ps a t).1 !! x
    = Some (rps_of (outcome bench Asyncio (k + i)%nat iters x)) /\
  (record_all bench iters k ps a t).2 !! x
    = Some (rps_of (outcome bench OsThreads (k + i)%nat iters x)).
Proof.
  revert k a t i. induction ps as [|p ps IH]; intros k a t [|i] Hi Hx; simpl in *; try done.
  - injection Hi as ->. rewrite Nat.add_0_r. rewrite drop_0 in Hx.
    destruct (record_all_notin bench iters (S k) ps
                (<[x := rps_of (outcome bench Asyncio k iters x)]> a)
                (<[x := rps_of (outcome bench OsThreads k iters x)]> t) x Hx)
      as [-> ->].
    by rewrite !lookup_insert_eq.
  - replace (k + S i)%nat with (S k + i)%nat by lia. by apply IH.
Qed.

Lemma all_ok_lookup bench iters k ps i x :
  all_ok bench iters k ps -> ps !! i = Some x ->
  is_ok (outcome bench Asyncio (k + i)%nat iters x) /\
  is_ok (outcome bench OsThreads (k + i)%nat iters x).
Proof.
  revert k i. induction ps as [|p ps IH]; intros k [|i]; simpl; try done.
  - intros (Ha & Ht & _) [= ->]. by rewrite Nat.add_0_r.
  - intros (_ & _ & Hok) Hi. replace (k + S i)%nat with (S k + i)%nat by lia.
    by apply IH.
Qed.


Lemma speedup_spec a t x ra rt l :
  a !! x = Some ra -> t !! x = Some rt ->
  speedup a t x l = (inr (speedup_of ra rt), l).
Proof.
  intros Ha Ht. unfold speedup_of. munfold. rewrite Ht. cbv beta iota zeta.
  destruct (float_gt0 rt) eqn:Hg; [|done].
  rewrite Ha. cbv beta iota zeta.
  by rewrite (float_div_gt0 _ _ Hg).
Qed.

Lemma ratios_ok a t keys l :
  (forall x, x ∈ keys -> is_Some (a !! x) /\ is_Some (t !! x)) ->
  exists ys,
    ratios a t keys l = (inr ys, l) /\
    Forall2 (fun x y => exists ra rt,
               a !! x = Some ra /\ t !! x = Some rt /\ y = speedup_of ra rt) keys ys.
Proof.
  induction keys as [|x keys IH]; intros Hk.
  - exists []. split; [done|constructor].
  - destruct (Hk x) as [[ra Ha] [rt Ht]]; [by left|].
    destruct IH as (ys & Hys & Hf); [intros y Hy; apply Hk; by right|].
    exists (speedup_of ra rt :: ys). split.
    + cbn [ratios]. unfold mbind at 1, M_bind, m_bind.
      rewrite (speedup_spec _ _ _ _ _ _ Ha Ht).
      unfold mbind, M_bind, m_bind. by rewrite Hys.
    + constructor; [by exists ra, rt|done].
Qed.

Lemma sorted_keys_in (a t : gmap Z float) x :
  x ∈ merge_sort Z.le (elements (dom a ∩ dom t)) ->
  is_Some (a !! x) /\ is_Some (t !! x).
Proof.
  intros Hx. apply sorted_keys_spec in Hx.
  apply elem_of_intersection in Hx as [Ha Ht]. by rewrite <- !elem_of_dom.
Qed.

(** [main] when the pair-counts parse and every measurement gets to its
    line. *)
Lemma main_all_ok bench plt ar ps :
  parse_pairs (arg_pairs ar) = inr ps ->
  all_ok bench (arg_iters ar) 0 ps ->
  exists rep,
    report_of bench (arg_iters ar) ps rep /\
    run_main bench plt ar
    = finish plt (arg_plot ar) rep (loop_events bench (arg_iters ar) 0 ps).
Proof.
  intros Hp Hok. unfold run_main, main.
  unfold mbind at 1, M_bind, m_bind, lift. rewrite Hp.
  unfold mbind at 1, M_bind, m_bind. rewrite (loop_ok _ _ _ _ _ _ _ Hok).
  destruct (record_all bench (arg_iters ar) 0 ps ∅ ∅) as [a t] eqn:Er.
  destruct (ratios_ok a t (merge_sort Z.le (elements (dom a ∩ dom t)))
              ([] ++ loop_events bench (arg_iters ar) 0 ps)) as (zs & Hys & Hf).
  { apply sorted_keys_in. }
  cbv beta iota zeta. unfold mbind at 1, M_bind, m_bind. rewrite Hys.
  exists (Report a t (merge_sort Z.le (elements (dom a ∩ dom t))) zs).
  split; [done|]. unfold finish. cbn [xs ys app].
  destruct (arg_plot ar); [|by munfold].
  unfold plot_speedup. destruct plt as [draw|]; [|by munfold].
  munfold. destruct (draw _ zs) as [e|[]]; [done|].
  by rewrite <- app_assoc.
Qed.

(** What a run of [main] that ends normally has done. *)
Lemma main_inr bench plt ar rep log :
  run_main bench plt ar = (inr rep, log) ->
  exists ps,
    parse_pairs (arg_pairs ar) = inr ps /\
    all_ok bench (arg_iters ar) 0 ps /\
    report_of bench (arg_iters ar) ps rep /\
    (arg_plot ar = true ->
     exists draw, plt = Some draw /\ draw (xs rep) (ys rep) = inr tt) /\
    log = loop_events bench (arg_iters ar) 0 ps
          ++ (if arg_plot ar then [Plot (xs rep) (ys rep); Wrote] else []).
Proof.
  intros Hrun.
  destruct (parse_pairs (arg_pairs ar)) as [e|ps] eqn:Hp.
  { destruct ar as [iters s plot]. simpl in Hp.
    by rewrite (main_parse_error bench plt iters plot s e Hp) in Hrun. }
  assert (Hok : all_ok bench (arg_iters ar) 0 ps).
  { revert Hrun. unfold run_main, main.
    unfold mbind at 1, M_bind, m_bind, lift. rewrite Hp.
    unfold mbind at 1, M_bind, m_bind.
    destruct (loop bench (arg_iters ar) 0 ps ∅ ∅ []) as [[e|[a t]] l1] eqn:El; [done|].
    intros _. by eapply loop_inr. }
  destruct (main_all_ok bench plt ar ps Hp Hok) as (rep' & Hrep & Hm).
  rewrite Hm in Hrun. unfold finish in Hrun. exists ps.
  destruct (arg_plot ar).
  - destruct plt as [draw|]; [|done].
    destruct (draw (xs rep') (ys rep')) as [e|[]] eqn:Hd; [done|].
    injection Hrun as <- <-. split; [done|]. split; [done|]. split; [done|].
    split; [|done]. intros _. by exists draw.
  - injection Hrun as <- <-. rewrite app_nil_r.
    split; [done|]. split; [done|]. split; [done|]. split; [done|done].
Qed.


Lemma main_measurement_error bench plt ar pre p rest v e :
  parse_pairs (arg_pairs ar) = inr (pre ++ p :: rest) ->
  all_ok bench (arg_iters ar) 0 pre ->
  (v = OsThreads -> is_ok (outcome bench Asyncio (length pre) (arg_iters ar) p)) ->
  outcome bench v (length pre) (arg_iters ar) p = inl e ->
  run_main bench plt ar =
  (inl e, loop_events bench (arg_iters ar) 0 pre
          ++ failed_events bench (arg_iters ar) (length pre) p v).
Proof.
  intros Hp Hok Hv He. unfold run_main, main.
  unfold mbind at 1, M_bind, m_bind, lift. rewrite Hp.
  unfold mbind at 1, M_bind, m_bind.
  by rewrite (loop_fail bench (arg_iters ar) 0 pre p rest v e ∅ ∅ [] Hok Hv He).
Qed.

Lemma positive_pairs s ps :
  parse_pairs s = inr ps -> Forall (fun p => 1 <= p) ps.
Proof.
  intros Hp. apply parse_pairs_inr in Hp as [Hlit _].
  by apply positive_literals_ge1 in Hlit.
Qed.


Lemma outcome_row bench v k iters p :
  is_ok (outcome bench v k iters p) ->
  exists rps,
    rps = rps_of (outcome bench v k iters p) /\
    bench v k iters p = inr (dt_of (outcome bench v k iters p)) /\
    throughput iters p (dt_of (outcome bench v k iters p)) = inr rps /\
    int_of_float rps = inr (shown_of (outcome bench v k iters p)).
Proof.
  intros (dt & rps & shown & Ho)%is_ok_outcome. rewrite Ho. cbn.
  apply outcome_inr in Ho as (? & ? & ?). by exists rps.
Qed.

Lemma outcome_row_reported bench v k iters p :
  1 <= p -> is_ok (outcome bench v k iters p) ->
  row_reported iters
    (Row v p (dt_of (outcome bench v k iters p)) (shown_of (outcome bench v k iters p))).
Proof.
  intros Hp (rps & _ & _ & Ht & Hi)%outcome_row. split; [done|].
  exists rps. split; [done|]. split; [done|].
  destruct (throughput_inr _ _ _ _ Ht) as (H1 & H2 & _). done.
Qed.

Lemma loop_events_reported bench iters k ps :
  Forall (fun p => 1 <= p) ps -> all_ok bench iters k ps ->
  Forall (row_reported iters) (loop_events bench iters k ps).
Proof.
  intros Hps. revert k. induction Hps as [|p ps Hp _ IH]; intros k; [constructor|].
  intros (Ha & Ht & Hok). cbn [loop_events pair_events app].
  constructor; [exact I|]. constructor; [by apply outcome_row_reported|].
  constructor; [exact I|]. constructor; [by apply outcome_row_reported|].
  by apply IH.
Qed.

(** Every entry of the two dictionaries is the throughput behind a printed
    line of the same variant and pair-count. *)
Lemma record_all_rows bench iters k ps a t x :
  all_ok bench iters k ps ->
  (forall r, (record_all bench iters k ps a t).1 !! x = Some r ->
     a !! x = Some r \/
     exists dt shown,
       In (Row Asyncio x dt shown) (loop_events bench iters k ps) /\
       throughput iters x dt = inr r /\ int_of_float r = inr shown) /\
  (forall r, (record_all bench iters k ps a t).2 !! x = Some r ->
     t !! x = Some r \/
     exists dt shown,
       In (Row OsThreads x dt shown) (loop_events bench iters k ps) /\
       throughput iters x dt = inr r /\ int_of_float r = inr shown).
Proof.
  revert k a t. induction ps as [|p ps IH]; intros k a t; [by split; left|].
  intros (Hoa & Hot & Hok). cbn [record_all loop_events].
  destruct (IH (S k) (<[p := rps_of (outcome bench Asyncio k iters p)]> a)
              (<[p := rps_of (outcome bench OsThreads k iters p)]> t) Hok) as [Ha Ht].
  split; intros r Hr.
  - destruct (Ha r Hr) as [Hl|(dt & shown & Hin & H)].
    + destruct (decide (p = x)) as [->|Hne].
      * rewrite lookup_insert_eq in Hl. injection Hl as <-.
        destruct (outcome_row _ _ _ _ _ Hoa) as (rps & -> & _ & H1 & H2).
        right. eexists _, _. split; [|done].
        apply in_or_app. left. simpl. right. left. reflexivity.
      * rewrite lookup_insert_ne in Hl by done. by left.
    + right. exists dt, shown. split; [|done]. apply in_or_app. by right.
  - destruct (Ht r Hr) as [Hl|(dt & shown & Hin & H)].
    + destruct (decide (p = x)) as [->|Hne].
      * rewrite lookup_insert_eq in Hl. injection Hl as <-.
        destruct (outcome_row _ _ _ _ _ Hot) as (rps & -> & _ & H1 & H2).
        right. eexists _, _. split; [|done].
        apply in_or_app. left. simpl. do 3 right. left. reflexivity.
      * rewrite lookup_insert_ne in Hl by done. by left.
    + right. exists dt, shown. split; [|done]. apply in_or_app. by right.
Qed.

Lemma speedup_of_gt0 ra rt :
  (float_gt0 rt = true -> speedup_of ra rt = SFdiv prec emax ra rt) /\
  (float_gt0 rt = false -> speedup_of ra rt = fzero).
Proof. unfold speedup_of. by destruct (float_gt0 rt). Qed.

Lemma main_last bench plt ar rep log ps i x :
  run_main bench plt ar = (inr rep, log) ->
  parse_pairs (arg_pairs ar) = inr ps ->
  ps !! i = Some x -> x ∉ drop (S i) ps ->
  exists dt_a dt_t ra rt,
    bench Asyncio i (arg_iters ar) x = inr dt_a /\
    bench OsThreads i (arg_iters ar) x = inr dt_t /\
    throughput (arg_iters ar) x dt_a = inr ra /\
    throughput (arg_iters ar) x dt_t = inr rt /\
    rps_async rep !! x = Some ra /\
    rps_thr rep !! x = Some rt.
Proof.
  intros Hrun Hp Hx Hlast.
  destruct (main_inr _ _ _ _ _ Hrun) as (ps2 & Hp2 & Hok & (Hrec & _) & _).
  rewrite Hp in Hp2. injection Hp2 as <-.
  destruct (all_ok_lookup _ _ _ _ _ _ Hok Hx) as [Hoa Hot].
  destruct (outcome_row _ _ _ _ _ Hoa) as (ra & Hra & Hba & Hta & _).
  destruct (outcome_row _ _ _ _ _ Hot) as (rt & Hrt & Hbt & Htt & _).
  destruct (record_all_last bench (arg_iters ar) 0 ps ∅ ∅ i x Hx Hlast) as [Hla Hlt].
  rewrite <- Hrec in Hla, Hlt. simpl in Hla, Hlt.
  eexists _, _, ra, rt. split; [exact Hba|]. split; [exact Hbt|].
  split; [done|]. split; [done|]. by rewrite Hla, Hlt, Hra, Hrt.
Qed.


(** *** Floats: how small a rounded result can get *)

Lemma digits2_pos_bounds m :
  2 ^ (Z.pos (digits2_pos m) - 1) <= Z.pos m < 2 ^ Z.pos (digits2_pos m).
Proof.
  induction m as [m IH|m IH|]; cbn [digits2_pos].
  - rewrite Pos2Z.inj_succ.
    replace (Z.succ (Z.pos (digits2_pos m)) - 1) with (Z.succ (Z.pos (digits2_pos m) - 1)) by lia.
    rewrite !Z.pow_succ_r by lia. lia.
  - rewrite Pos2Z.inj_succ.
    replace (Z.succ (Z.pos (digits2_pos m)) - 1) with (Z.succ (Z.pos (digits2_pos m) - 1)) by lia.
    rewrite !Z.pow_succ_r by lia. lia.
  - simpl. lia.
Qed.

Lemma Zdigits2_gt k z : 0 <= k -> 2 ^ k <= z -> k < Zdigits2 z.
Proof.
  intros Hk Hz. assert (0 < 2 ^ k) by (apply Z.pow_pos_nonneg; lia).
  destruct z as [|m|m]; try lia. cbn [Zdigits2].
  pose proof (digits2_pos_bounds m) as [_ Hu].
  apply (Z.pow_lt_mono_r_iff 2); lia.
Qed.

Lemma Zdigits2_lower z : 0 < z -> 2 ^ (Zdigits2 z - 1) <= z /\ 0 < Zdigits2 z.
Proof.
  destruct z as [|m|m]; try lia. intros _. cbn [Zdigits2].
  pose proof (digits2_pos_bounds m). lia.
Qed.

Lemma Zdigits2_mono z z' : 0 < z -> z <= z' -> Zdigits2 z <= Zdigits2 z'.
Proof.
  intros Hz Hle. destruct (Zdigits2_lower z Hz) as [Hl Hd].
  assert (Zdigits2 z - 1 < Zdigits2 z') by (apply Zdigits2_gt; lia). lia.
Qed.

Lemma shr_1_m mrs : 0 <= shr_m mrs -> shr_m (shr_1 mrs) = shr_m mrs / 2.
Proof.
  destruct mrs as [m r s]. cbn [shr_m shr_1]. intros Hm.
  destruct m as [|[p|p|]|p]; cbn [shr_m]; try lia.
  - reflexivity.
  - apply (Z.div_unique _ 2 _ 1); lia.
  - apply (Z.div_unique _ 2 _ 0); lia.
  - reflexivity.
Qed.

Lemma iter_shr_m p mrs :
  0 <= shr_m mrs ->
  shr_m (SpecFloat.iter_pos shr_1 p mrs) = shr_m mrs / 2 ^ Z.pos p.
Proof.
  revert mrs. induction p as [p IH|p IH|]; intros mrs Hm; cbn [SpecFloat.iter_pos].
  - assert (H1 : 0 <= shr_m (shr_1 mrs)) by (rewrite shr_1_m by done; apply Z.div_pos; lia).
    rewrite IH by (by apply iter_pos_shr_nonneg).
    rewrite IH by done. rewrite shr_1_m by done.
    assert (Hp : 0 < 2 ^ Z.pos p) by (apply Z.pow_pos_nonneg; lia).
    rewrite !Z.div_div by lia.
    replace (Z.pos p~1) with (1 + Z.pos p + Z.pos p) by lia.
    rewrite !Z.pow_add_r by lia. change (2 ^ 1) with 2. f_equal. ring.
  - rewrite IH by (by apply iter_pos_shr_nonneg). rewrite IH by done.
    assert (Hp : 0 < 2 ^ Z.pos p) by (apply Z.pow_pos_nonneg; lia).
    rewrite Z.div_div by lia.
    replace (Z.pos p~0) with (Z.pos p + Z.pos p) by lia.
    by rewrite Z.pow_add_r by lia.
  - by apply shr_1_m.
Qed.

Lemma shr_record_of_loc_m m l : shr_m (shr_record_of_loc m l) = m.
Proof. by destruct l as [|[]]. Qed.

(** A positive mantissa whose magnitude is at least [2^(c-1)], for a [c]
    above the least exponent, stays so when it is shifted to its place. *)
Lemma shr_fexp_lower c m e l :
  -1074 < c -> 0 < m -> c <= Zdigits2 m + e ->
  0 < shr_m (shr_fexp prec emax m e l).1 /\
  c <= Zdigits2 (shr_m (shr_fexp prec emax m e l).1) + (shr_fexp prec emax m e l).2.
Proof.
  intros Hc Hm Hd. unfold shr_fexp, shr.
  destruct (Zdigits2_lower m Hm) as [Hl Hdp].
  destruct (fexp prec emax (Zdigits2 m + e) - e) as [|p|p] eqn:Ek; cbn [fst snd];
    rewrite ?shr_record_of_loc_m; try done.
  rewrite iter_shr_m by (rewrite shr_record_of_loc_m; lia).
  rewrite shr_record_of_loc_m.
  assert (Hp : Z.pos p < Zdigits2 m).
  { unfold fexp, SpecFloat.emin, prec, emax in Ek. lia. }
  assert (H2 : 2 ^ (Zdigits2 m - 1 - Z.pos p) <= m / 2 ^ Z.pos p).
  { apply Z.div_le_lower_bound; [apply Z.pow_pos_nonneg; lia|].
    rewrite <- Z.pow_add_r by lia.
    replace (Z.pos p + (Zdigits2 m - 1 - Z.pos p)) with (Zdigits2 m - 1) by lia. done. }
  assert (H3 : 0 < 2 ^ (Zdigits2 m - 1 - Z.pos p)) by (apply Z.pow_pos_nonneg; lia).
  split; [lia|].
  assert (Zdigits2 m - 1 - Z.pos p < Zdigits2 (m / 2 ^ Z.pos p))
    by (apply Zdigits2_gt; lia).
  lia.
Qed.

Lemma round_nearest_even_ge m l : m <= round_nearest_even m l.
Proof. unfold round_nearest_even. destruct l as [|[]]; try lia. destruct (Z.even m); lia. Qed.

Lemma binary_round_aux_lower c sx m e l :
  -1074 < c -> 0 < m -> c <= Zdigits2 m + e ->
  match binary_round_aux prec emax sx m e l with
  | S754_finite s m' e' => s = sx /\ c <= Z.pos (digits2_pos m') + e'
  | S754_infinity s => s = sx
  | _ => False
  end.
Proof.
  intros Hc Hm Hd. unfold binary_round_aux.
  pose proof (shr_fexp_lower c m e l Hc Hm Hd) as [H1 H2].
  destruct (shr_fexp prec emax m e l) as [mrs' e'] eqn:E1. cbn [fst snd] in H1, H2.
  set (m1 := round_nearest_even (shr_m mrs') (loc_of_shr_record mrs')).
  assert (Hm1 : shr_m mrs' <= m1) by apply round_nearest_even_ge.
  assert (Hd1 : c <= Zdigits2 m1 + e').
  { pose proof (Zdigits2_mono _ _ H1 Hm1). lia. }
  pose proof (shr_fexp_lower c m1 e' loc_Exact Hc ltac:(lia) Hd1) as [H3 H4].
  destruct (shr_fexp prec emax m1 e' loc_Exact) as [mrs'' e''] eqn:E2.
  cbn [fst snd] in H3, H4.
  destruct (shr_m mrs'') as [|m2|m2]; try lia.
  destruct (e'' <=? emax - prec); [|done]. split; [done|]. exact H4.
Qed.

Lemma digits2_pos_iter m d :
  Z.pos (digits2_pos (Pos.iter xO m d)) = Z.pos (digits2_pos m) + Z.pos d.
Proof.
  induction d as [|d IH] using Pos.peano_ind.
  - simpl. lia.
  - rewrite Pos.iter_succ. cbn [digits2_pos]. lia.
Qed.

(** The float of an integer [n >= 1] is at least 1. *)
Lemma float_of_int_pos n x :
  1 <= n -> float_of_int n = inr x ->
  exists m e, x = S754_finite false m e /\ 1 <= Z.pos (digits2_pos m) + e.
Proof.
  intros Hn. unfold float_of_int, binary_normalize.
  destruct n as [|N|N]; try lia. unfold binary_round.
  destruct (shl_align N 0 _) as [mz ez] eqn:Es.
  assert (Hd : 1 <= Zdigits2 (Z.pos mz) + ez).
  { unfold shl_align in Es. cbn [Zdigits2].
    destruct (fexp prec emax (Z.pos (digits2_pos N) + 0) - 0) as [|d|d] eqn:Ed;
      injection Es as <- <-; try lia.
    rewrite digits2_pos_iter. lia. }
  pose proof (binary_round_aux_lower 1 false (Z.pos mz) ez loc_Exact
                ltac:(lia) ltac:(lia) Hd) as H.
  destruct (binary_round_aux prec emax false (Z.pos mz) ez loc_Exact)
    as [s|s| |s m e]; try done.
  intros [= <-]. destruct H as [-> H]. by exists m, e.
Qed.

(** The quotient of two positive floats does not underflow to zero when
    the magnitudes are less than [2^1074] apart. *)
Lemma SFdiv_pos m1 e1 m2 e2 :
  -1074 < (Z.pos (digits2_pos m1) + e1) - (Z.pos (digits2_pos m2) + e2) ->
  float_gt0 (SFdiv prec emax (S754_finite false m1 e1) (S754_finite false m2 e2))
  = true.
Proof.
  intros Ht. cbn [SFdiv xorb]. unfold SFdiv_core_binary. cbn [Zdigits2].
  set (d1 := Z.pos (digits2_pos m1)) in *. set (d2 := Z.pos (digits2_pos m2)) in *.
  set (e' := Z.min (fexp prec emax (d1 + e1 - (d2 + e2))) (e1 - e2)).
  set (s := e1 - e2 - e').
  set (m' := match s with Z0 => _ | Z.pos _ => _ | Z.neg _ => _ end).
  assert (Hs : 0 <= s) by (subst s e'; lia).
  assert (Hm' : m' = Z.pos m1 * 2 ^ s).
  { subst m'. destruct s as [|k|k] eqn:Esk; try lia.
    by rewrite Z.shiftl_mul_pow2 by lia. }
  assert (Hu : 0 <= d1 - 1 + s - d2).
  { subst s e'. unfold fexp, SpecFloat.emin, prec, emax. lia. }
  pose proof (digits2_pos_bounds m1) as [Hl1 _]. fold d1 in Hl1.
  pose proof (digits2_pos_bounds m2) as [_ Hu2]. fold d2 in Hu2.
  assert (Hd1 : 0 < d1) by (subst d1; lia).
  assert (Hd2 : 0 < d2) by (subst d2; lia).
  assert (Hq : 2 ^ (d1 - 1 + s - d2) <= m' / Z.pos m2).
  { apply Z.div_le_lower_bound; [lia|].
    rewrite Hm'.
    assert (H1 : Z.pos m2 * 2 ^ (d1 - 1 + s - d2) <= 2 ^ d2 * 2 ^ (d1 - 1 + s - d2)).
    { apply Z.mul_le_mono_nonneg_r; [apply Z.pow_nonneg; lia|lia]. }
    rewrite <- Z.pow_add_r in H1 by lia.
    replace (d2 + (d1 - 1 + s - d2)) with ((d1 - 1) + s) in H1 by lia.
    rewrite Z.pow_add_r in H1 by lia.
    assert (H2 : 2 ^ (d1 - 1) * 2 ^ s <= Z.pos m1 * 2 ^ s).
    { apply Z.mul_le_mono_nonneg_r; [apply Z.pow_nonneg; lia|lia]. }
    lia. }
  assert (Hpos : 0 < 2 ^ (d1 - 1 + s - d2)) by (apply Z.pow_pos_nonneg; lia).
  unfold Z.div in Hq. destruct (Z.div_eucl m' (Z.pos m2)) as [q r]. cbn [fst] in Hq.
  assert (Hdq : d1 - 1 + s - d2 < Zdigits2 q) by (apply Zdigits2_gt; lia).
  pose proof (binary_round_aux_lower (d1 + e1 - (d2 + e2)) false q e'
                (new_location (Z.pos m2) r) ltac:(lia) ltac:(lia)) as H.
  destruct (binary_round_aux prec emax false q e' (new_location (Z.pos m2) r))
    as [s0|s0| |s0 m0 e0].
  - exfalso. apply H. subst s. lia.
  - rewrite H by (subst s; lia). reflexivity.
  - exfalso. apply H. subst s. lia.
  - destruct H as [-> _]; [subst s; lia|]. reflexivity.
Qed.

Lemma valid_finite_magnitude s m e :
  valid_binary prec emax (S754_finite s m e) = true ->
  Z.pos (digits2_pos m) + e <= 1024.
Proof.
  cbn [valid_binary]. unfold bounded, canonical_mantissa.
  intros [Hc He]%andb_prop. apply Z.eqb_eq in Hc. apply Z.leb_le in He.
  unfold fexp, SpecFloat.emin, prec, emax in *. lia.
Qed.

(** The throughput of at least one operation in a positive, finite time
    is strictly positive. *)
Lemma throughput_positive iters p dt rps :
  1 <= iters * p ->
  float_gt0 dt = true -> is_finite dt = true -> valid_binary prec emax dt = true ->
  throughput iters p dt = inr rps -> float_gt0 rps = true.
Proof.
  intros Hn Hg Hf Hv Ht.
  destruct (throughput_inr _ _ _ _ Ht) as (Hpos & _ & _).
  destruct (Hpos Hg) as (n & Hnf & ->).
  destruct (float_of_int_pos _ _ Hn Hnf) as (m1 & e1 & -> & H1).
  apply float_gt0_cases in Hg as [(m2 & e2 & ->)| ->]; [|done].
  apply valid_finite_magnitude in Hv. apply SFdiv_pos. lia.
Qed.

End RunnerFacts.

Module FreeThreadFacts.
Import FreeThread.

Lemma cpu_bound_task_succ n :
  0 <= n -> cpu_bound_task (n + 1) = cpu_bound_task n + n * n.
Proof.
  intros Hn. unfold cpu_bound_task.
  rewrite seqZ_app by lia. rewrite foldl_app.
  rewrite (seqZ_cons _ 1), (seqZ_nil _ (Z.pred 1)) by lia. cbn. f_equal.
Qed.

Lemma cpu_bound_task_nonpos n : n <= 0 -> cpu_bound_task n = 0.
Proof. intros Hn. unfold cpu_bound_task. by rewrite seqZ_nil. Qed.

End FreeThreadFacts.

Module BenchFacts.
Import Runner Bench.

Lemma variants_cases key :
  key ∈ VARIANTS ->
  key = "threadpool_capped"%string \/ key = "threadpool_naive"%string \/
  key = "asyncio_to_thread_capped"%string \/ key = "asyncio_sleep"%string.
Proof.
  unfold VARIANTS. rewrite !elem_of_cons, elem_of_nil. tauto.
Qed.

Lemma call_of_variants cpu key n :
  key ∈ VARIANTS -> is_Some (call_of cpu key n).
Proof.
  intros H. apply variants_cases in H as [ -> | [ -> | [ -> | -> ]]]; by eexists.
Qed.

Lemma call_of_some cpu key n c :
  call_of cpu key n = Some c -> key ∈ VARIANTS.
Proof.
  unfold call_of, VARIANTS. rewrite !elem_of_cons.
  repeat match goal with
  | |- context [String.eqb key ?s] =>
      destruct (String.eqb_spec key s) as [Hk|_]; [intros _; tauto|]
  end.
  done.
Qed.

Section Env.
Variable cpu : option Z.
Variable exec : nat -> call -> exc + float.

Lemma run_variant_call key n c l :
  call_of cpu key n = Some c ->
  run_variant cpu exec key n l = (exec (length l) c, l ++ [c]).
Proof.
  unfold call_of, run_variant.
  repeat (destruct (String.eqb key _); [by intros [= <-]|]). done.
Qed.

Lemma columns_disjoint key key' k :
  key ∈ VARIANTS -> key' ∈ VARIANTS -> key <> key' ->
  k ∈ columns key -> k ∉ columns key'.
Proof.
  intros H H' Hne Hk Hk'.
  apply variants_cases in H as [ -> | [ -> | [ -> | -> ]]];
  apply variants_cases in H' as [ -> | [ -> | [ -> | -> ]]]; try done;
  unfold columns in *; cbn in Hk, Hk';
  rewrite !elem_of_cons, elem_of_nil in Hk, Hk';
  destruct Hk as [ -> | [ -> | [ -> | []]]]; destruct Hk' as [?|[?|[?|[]]]]; done.
Qed.

Lemma cells_ok_frame row row' key r :
  (forall k, k ∈ columns key -> row' !! k = row !! k) ->
  cells_ok row key r -> cells_ok row' key r.
Proof.
  intros H. unfold cells_ok.
  rewrite !H by (unfold columns; set_solver). done.
Qed.

Lemma record_variant_spec key n row l c :
  key ∈ VARIANTS -> call_of cpu key n = Some c ->
  match record_variant cpu exec key n row l with
  | (inr row', l') =>
      l' = l ++ [c] /\ recordable (exec (length l) c) /\
      cells_ok row' key (exec (length l) c) /\
      (forall k, k ∉ columns key -> row' !! k = row !! k)
  | (inl e, l') =>
      l' = l ++ [c] /\ exec (length l) c = inl e /\ ~ recordable (inl e)
  end.
Proof.
  intros Hk Hc. unfold record_variant. rewrite (run_variant_call _ _ _ _ Hc).
  assert (Hfr : forall (v1 v2 v3 : value) k, k ∉ columns key ->
    (<[String.append key "_error_msg" := v3]>
       (<[String.append key "_error" := v2]>
          (<[String.append key "_time_s" := v1]> row))) !! k = row !! k).
  { intros v1 v2 v3 k Hn. unfold columns in Hn.
    rewrite !not_elem_of_cons in Hn. destruct Hn as (? & ? & ? & _).
    by rewrite !lookup_insert_ne by done. }
  assert (Hne : String.append key "_time_s" <> String.append key "_error" /\
                String.append key "_time_s" <> String.append key "_error_msg" /\
                String.append key "_error" <> String.append key "_error_msg").
  { apply variants_cases in Hk as [ -> | [ -> | [ -> | -> ]]]; done. }
  destruct Hne as (H1 & H2 & H3).
  destruct (exec (length l) c) as [e|t] eqn:E; cbn.
  - destruct (isinstance e "RuntimeError") eqn:Hi.
    + split; [done|]. split; [done|]. split; [|by apply Hfr]. split; [done|].
      rewrite lookup_insert_eq, (lookup_insert_ne _ _ _ _ (not_eq_sym H3)),
        lookup_insert_eq, (lookup_insert_ne _ _ _ _ (not_eq_sym H2)),
        (lookup_insert_ne _ _ _ _ (not_eq_sym H1)), lookup_insert_eq. done.
    + split; [done|]. split; [done|]. by rewrite Hi.
  - split; [done|]. split; [done|]. split; [|by apply Hfr].
    rewrite lookup_insert_eq, (lookup_insert_ne _ _ _ _ (not_eq_sym H3)),
      lookup_insert_eq, (lookup_insert_ne _ _ _ _ (not_eq_sym H2)),
      (lookup_insert_ne _ _ _ _ (not_eq_sym H1)), lookup_insert_eq. done.
Qed.

Lemma record_variants_spec keys n row l :
  NoDup keys -> Forall (fun key => key ∈ VARIANTS) keys ->
  match record_variants cpu exec keys n row l with
  | (inr row', l') =>
      l' = l ++ omap (fun key => call_of cpu key n) keys /\
      (forall (j : nat) key, keys !! j = Some key ->
         exists c, call_of cpu key n = Some c /\
                   recordable (exec (length l + j)%nat c) /\
                   cells_ok row' key (exec (length l + j)%nat c)) /\
      (forall k, (forall key, key ∈ keys -> k ∉ columns key) ->
                 row' !! k = row !! k)
  | (inl e, l') =>
      exists (j : nat) c,
        omap (fun key => call_of cpu key n) keys !! j = Some c /\
        exec (length l + j)%nat c = inl e /\ ~ recordable (inl e) /\
        l' = l ++ take (S j) (omap (fun key => call_of cpu key n) keys) /\
        forall (j' : nat) c', (j' < j)%nat ->
          omap (fun key => call_of cpu key n) keys !! j' = Some c' ->
          recordable (exec (length l + j')%nat c')
  end.
Proof.
  intros Hnd Hall. revert row l.
  induction keys as [|key rest IH]; intros row l.
  - cbn. rewrite app_nil_r. split; [done|]. split; [|done].
    intros j key Hj. by rewrite lookup_nil in Hj.
  - apply NoDup_cons in Hnd as [Hnotin Hnd].
    apply Forall_cons in Hall as [Hkey Hall].
    destruct (call_of_variants cpu key n Hkey) as [c Hc].
    cbn [record_variants omap list_omap]. rewrite Hc.
    unfold mbind, B_bind, b_bind.
    pose proof (record_variant_spec key n row l c Hkey Hc) as Hstep.
    destruct (record_variant cpu exec key n row l) as [[e|row1] l1].
    + destruct Hstep as (-> & He & Hnr).
      exists 0%nat, c. rewrite Nat.add_0_r. cbn.
      repeat split; try done. intros j' c' Hlt. lia.
    + destruct Hstep as (-> & Hrec & Hcells & Hframe).
      specialize (IH Hnd Hall row1 (l ++ [c])).
      destruct (record_variants cpu exec rest n row1 (l ++ [c]))
        as [[e|row2] l2].
      * destruct IH as (j & c2 & Hj & He & Hnr & -> & Hbefore).
        rewrite length_app in He. cbn in He.
        exists (S j), c2. cbn [lookup list_lookup take].
        replace (length l + S j)%nat with (length l + 1 + j)%nat by lia.
        split; [done|]. split; [done|]. split; [done|].
        split; [by rewrite <- app_assoc|].
        intros [|j'] c' Hlt Hj'.
        -- cbn in Hj'. injection Hj' as <-. by rewrite Nat.add_0_r.
        -- cbn in Hj'. specialize (Hbefore j' c' ltac:(lia) Hj').
           rewrite length_app in Hbefore. cbn in Hbefore.
           by replace (length l + S j')%nat with (length l + 1 + j')%nat by lia.
      * destruct IH as (-> & Hcs & Hfr2).
        split; [by rewrite <- app_assoc|]. split.
        -- intros [|j] key' Hj.
           ++ cbn in Hj. injection Hj as <-. exists c.
              rewrite Nat.add_0_r. split; [done|]. split; [done|].
              eapply cells_ok_frame; [|exact Hcells].
              intros k Hk. apply Hfr2. intros key' Hin.
              apply (columns_disjoint key key'); try done.
              { by eapply Forall_forall in Hall. }
              intros ->. done.
           ++ cbn in Hj. destruct (Hcs j key' Hj) as (c' & Hc' & Hr' & Hok').
              rewrite length_app in Hr', Hok'. cbn in Hr', Hok'.
              exists c'.
              by replace (length l + S j)%nat with (length l + 1 + j)%nat by lia.
        -- intros k Hk. rewrite Hfr2, Hframe; [done| |].
           ++ apply Hk. by left.
           ++ intros key' Hin. apply Hk. by right.
Qed.

Lemma variants_nodup : NoDup VARIANTS.
Proof. by apply (bool_decide_unpack _). Qed.

Lemma columns_fresh key k :
  key ∈ VARIANTS -> k ∈ columns key ->
  k <> "n_tasks"%string /\ k <> "threadpool_capped_workers"%string /\
  k <> "asyncio_to_thread_capped_workers"%string /\
  k <> "threadpool_naive_workers"%string.
Proof.
  intros H Hk.
  apply variants_cases in H as [ -> | [ -> | [ -> | -> ]]];
  unfold columns in Hk; cbn in Hk;
  rewrite !elem_of_cons, elem_of_nil in Hk;
  destruct Hk as [ -> | [ -> | [ -> | []]]]; done.
Qed.

Lemma make_row_spec n l :
  match make_row cpu exec n l with
  | (inr row, l') =>
      l' = l ++ row_calls cpu n /\ row_ok cpu exec (length l) n row
  | (inl e, l') =>
      exists (j : nat) c,
        row_calls cpu n !! j = Some c /\
        exec (length l + j)%nat c = inl e /\ ~ recordable (inl e) /\
        l' = l ++ take (S j) (row_calls cpu n) /\
        forall (j' : nat) c', (j' < j)%nat ->
          row_calls cpu n !! j' = Some c' ->
          recordable (exec (length l + j')%nat c')
  end.
Proof.
  unfold make_row, mbind, B_bind, b_bind.
  pose proof (record_variants_spec VARIANTS n {["n_tasks"%string := VInt n]} l
                variants_nodup) as H.
  assert (Hall : Forall (fun key => key ∈ VARIANTS) VARIANTS)
    by by apply Forall_forall.
  specialize (H Hall). fold (row_calls cpu n) in H.
  destruct (record_variants cpu exec VARIANTS n _ l) as [[e|row] l1]; [exact H|].
  destruct H as (-> & Hcs & Hfr). cbn. split; [done|].
  unfold row_ok. rewrite lookup_insert_eq.
  rewrite (lookup_insert_ne _ "threadpool_naive_workers"%string
             "asyncio_to_thread_capped_workers"%string) by done.
  rewrite lookup_insert_eq.
  rewrite !(lookup_insert_ne _ _ "threadpool_capped_workers"%string) by done.
  rewrite lookup_insert_eq.
  rewrite !(lookup_insert_ne _ _ "n_tasks"%string) by done.
  rewrite Hfr, lookup_singleton_eq.
  2:{ intros key Hkey Hin. by destruct (columns_fresh key _ Hkey Hin). }
  repeat (split; [done|]).
  intros j key Hj. destruct (Hcs j key Hj) as (c & Hc & Hr & Hok).
  exists c. split; [done|]. split; [done|].
  eapply cells_ok_frame; [|exact Hok].
  intros k Hk.
  destruct (columns_fresh key k) as (_ & ? & ? & ?); [|done|].
  { by eapply list_elem_of_lookup_2. }
  by rewrite !lookup_insert_ne by done.
Qed.

Lemma row_calls_length n : length (row_calls cpu n) = 4%nat.
Proof. reflexivity. Qed.

Lemma row_calls_lookup n (j : nat) c :
  row_calls cpu n !! j = Some c ->
  exists key, VARIANTS !! j = Some key /\ call_of cpu key n = Some c.
Proof.
  destruct j as [|[|[|[|j]]]]; cbn; intros [= <-]; by eexists.
Qed.

Lemma planned_calls_cons n ns :
  planned_calls cpu (n :: ns) = row_calls cpu n ++ planned_calls cpu ns.
Proof. reflexivity. Qed.

Lemma make_rows_spec ns l :
  match make_rows cpu exec ns l with
  | (inr rs, l') =>
      l' = l ++ planned_calls cpu ns /\ length rs = length ns /\
      (forall (i : nat) n row, ns !! i = Some n -> rs !! i = Some row ->
         row_ok cpu exec (length l + 4 * i)%nat n row) /\
      (forall (k : nat) c, planned_calls cpu ns !! k = Some c ->
         recordable (exec (length l + k)%nat c))
  | (inl e, l') =>
      exists (k : nat) c,
        planned_calls cpu ns !! k = Some c /\
        exec (length l + k)%nat c = inl e /\ ~ recordable (inl e) /\
        l' = l ++ take (S k) (planned_calls cpu ns) /\
        forall (k' : nat) c', (k' < k)%nat ->
          planned_calls cpu ns !! k' = Some c' ->
          recordable (exec (length l + k')%nat c')
  end.
Proof.
  revert l. induction ns as [|n rest IH]; intros l.
  - cbn. rewrite app_nil_r. split; [done|]. split; [done|]. split.
    + intros i n row Hi. by rewrite lookup_nil in Hi.
    + intros k c Hk. by rewrite lookup_nil in Hk.
  - cbn [make_rows]. unfold mbind, B_bind, b_bind.
    rewrite planned_calls_cons.
    assert (Hfirst : forall row (k' : nat) c',
      row_ok cpu exec (length l) n row -> (k' < 4)%nat ->
      row_calls cpu n !! k' = Some c' ->
      recordable (exec (length l + k')%nat c')).
    { intros row k' c' Hok Hs Hk'.
      apply row_calls_lookup in Hk' as (key & Hkey & Hc').
      destruct Hok as (_ & _ & _ & _ & Hok).
      destruct (Hok k' key Hkey) as (c2 & Hc2 & Hr & _).
      congruence. }
    pose proof (make_row_spec n l) as Hrow.
    destruct (make_row cpu exec n l) as [[e|row] l1].
    + destruct Hrow as (j & c & Hj & He & Hnr & -> & Hbefore).
      pose proof (lookup_lt_Some _ _ _ Hj) as Hlt.
      exists j, c. rewrite lookup_app_l by done.
      rewrite take_app_le by lia.
      repeat (split; [done|]).
      intros k' c' Hk'. rewrite lookup_app_l by lia. by apply Hbefore.
    + destruct Hrow as (-> & Hok).
      specialize (IH (l ++ row_calls cpu n)).
      destruct (make_rows cpu exec rest (l ++ row_calls cpu n))
        as [[e|rs] l2].
      * destruct IH as (k & c & Hk & He & Hnr & -> & Hbefore).
        rewrite length_app, row_calls_length in He.
        exists (4 + k)%nat, c.
        rewrite lookup_app_r by (rewrite row_calls_length; lia).
        rewrite row_calls_length.
        replace (4 + k - 4)%nat with k by lia.
        replace (length l + (4 + k))%nat with (length l + 4 + k)%nat by lia.
        split; [done|]. split; [done|]. split; [done|]. split.
        { rewrite <- app_assoc. by f_equal. }
        intros k' c' Hlt Hk'.
        destruct (decide (k' < 4)%nat) as [Hs|Hs].
        -- rewrite lookup_app_l in Hk' by (rewrite row_calls_length; lia).
           by apply (Hfirst row).
        -- rewrite lookup_app_r in Hk' by (rewrite row_calls_length; lia).
           rewrite row_calls_length in Hk'.
           specialize (Hbefore (k' - 4)%nat c' ltac:(lia) Hk').
           rewrite length_app, row_calls_length in Hbefore.
           by replace (length l + k')%nat
             with (length l + 4 + (k' - 4))%nat by lia.
      * destruct IH as (-> & Hlen & Hrows & Hrec). unfold mret, B_ret, b_ret.
        split; [by rewrite <- app_assoc|]. split; [by cbn; rewrite Hlen|]. split.
        -- intros [|i] n' row' Hn Hr; cbn in Hn, Hr.
           ++ injection Hn as <-. injection Hr as <-.
              by replace (length l + _)%nat with (length l) by lia.
           ++ specialize (Hrows i n' row' Hn Hr).
              rewrite length_app, row_calls_length in Hrows.
              by replace (length l + _)%nat
                with (length l + 4 + 4 * i)%nat by lia.
        -- intros k c Hk.
           destruct (decide (k < 4)%nat) as [Hs|Hs].
           ++ rewrite lookup_app_l in Hk by (rewrite row_calls_length; lia).
              by apply (Hfirst row).
           ++ rewrite lookup_app_r in Hk by (rewrite row_calls_length; lia).
              rewrite row_calls_length in Hk.
              specialize (Hrec (k - 4)%nat c Hk).
              rewrite length_app, row_calls_length in Hrec.
              by replace (length l + k)%nat
                with (length l + 4 + (k - 4))%nat by lia.
Qed.

End Env.

End BenchFacts.

(* ===================================================================== *)
(** * The claims of the specification *)
(* ===================================================================== *)

Import Chan Worker WorkerFacts Examples Runner RunnerFacts.

(** C1. For [iters >= 1] and [n_pairs >= 1], in every completed run of
    either variant each pair has seen exactly [iters] puts and [iters]
    gets on each of its two channels, that is [2 * iters] operations per
    channel and pair, and [n_pairs * (2 * iters)] operations over the
    [n_pairs] first channels, and as many over the second channels. *)
Theorem completed_run_operation_counts (c0 iters n_pairs : Z) :
  1 <= iters -> 1 <= n_pairs ->
  (forall s, Threads.reachable c0 iters n_pairs s -> Threads.completed s ->
     run_counts iters n_pairs (Threads.pairs s)) /\
  (forall s, Aio.reachable c0 iters n_pairs s -> Aio.completed s ->
     run_counts iters n_pairs (Aio.pairs s)).
Proof.
  intros Hi Hn. split; intros s Hr Hc.
  - apply ThreadsFacts.inv_reachable in Hr.
    apply settled_run_counts; [lia|lia|apply Hr|].
    by eapply ThreadsFacts.completed_settled.
  - apply AioFacts.aio_inv_reachable in Hr.
    destruct (AioFacts.aio_completed_settled _ _ _ Hr Hc) as [Hl Hs].
    apply settled_run_counts; auto; lia.
Qed.

Lemma completed_run_operation_counts_witness :
  1 <= 2 /\ 1 <= 1 /\
  (exists s, Threads.run 2 (thread_schedule 2) (Threads.init 0 2 1) = Some s /\
             Threads.completed s /\ run_counts 2 1 (Threads.pairs s)) /\
  (exists s, Aio.run 2 1 (aio_schedule 2) (Aio.init 0) = Some s /\
             Aio.completed s /\ run_counts 2 1 (Aio.pairs s)).
Proof.
  assert (H1 : 1 <= 2) by lia. assert (H2 : 1 <= 1) by lia.
  destruct (completed_run_operation_counts 0 2 1 H1 H2) as [Ht Ha].
  split; [exact H1|]. split; [exact H2|]. split.
  - eexists. split; [vm_compute; reflexivity|]. split; [reflexivity|].
    apply Ht; [|reflexivity]. exists (thread_schedule 2). vm_compute. reflexivity.
  - eexists. split; [vm_compute; reflexivity|]. split; [reflexivity|].
    apply Ha; [|reflexivity]. exists (aio_schedule 2). vm_compute. reflexivity.
Defined.

(** C2. For [iters >= 1], in both variants: at every moment of a run the
    values got from a channel are, in order, the values put into it, less
    the one still in its slot; and in a completed run the gets on the first
    channel returned exactly [0, 1, ..., iters-1] in this order, which are
    the pinger's puts, and the same holds for the second channel. *)
Theorem channel_values_in_order (c0 iters n_pairs : Z) :
  1 <= iters ->
  (forall s, Threads.reachable c0 iters n_pairs s ->
     Forall (fun p => fifo_prefix (q1 p) /\ fifo_prefix (q2 p)) (Threads.pairs s) /\
     (Threads.completed s ->
      Forall (fun p => fifo_complete iters (q1 p) /\ fifo_complete iters (q2 p))
        (Threads.pairs s))) /\
  (forall s, Aio.reachable c0 iters n_pairs s ->
     Forall (fun p => fifo_prefix (q1 p) /\ fifo_prefix (q2 p)) (Aio.pairs s) /\
     (Aio.completed s ->
      Forall (fun p => fifo_complete iters (q1 p) /\ fifo_complete iters (q2 p))
        (Aio.pairs s))).
Proof.
  intros _. split; intros s Hr.
  - apply ThreadsFacts.inv_reachable in Hr. split.
    + eapply Forall_impl; [apply Hr|]. apply pair_inv_fifo.
    + intros Hc. eapply Forall_impl; [by eapply ThreadsFacts.completed_settled|].
      apply settled_fifo.
  - apply AioFacts.aio_inv_reachable in Hr. split.
    + eapply Forall_impl; [by eapply AioFacts.pairs_inv|]. apply pair_inv_fifo.
    + intros Hc. destruct (AioFacts.aio_completed_settled _ _ _ Hr Hc) as [_ Hs].
      eapply Forall_impl; [exact Hs|]. apply settled_fifo.
Qed.

Lemma channel_values_in_order_witness :
  1 <= 3 /\
  (exists s, Threads.run 3 (thread_schedule 3) (Threads.init 0 3 1) = Some s /\
     Threads.completed s /\
     Forall (fun p => get_log (q1 p) = [0; 1; 2] /\ get_log (q2 p) = [0; 1; 2])
       (Threads.pairs s)) /\
  (exists s, Aio.run 3 1 (aio_schedule 3) (Aio.init 0) = Some s /\
     Aio.completed s /\
     Forall (fun p => get_log (q1 p) = [0; 1; 2] /\ get_log (q2 p) = [0; 1; 2])
       (Aio.pairs s)).
Proof.
  assert (H1 : 1 <= 3) by lia.
  destruct (channel_values_in_order 0 3 1 H1) as [Ht Ha].
  split; [exact H1|]. split.
  - eexists. split; [vm_compute; reflexivity|]. split; [reflexivity|].
    eapply Forall_impl.
    + apply Ht; [|reflexivity]. exists (thread_schedule 3). vm_compute. reflexivity.
    + intros p [[_ H] [_ H']]. split; [exact H|exact H'].
  - eexists. split; [vm_compute; reflexivity|]. split; [reflexivity|].
    eapply Forall_impl.
    + apply Ha; [|reflexivity]. exists (aio_schedule 3). vm_compute. reflexivity.
    + intros p [[_ H] [_ H']]. split; [exact H|exact H'].
Defined.

(** C3, counterexample.  One pair: after the driver has started both
    threads and read the clock, the start timestamp is recorded ([t0] is
    set) while the driver has not yet called [start.wait()]: nobody has
    arrived at the barrier, which needs three arrivals. *)
Lemma timestamp_precedes_barrier :
  exists s,
    Threads.run 1 [(Threads.Driver, 1%nat); (Threads.Driver, 1%nat); (Threads.Driver, 1%nat)]
      (Threads.init 0 1 1) = Some s /\
    Threads.t0 s = Some 3 /\ Threads.driver s = Threads.DArrive /\
    Threads.arrived s = 0 /\ Threads.parties s = 3.
Proof. eexists. split; [vm_compute; reflexivity|]. repeat split. Qed.


(** C3, as the code has it.  In the thread variant the driver reads the
    start timestamp after it has started every worker thread and before
    its own [start.wait()]: whenever the driver is in or past the barrier
    the timestamp is already recorded; once it is recorded all threads are
    started and it is not later than the clock; and as long as it is not
    recorded no channel operation has happened.  The elapsed time that is
    returned is measured from that reading: a run that returns [e] splits
    into the steps before the reading, which hold all [2 * pairs] thread
    starts of the driver and no channel operation, the reading itself, which
    leaves the driver in front of [start.wait()], the steps between the two
    readings of the clock, which hold the driver's barrier arrival, its
    leaving the barrier and its [2 * pairs] joins, and the final reading;
    and [e] is the time that passes from the first reading to the final
    one.  So the time of the thread starts is not part of [e], and the
    time the driver spends in the barrier is. *)
Theorem timestamp_read_before_wait (c0 iters n_pairs : Z)
    (sched : list (Threads.actor * nat)) (s : Threads.state) :
  Threads.run iters sched (Threads.init c0 iters n_pairs) = Some s ->
  (Threads.driver_arrived (Threads.driver s) = 1 -> is_Some (Threads.t0 s)) /\
  (forall a, Threads.t0 s = Some a ->
     a <= Threads.clock s /\
     forall i, Threads.thread_started (Threads.driver s) i = true) /\
  (Threads.t0 s = None ->
     Threads.driver_arrived (Threads.driver s) = 0 /\
     total pair_ops (Threads.pairs s) = 0) /\
  (forall e, Threads.ret s = Some e ->
     exists pre d0 mid d1 post s0 s1,
       sched = pre ++ (Threads.Driver, d0) :: mid ++ (Threads.Driver, d1) :: post /\
       Threads.run iters pre (Threads.init c0 iters n_pairs) = Some s0 /\
       Threads.driver s0 = Threads.DNow0 /\
       Threads.driver_steps pre = (2 * Z.to_nat n_pairs)%nat /\
       (forall i, Threads.thread_started (Threads.driver s0) i = true) /\
       total pair_ops (Threads.pairs s0) = 0 /\
       Threads.step iters (Threads.Driver, d0) s0 = Some s1 /\
       Threads.driver s1 = Threads.DArrive /\
       Threads.t0 s1 = Some (Threads.clock s0 + Z.of_nat d0) /\
       Threads.t0 s = Threads.t0 s1 /\
       Threads.driver_steps mid = (2 + 2 * Z.to_nat n_pairs)%nat /\
       Threads.driver_steps post = 0%nat /\
       e = Threads.ticks mid + Z.of_nat d1).
Proof.
  intros Hrun.
  assert (Hr : Threads.inv iters n_pairs s)
    by (apply (ThreadsFacts.inv_reachable c0); by exists sched).
  pose proof (Threads.inv_t0 _ _ _ Hr) as Ht.
  split; [|split; [|split]].
  - destruct (Threads.driver s); simpl; try discriminate; intros _;
      destruct Ht as (a & -> & _); done.
  - intros a Ha. destruct (Threads.driver s); simpl; try congruence;
      destruct Ht as (b & Hb & Hle); (split; [congruence|done]).
  - intros Hn.
    assert (Hd : Threads.driver_arrived (Threads.driver s) = 0).
    { destruct (Threads.driver s); simpl; try done;
        destruct Ht as (b & Hb & _); congruence. }
    split; [done|]. by eapply ThreadsFacts.before_arrival_no_ops.
  - intros e He.
    pose proof (ThreadsFacts.timeline_run _ _ _ _ _ Hrun) as [_ Htl].
    pose proof (Threads.inv_ret _ _ _ Hr) as Hret.
    destruct (Threads.driver s); try congruence.
    destruct Htl as (pre & d0 & mid & d1 & post & s0 & -> & Hpre & Hd0 & Hcnt & Hmid
                     & Hpost & Ht0 & Hre).
    pose proof (ThreadsFacts.timeline_run _ _ _ _ _ Hpre) as [Hc0 Htl0].
    rewrite Hd0 in Htl0. destruct Htl0 as [_ Hnone].
    assert (Hr0 : Threads.inv iters n_pairs s0)
      by (apply (ThreadsFacts.inv_reachable c0); by exists pre).
    exists pre, d0, mid, d1, post, s0,
      (Threads.State (Threads.clock s0 + Z.of_nat d0) Threads.DArrive
         (Threads.arrived s0) (Threads.parties s0)
         (Some (Threads.clock s0 + Z.of_nat d0)) (Threads.ret s0) (Threads.pairs s0)).
    split; [done|]. split; [done|]. split; [done|]. split; [done|].
    split; [by rewrite Hd0|].
    split.
    { eapply ThreadsFacts.before_arrival_no_ops; [exact Hr0|].
      by rewrite Hd0. }
    split.
    { unfold Threads.step, Threads.driver_step. cbn. by rewrite Hd0. }
    split; [done|]. split; [done|].
    split; [cbn; rewrite Ht0, Hc0; done|].
    split; [done|]. split; [done|]. congruence.
Qed.

Lemma timestamp_read_before_wait_witness :
  exists s,
    Threads.run 1 (thread_schedule 1) (Threads.init 0 1 1) = Some s /\
    Threads.ret s = Some 13 /\
    exists pre d0 mid d1 post,
      thread_schedule 1
        = pre ++ (Threads.Driver, d0) :: mid ++ (Threads.Driver, d1) :: post /\
      Threads.driver_steps pre = 2%nat /\
      Threads.driver_steps mid = 4%nat /\
      13 = Threads.ticks mid + Z.of_nat d1.
Proof.
  destruct (Threads.run 1 (thread_schedule 1) (Threads.init 0 1 1)) as [s|] eqn:E;
    [|vm_compute in E; discriminate].
  exists s. split; [reflexivity|].
  assert (Hret : Threads.ret s = Some 13)
    by (vm_compute in E; injection E as <-; reflexivity).
  split; [exact Hret|].
  destruct (timestamp_read_before_wait 0 1 1 (thread_schedule 1) s E)
    as (_ & _ & _ & H).
  destruct (H 13 Hret)
    as (pre & d0 & mid & d1 & post & s0 & s1 & Hs & _ & _ & Hp & _ & _ & _ & _ & _
        & _ & Hm & _ & He).
  exists pre, d0, mid, d1, post. split; [exact Hs|]. split; [exact Hp|].
  split; [exact Hm|exact He].
Defined.

(** C4. In the thread variant with [n_pairs] pairs the barrier has
    [2 * n_pairs + 1] parties.  A worker at the entry of its function can
    only arrive at the barrier, which touches no channel; a worker inside
    [start.wait()] leaves only when the barrier is full, which touches no
    channel either.  Hence, whenever a worker of some pair is in its loop
    (or past it), or a channel operation has happened, the barrier count
    is [2 * n_pairs + 1]: all workers and the driver have arrived. *)
Theorem barrier_gates_channel_operations (c0 iters n_pairs : Z) (s : Threads.state) :
  Threads.reachable c0 iters n_pairs s ->
  Threads.parties s = 2 * n_pairs + 1 /\
  (forall i dt s2,
     Threads.thread_pc s i = Some PcStart ->
     Threads.step iters (Threads.Thread i, dt) s = Some s2 ->
     Threads.thread_pc s2 i = Some PcWait /\
     Threads.arrived s2 = Threads.arrived s + 1 /\
     total pair_ops (Threads.pairs s2) = total pair_ops (Threads.pairs s)) /\
  (forall i dt s2,
     Threads.thread_pc s i = Some PcWait ->
     Threads.step iters (Threads.Thread i, dt) s = Some s2 ->
     Threads.arrived s = Threads.parties s /\
     total pair_ops (Threads.pairs s2) = total pair_ops (Threads.pairs s)) /\
  (forall j p,
     Threads.pairs s !! j = Some p ->
     in_loop (ping p) = true \/ in_loop (pong p) = true \/ 0 < pair_ops p ->
     Threads.arrived s = 2 * n_pairs + 1 /\
     Threads.driver_arrived (Threads.driver s) = 1 /\
     Forall (fun q => has_arrived (ping q) = true /\ has_arrived (pong q) = true)
       (Threads.pairs s)).
Proof.
  intros Hr. apply ThreadsFacts.inv_reachable in Hr.
  split; [apply Hr|]. split; [|split].
  - intros i dt s2. apply ThreadsFacts.first_action_arrive.
  - intros i dt s2. apply ThreadsFacts.leave_barrier.
  - intros j p Hj Hc.
    assert (Ho : Threads.arrived s = Threads.parties s).
    { destruct Hc as [Hc|[Hc|Hc]].
      - by apply (Threads.inv_open _ _ _ Hr j p Pinger).
      - by apply (Threads.inv_open _ _ _ Hr j p Ponger).
      - destruct (ThreadsFacts.ops_in_loop _ _ _ _ _ Hr Hj Hc) as [r Hl].
        by apply (Threads.inv_open _ _ _ Hr j p r). }
    split; [by rewrite Ho; apply Hr|].
    apply (ThreadsFacts.open_everybody_arrived iters n_pairs); auto.
    intros E. by rewrite E in Hj.
Qed.

Lemma barrier_gates_channel_operations_witness :
  exists s,
    Threads.run 2 (take 10 (thread_schedule 2)) (Threads.init 0 2 1) = Some s /\
    Threads.pairs s !! 0%nat =
      Some (Pair (Queue [0] 1 [0] []) (Queue [] 1 [] []) (PcGet 0) (PcGet 0)) /\
    Threads.parties s = 3 /\ Threads.arrived s = 3.
Proof.
  eexists. split; [vm_compute; reflexivity|]. split; [reflexivity|].
  match goal with |- Threads.parties ?s = _ /\ _ =>
    assert (Hr : Threads.reachable 0 2 1 s)
      by (exists (take 10 (thread_schedule 2)); vm_compute; reflexivity);
    destruct (barrier_gates_channel_operations 0 2 1 s Hr) as (Hp & _ & _ & Hg)
  end.
  split; [exact Hp|].
  destruct (Hg 0%nat _ eq_refl (or_introl eq_refl)) as [Ha _]. exact Ha.
Defined.

(** C5. [parse_pairs] raises a [ValueError] when a listed value is an
    integer that is not positive, and when nothing is listed (so for ["0"]
    and for the empty string); an error of [parse_pairs] ends [main] with
    this error before any measurement is started and before any line is
    printed; and when at least one value is listed and every listed value
    is a positive integer literal, no error is raised. *)
Theorem invalid_pair_counts_rejected
    (bench : variant -> nat -> Z -> Z -> exn + float) (plt : option pyplot)
    (iters : Z) (plot : bool) (s : string) :
  (forall part v, In part (listed s) -> int_of_string part = Some v -> v <= 0 ->
     is_value_error (parse_pairs s)) /\
  (listed s = [] -> is_value_error (parse_pairs s)) /\
  (forall e, parse_pairs s = inl e ->
     is_value_error (parse_pairs s) /\
     run_main bench plt (Args iters s plot) = (inl e, [])) /\
  (listed s <> [] ->
   Forall (fun part => exists v, positive_literal part v) (listed s) ->
   exists vals, parse_pairs s = inr vals /\ Forall2 positive_literal (listed s) vals) /\
  is_value_error (parse_pairs "0") /\ is_value_error (parse_pairs "").
Proof.
  split; [|split; [|split; [|split; [|split]]]].
  - intros part v. apply parse_pairs_bad.
  - intros He. rewrite (parse_pairs_empty s He). by eexists.
  - intros e He. split.
    + destruct (parse_pairs_error s e He) as [msg ->]. rewrite He. by eexists.
    + by apply main_parse_error.
  - apply parse_pairs_good.
  - by eexists.
  - by eexists.
Qed.

Lemma invalid_pair_counts_rejected_witness :
  listed "4, -2" = ["4"; "-2"]%string /\
  is_value_error (parse_pairs "4, -2") /\
  run_main (bench_const (seconds 1 0) (seconds 1 0)) plt_ok (Args 10 "4, -2" true)
    = (inl (ValueError "pairs must be > 0"), []) /\
  parse_pairs "1,2, 4 ,,8" = inr [1; 2; 4; 8].
Proof.
  pose proof (invalid_pair_counts_rejected (bench_const (seconds 1 0) (seconds 1 0))
                plt_ok 10 true "4, -2")
    as (Hbad & _ & Herr & _).
  split; [reflexivity|]. split.
  - apply (Hbad "-2"%string (-2)); [vm_compute; auto|reflexivity|lia].
  - split; [|reflexivity]. apply Herr. reflexivity.
Defined.

(** C6, counterexample.  The cooperative measurement for pair-count 1
    fails: [main] ends with that error after starting this one measurement;
    the thread measurement for pair-count 1 is never started, no line is
    printed, nothing is recorded for the failed configuration, and
    pair-count 2 is not measured at all. *)
Lemma failed_measurement_aborts_main :
  run_main bench_asyncio_fails plt_ok (Args 10 "1,2" false)
  = (inl (RuntimeError "can't start new thread"), [Measure Asyncio 10 1]).
Proof. vm_compute. reflexivity. Qed.

(** C6, as the code has it.  [main] has no handler: when a measurement
    raises, in iteration [length pre] of the loop and for variant [v],
    after all earlier measurements got to their printed line, [main] ends
    with that very error.  What it has done by then is what the earlier
    iterations did, then, if the thread measurement is the one that failed,
    the cooperative measurement and its line, and last the start of the
    failed measurement: no line for the failed configuration and no later
    measurement. *)
Theorem measurement_error_propagates
    (bench : variant -> nat -> Z -> Z -> exn + float) (plt : option pyplot)
    (ar : args) (pre : list Z) (p : Z) (rest : list Z) (v : variant) (e : exn) :
  parse_pairs (arg_pairs ar) = inr (pre ++ p :: rest) ->
  all_ok bench (arg_iters ar) 0 pre ->
  (v = OsThreads -> is_ok (outcome bench Asyncio (length pre) (arg_iters ar) p)) ->
  bench v (length pre) (arg_iters ar) p = inl e ->
  exists log,
    run_main bench plt ar = (inl e, log) /\
    log = loop_events bench (arg_iters ar) 0 pre
          ++ failed_events bench (arg_iters ar) (length pre) p v /\
    last log = Some (Measure v (arg_iters ar) p) /\
    measured log =
      (pre ≫= fun q => [(Asyncio, q); (OsThreads, q)])
      ++ match v with Asyncio => [] | OsThreads => [(Asyncio, p)] end
      ++ [(v, p)].
Proof.
  intros Hp Hok Hv He. eexists. split.
  { apply (main_measurement_error _ _ _ pre p rest v e Hp Hok Hv).
    apply outcome_inl. by left. }
  split; [done|]. split.
  - apply last_Some. destruct v; simpl.
    + by eexists.
    + exists (loop_events bench (arg_iters ar) 0 pre ++
              [Measure Asyncio (arg_iters ar) p;
               Row Asyncio p
                 (dt_of (outcome bench Asyncio (length pre) (arg_iters ar) p))
                 (shown_of (outcome bench Asyncio (length pre) (arg_iters ar) p))]).
      by rewrite <- app_assoc.
  - rewrite measured_app, loop_events_measured. by destruct v.
Qed.

Lemma measurement_error_propagates_witness :
  parse_pairs "1,2" = inr ([] ++ 1 :: [2]) /\
  exists log,
    run_main bench_asyncio_fails plt_ok (Args 10 "1,2" false)
      = (inl (RuntimeError "can't start new thread"), log) /\
    last log = Some (Measure Asyncio 10 1).
Proof.
  split; [reflexivity|].
  destruct (measurement_error_propagates bench_asyncio_fails plt_ok (Args 10 "1,2" false)
              [] 1 [2] Asyncio (RuntimeError "can't start new thread"))
    as (log & Hrun & _ & Hlast & _).
  - reflexivity.
  - exact I.
  - discriminate.
  - reflexivity.
  - exists log. split; [exact Hrun|exact Hlast].
Defined.

(** C7, counterexample.  One iteration, one pair, and both measurements
    take 2 seconds, a strictly positive time: the throughput computed is
    half an operation per second, and the throughput reported on both
    lines is [int(0.5)], that is 0: it is not strictly positive, and it is
    not the quotient of the iterations by the elapsed time. *)
Lemma slow_run_reports_zero_throughput :
  exists rep,
    run_main (bench_const (seconds 2 0) (seconds 2 0)) plt_ok (Args 1 "1" false)
    = (inr rep,
       [Measure Asyncio 1 1; Row Asyncio 1 (seconds 2 0) 0;
        Measure OsThreads 1 1; Row OsThreads 1 (seconds 2 0) 0]) /\
    float_gt0 (seconds 2 0) = true /\
    rps_async rep !! 1 = Some (seconds 1 (-1)) /\
    rps_thr rep !! 1 = Some (seconds 1 (-1)) /\
    int_of_float (seconds 1 (-1)) = inr 0.
Proof. eexists. split; [vm_compute; reflexivity|]. repeat split. Qed.

(** C7, as the code has it.  In a run of [main] with [iters >= 1] that
    ends normally, every printed line carries a pair-count [p >= 1], its
    elapsed time [dt] and the integer part of the throughput [rps] computed
    from them; [rps] is the binary64 quotient of [iters * p] (converted to
    a float) by [dt] when [dt > 0] and [0.0] otherwise; it is a finite
    number, it is not negative, and it is strictly positive when [dt] is a
    positive binary64 number (not an infinity).  The integer that is
    printed is not negative; it is 0 whenever [rps] is below 1.  The
    speedups are computed, for the measured pair-counts in increasing
    order, from the two throughputs recorded last for that pair-count, each
    of them behind a printed line; the speedup is the binary64 quotient of
    the cooperative throughput by the thread throughput when the latter is
    positive, as it is for an elapsed time that is a positive binary64
    number, and [0.0] otherwise. *)
Theorem reported_throughput_and_speedup
    (bench : variant -> nat -> Z -> Z -> exn + float) (plt : option pyplot)
    (ar : args) (rep : report) (log : list event) :
  1 <= arg_iters ar ->
  run_main bench plt ar = (inr rep, log) ->
  Forall (fun ev =>
    match ev with
    | Row _ p dt shown =>
        1 <= p /\
        exists rps,
          throughput (arg_iters ar) p dt = inr rps /\
          int_of_float rps = inr shown /\
          (float_gt0 dt = true ->
           exists n, float_of_int (arg_iters ar * p) = inr n /\
                     rps = SFdiv prec emax n dt) /\
          (float_gt0 dt = false -> rps = fzero) /\
          (float_gt0 dt = true -> is_finite dt = true ->
           valid_binary prec emax dt = true -> float_gt0 rps = true) /\
          is_finite rps = true /\ has_sign false rps /\ 0 <= shown
    | _ => True
    end) log /\
  Forall2 (fun x y => exists ra rt dt_a dt_t shown_a shown_t,
    In (Row Asyncio x dt_a shown_a) log /\ In (Row OsThreads x dt_t shown_t) log /\
    throughput (arg_iters ar) x dt_a = inr ra /\
    throughput (arg_iters ar) x dt_t = inr rt /\
    rps_async rep !! x = Some ra /\ rps_thr rep !! x = Some rt /\
    (float_gt0 rt = true -> y = SFdiv prec emax ra rt) /\
    (float_gt0 rt = false -> y = fzero) /\
    (float_gt0 dt_t = true -> is_finite dt_t = true ->
     valid_binary prec emax dt_t = true -> y = SFdiv prec emax ra rt))
    (xs rep) (ys rep).
Proof.
  intros Hi Hrun.
  destruct (main_inr _ _ _ _ _ Hrun) as (ps & Hp & Hok & (Hrec & Hxs & Hys) & _ & ->).
  pose proof (positive_pairs _ _ Hp) as Hps.
  split.
  - apply Forall_app. split.
    + eapply Forall_impl; [by apply (loop_events_reported bench (arg_iters ar) 0 ps)|].
      intros [v i p|v p dt shown|x y|]; simpl; auto.
      intros (Hp1 & rps & Ht & Hs & Hpos & Hneg). split; [done|].
      exists rps. split; [done|]. split; [done|]. split; [done|]. split; [done|].
      split.
      { intros Hg Hf Hv.
        apply (throughput_positive (arg_iters ar) p dt rps); [nia|done..]. }
      destruct (throughput_inr _ _ _ _ Ht) as (_ & _ & Hsign).
      assert (Hsg : has_sign false rps).
      { destruct (float_gt0 dt); [|done].
        replace (arg_iters ar * p <? 0) with false in Hsign; [done|].
        symmetry. apply Z.ltb_ge. nia. }
      split; [by eapply int_of_float_inr|]. split; [done|].
      by eapply int_of_float_nonneg.
    + destruct (arg_plot ar); repeat constructor.
  - eapply Forall2_impl; [exact Hys|]. intros x y (ra & rt & Ha & Ht & ->).
    pose proof (record_all_rows bench (arg_iters ar) 0 ps ∅ ∅ x Hok) as [Hra Hrt].
    rewrite <- Hrec in Hra, Hrt. simpl in Hra, Hrt.
    destruct (Hra ra Ha) as [Hl|(dt_a & sa & Hina & Hta & _)];
      [by rewrite lookup_empty in Hl|].
    destruct (Hrt rt Ht) as [Hl|(dt_t & st & Hint & Htt & _)];
      [by rewrite lookup_empty in Hl|].
    exists ra, rt, dt_a, dt_t, sa, st.
    split; [apply in_or_app; by left|]. split; [apply in_or_app; by left|].
    split; [done|]. split; [done|]. split; [done|]. split; [done|].
    destruct (speedup_of_gt0 ra rt) as [Hgt Hle].
    split; [done|]. split; [done|].
    intros Hg Hf Hv. apply Hgt.
    assert (Hx1 : 1 <= x).
    { pose proof (loop_events_reported bench (arg_iters ar) 0 ps Hps Hok) as Hall.
      rewrite Forall_forall in Hall.
      by destruct (Hall _ (proj2 (list_elem_of_In _ _) Hint)) as [? _]. }
    apply (throughput_positive (arg_iters ar) x dt_t rt); [nia|done..].
Qed.

Lemma reported_throughput_and_speedup_witness :
  1 <= 5 /\
  exists rep log,
    run_main (bench_const (seconds 1 (-1)) (seconds 2 0)) plt_ok (Args 5 "2,1" true)
      = (inr rep, log) /\
    xs rep = [1; 2] /\ ys rep = [seconds 4 0; seconds 4 0] /\
    In (Row Asyncio 2 (seconds 1 (-1)) 20) log /\
    In (Row OsThreads 2 (seconds 2 0) 5) log /\
    Forall (fun ev =>
      match ev with
      | Row _ p dt shown =>
          1 <= p /\
          exists rps,
            throughput 5 p dt = inr rps /\
            int_of_float rps = inr shown /\
            (float_gt0 dt = true ->
             exists n, float_of_int (5 * p) = inr n /\ rps = SFdiv prec emax n dt) /\
            (float_gt0 dt = false -> rps = fzero) /\
            (float_gt0 dt = true -> is_finite dt = true ->
             valid_binary prec emax dt = true -> float_gt0 rps = true) /\
            is_finite rps = true /\ has_sign false rps /\ 0 <= shown
      | _ => True
      end) log.
Proof.
  assert (H1 : 1 <= 5) by lia. split; [exact H1|].
  destruct (run_main (bench_const (seconds 1 (-1)) (seconds 2 0)) plt_ok
              (Args 5 "2,1" true)) as [[e|rep] log] eqn:E;
    [vm_compute in E; discriminate|].
  exists rep, log. split; [reflexivity|].
  pose proof (reported_throughput_and_speedup _ _ (Args 5 "2,1" true) rep log H1 E)
    as [Hrows _].
  vm_compute in E. injection E as <- <-.
  split; [reflexivity|]. split; [reflexivity|].
  split; [simpl; tauto|]. split; [simpl; tauto|]. exact Hrows.
Defined.

(** C8, counterexample.  A pair-count listed twice is kept twice by
    [parse_pairs] and is measured twice under each variant. *)
Lemma repeated_pair_count_measured_twice :
  parse_pairs "1,1" = inr [1; 1] /\
  measured (run_main (bench_const (seconds 1 0) (seconds 2 0)) plt_ok
              (Args 5 "1,1" false)).2
  = [(Asyncio, 1); (OsThreads, 1); (Asyncio, 1); (OsThreads, 1)].
Proof. split; vm_compute; reflexivity. Qed.

(** C8, as the code has it.  [parse_pairs] returns the listed values in
    the order of the list, repetitions included, each of them a positive
    integer; a run of [main] that ends normally has measured every entry
    of that list once under each variant, in this order.  Only the
    pair-counts the speedups are computed for are free of repetitions:
    they are the listed values in strictly increasing order. *)
Theorem pair_counts_in_listing_order (s : string) (vals : list Z) :
  parse_pairs s = inr vals ->
  Forall2 positive_literal (listed s) vals /\
  forall (bench : variant -> nat -> Z -> Z -> exn + float) (plt : option pyplot)
         (iters : Z) (plot : bool) (rep : report) (log : list event),
    run_main bench plt (Args iters s plot) = (inr rep, log) ->
    measured log = (vals ≫= fun p => [(Asyncio, p); (OsThreads, p)]) /\
    StronglySorted Z.lt (xs rep) /\
    (forall x, x ∈ xs rep <-> x ∈ vals).
Proof.
  intros Hp. split; [by apply parse_pairs_inr in Hp as [? _]|].
  intros bench plt iters plot rep log Hrun.
  destruct (main_inr _ _ _ _ _ Hrun) as (ps & Hp2 & Hok & (Hrec & Hxs & Hys) & _ & ->).
  simpl in *. rewrite Hp in Hp2. injection Hp2 as <-.
  split; [|split].
  - rewrite measured_app, loop_events_measured.
    destruct plot; simpl; by rewrite app_nil_r.
  - rewrite Hxs. apply sorted_keys_spec.
  - intros x. rewrite Hxs.
    destruct (sorted_keys_spec (dom (rps_async rep) ∩ dom (rps_thr rep))) as [_ ->].
    pose proof (record_all_dom bench iters 0 vals ∅ ∅) as [Ha Ht].
    rewrite <- Hrec in Ha, Ht. simpl in Ha, Ht. rewrite Ha, Ht.
    rewrite !dom_empty_L, !union_empty_l_L, intersection_idemp_L.
    apply elem_of_list_to_set.
Qed.

Lemma pair_counts_in_listing_order_witness :
  parse_pairs "4,1,4" = inr [4; 1; 4] /\
  exists rep log,
    run_main (bench_const (seconds 1 0) (seconds 2 0)) plt_ok (Args 5 "4,1,4" false)
      = (inr rep, log) /\
    xs rep = [1; 4] /\
    measured log = ([4; 1; 4] ≫= fun p => [(Asyncio, p); (OsThreads, p)]).
Proof.
  split; [reflexivity|].
  destruct (run_main (bench_const (seconds 1 0) (seconds 2 0)) plt_ok
              (Args 5 "4,1,4" false)) as [[e|rep] log] eqn:E;
    [vm_compute in E; discriminate|].
  exists rep, log. split; [reflexivity|].
  destruct (pair_counts_in_listing_order "4,1,4" [4; 1; 4] eq_refl) as [_ Hm].
  destruct (Hm _ _ _ _ _ _ E) as [Hmeas _].
  vm_compute in E. injection E as <- <-.
  split; [reflexivity|exact Hmeas].
Defined.

(** C9. For [iters >= 1] and [n_pairs >= 1] both variants terminate:
    every run is finite, no reachable state other than the final one is
    stuck (no deadlock), in the final state every worker has completed its
    loop and the call has returned a non-negative elapsed time, and the
    final state is reached. *)
Theorem both_variants_terminate (c0 iters n_pairs : Z) :
  1 <= iters -> 1 <= n_pairs ->
  Threads.terminates c0 iters n_pairs /\ Aio.terminates c0 iters n_pairs.
Proof.
  intros _ Hn. split.
  - apply ThreadsFacts.threads_terminate. lia.
  - apply AioFacts.asyncio_terminates.
Qed.

Lemma both_variants_terminate_witness :
  1 <= 2 /\ 1 <= 2 /\
  Threads.pingpong_threads 0 1 (Threads.bound 2 2) 2 2 = Some 31 /\
  Aio.pingpong_asyncio 0 1 (Aio.bound 2 2) 2 2 = Some 15 /\
  Threads.terminates 0 2 2 /\ Aio.terminates 0 2 2.
Proof.
  assert (H1 : 1 <= 2) by lia.
  split; [exact H1|]. split; [exact H1|].
  split; [vm_compute; reflexivity|]. split; [vm_compute; reflexivity|].
  exact (both_variants_terminate 0 2 2 H1 H1).
Defined.

(** C10. For [iters <= 0] (and a pair count that is not negative) both
    variants complete normally: they terminate as in C9, no channel
    operation is ever performed, and the elapsed time returned is not
    negative. *)
Theorem nonpositive_iterations_complete (c0 iters n_pairs : Z) :
  iters <= 0 -> 0 <= n_pairs ->
  (Threads.terminates c0 iters n_pairs /\
   forall s, Threads.reachable c0 iters n_pairs s ->
     total pair_ops (Threads.pairs s) = 0) /\
  (Aio.terminates c0 iters n_pairs /\
   forall s, Aio.reachable c0 iters n_pairs s ->
     total pair_ops (Aio.pairs s) = 0).
Proof.
  intros Hi Hn. split; split.
  - by apply ThreadsFacts.threads_terminate.
  - intros s Hr. apply ThreadsFacts.inv_reachable in Hr.
    apply total_zero. eapply Forall_impl; [apply Hr|].
    intros p. by apply pair_inv_no_iters.
  - apply AioFacts.asyncio_terminates.
  - intros s Hr. apply AioFacts.aio_inv_reachable in Hr.
    by eapply AioFacts.no_iters_no_ops.
Qed.

Lemma nonpositive_iterations_complete_witness :
  -1 <= 0 /\ 0 <= 1 /\
  (exists s, Threads.run (-1) (thread_schedule 0) (Threads.init 0 (-1) 1) = Some s /\
     Threads.completed s /\ Threads.ret s = Some 9 /\
     total pair_ops (Threads.pairs s) = 0) /\
  (exists s, Aio.run (-1) 1 (aio_schedule 0) (Aio.init 0) = Some s /\
     Aio.completed s /\ Aio.ret s = Some 5 /\
     total pair_ops (Aio.pairs s) = 0).
Proof.
  assert (H1 : -1 <= 0) by lia. assert (H2 : 0 <= 1) by lia.
  destruct (nonpositive_iterations_complete 0 (-1) 1 H1 H2) as [[_ Ht] [_ Ha]].
  split; [exact H1|]. split; [exact H2|]. split.
  - eexists. split; [vm_compute; reflexivity|]. split; [reflexivity|]. split; [reflexivity|].
    apply Ht. exists (thread_schedule 0). vm_compute. reflexivity.
  - eexists. split; [vm_compute; reflexivity|]. split; [reflexivity|]. split; [reflexivity|].
    apply Ha. exists (aio_schedule 0). vm_compute. reflexivity.
Defined.

(* ===================================================================== *)
(** * Further properties of the code *)
(* ===================================================================== *)

(** X1. Lockstep.  At every moment of a run of either variant at most one
    token is in flight in a pair (its two queues hold at most one value
    between them), and the four operation counters of the pair follow each
    other in a ring without ever being more than one apart: gets on the
    second channel, puts on the second, gets on the first, puts on the
    first. *)
Theorem one_token_in_flight (c0 iters n_pairs : Z) :
  (forall s, Threads.reachable c0 iters n_pairs s -> Forall lockstep (Threads.pairs s)) /\
  (forall s, Aio.reachable c0 iters n_pairs s -> Forall lockstep (Aio.pairs s)).
Proof.
  split; intros s Hr.
  - apply ThreadsFacts.inv_reachable in Hr.
    eapply Forall_impl; [apply Hr|]. apply pair_inv_lockstep.
  - apply AioFacts.aio_inv_reachable, AioFacts.pairs_inv in Hr.
    eapply Forall_impl; [exact Hr|]. apply pair_inv_lockstep.
Qed.

Lemma one_token_in_flight_witness :
  exists s,
    Threads.run 2 (take 11 (thread_schedule 2)) (Threads.init 0 2 1) = Some s /\
    Threads.pairs s !! 0%nat =
      Some (Pair (Queue [] 1 [0] [0]) (Queue [] 1 [] []) (PcGet 0) (PcPut 0 0)) /\
    Forall lockstep (Threads.pairs s).
Proof.
  eexists. split; [vm_compute; reflexivity|]. split; [reflexivity|].
  apply (proj1 (one_token_in_flight 0 2 1)).
  exists (take 11 (thread_schedule 2)). vm_compute. reflexivity.
Defined.

(** X2. No race inside a pair.  At every moment of a run of either variant
    the pinger and the ponger of a pair are never both able to perform a
    channel operation: one of them is blocked (or outside its loop). *)
Theorem pair_workers_never_both_enabled (c0 iters n_pairs : Z) :
  (forall s, Threads.reachable c0 iters n_pairs s ->
     Forall (fun p => pair_step iters Pinger p = None \/ pair_step iters Ponger p = None)
       (Threads.pairs s)) /\
  (forall s, Aio.reachable c0 iters n_pairs s ->
     Forall (fun p => pair_step iters Pinger p = None \/ pair_step iters Ponger p = None)
       (Aio.pairs s)).
Proof.
  split; intros s Hr.
  - apply ThreadsFacts.inv_reachable in Hr.
    eapply Forall_impl; [apply Hr|]. apply pair_one_enabled.
  - apply AioFacts.aio_inv_reachable, AioFacts.pairs_inv in Hr.
    eapply Forall_impl; [exact Hr|]. apply pair_one_enabled.
Qed.

Lemma pair_workers_never_both_enabled_witness :
  exists s,
    Aio.run 2 1 (take 3 (aio_schedule 2)) (Aio.init 0) = Some s /\
    Aio.pairs s = [Pair (Queue [0] 1 [0] []) (Queue [] 1 [] []) (PcGet 0) PcStart] /\
    Forall (fun p => pair_step 2 Pinger p = None \/ pair_step 2 Ponger p = None)
      (Aio.pairs s).
Proof.
  eexists. split; [vm_compute; reflexivity|]. split; [reflexivity|].
  apply (proj2 (pair_workers_never_both_enabled 0 2 1)).
  exists (take 3 (aio_schedule 2)). vm_compute. reflexivity.
Defined.

(** X3. A turn of a worker task in the cooperative variant.  When the
    event loop runs a pinger or ponger task, the task completes at most two
    channel operations, and at least one unless this is its first turn, and
    it stops blocked on a channel or out of its loop; the other tasks and
    the clock reading [t0] are untouched. *)
Theorem worker_turn_one_or_two_operations
    (c0 iters n_pairs : Z) (s s2 : Aio.state) (j dt : nat) (r : role) :
  Aio.reachable c0 iters n_pairs s ->
  Aio.step iters n_pairs (Aio.WorkerTask j r, dt) s = Some s2 ->
  exists p p2,
    Aio.tasks s !! j = Some (Aio.TRun p) /\
    Aio.tasks s2 = <[j := Aio.TRun p2]> (Aio.tasks s) /\
    Aio.main s2 = Aio.main s /\ Aio.t0 s2 = Aio.t0 s /\
    pair_ops p <= pair_ops p2 <= pair_ops p + 2 /\
    (worker_pc r p <> PcStart -> pair_ops p + 1 <= pair_ops p2) /\
    pair_step iters r p2 = None.
Proof.
  intros Hr Hs. apply AioFacts.aio_inv_reachable in Hr.
  unfold Aio.step, Aio.worker_task_step in Hs; simpl in Hs.
  destruct (Aio.tasks s !! j) as [t|] eqn:Hj; simpl in Hs; [|done].
  destruct t as [|p|p]; [done| |done].
  destruct (Aio.worker_run iters r p) as [p2|] eqn:Hw; simpl in Hs; [|done].
  injection Hs as <-. exists p, p2. simpl. repeat split; auto.
  all: pose proof (Forall_lookup_1 _ _ _ _ (Aio.inv_tasks _ _ _ Hr) Hj) as [Hpi _];
       by destruct (AioFacts.worker_run_turn _ _ _ _ Hpi Hw) as (? & ? & ?); try lia.
Qed.

Lemma worker_turn_one_or_two_operations_witness :
  exists s s2,
    Aio.run 2 1 (take 3 (aio_schedule 2)) (Aio.init 0) = Some s /\
    Aio.step 2 1 (Aio.WorkerTask 0 Ponger, 1%nat) s = Some s2 /\
    Aio.pairs s2 = [Pair (Queue [] 1 [0] [0]) (Queue [0] 1 [0] []) (PcGet 0) (PcGet 1)] /\
    exists p p2,
      Aio.tasks s !! 0%nat = Some (Aio.TRun p) /\
      Aio.tasks s2 = <[0%nat := Aio.TRun p2]> (Aio.tasks s) /\
      Aio.main s2 = Aio.main s /\ Aio.t0 s2 = Aio.t0 s /\
      pair_ops p <= pair_ops p2 <= pair_ops p + 2 /\
      (worker_pc Ponger p <> PcStart -> pair_ops p + 1 <= pair_ops p2) /\
      pair_step 2 Ponger p2 = None.
Proof.
  eexists. eexists. split; [vm_compute; reflexivity|].
  split; [vm_compute; reflexivity|]. split; [reflexivity|].
  apply (worker_turn_one_or_two_operations 0 2 1 _ _ 0%nat 1%nat Ponger).
  - exists (take 3 (aio_schedule 2)). vm_compute. reflexivity.
  - vm_compute. reflexivity.
Defined.

(** X4. The barrier is never over-subscribed.  In the thread variant with
    a non-negative pair count, the number of arrivals at the start barrier
    is the number of workers that have called [start.wait()] plus one if
    the driver has, and it never exceeds the [2 * pairs + 1] parties: no
    party arrives twice. *)
Theorem barrier_arrivals_bounded (c0 iters n_pairs : Z) (s : Threads.state) :
  0 <= n_pairs ->
  Threads.reachable c0 iters n_pairs s ->
  Threads.arrived s =
    total Threads.arrivals (Threads.pairs s) + Threads.driver_arrived (Threads.driver s) /\
  0 <= Threads.arrived s <= Threads.parties s.
Proof.
  intros Hn Hr. apply ThreadsFacts.inv_reachable in Hr.
  pose proof (Threads.inv_arrived _ _ _ Hr) as Ha.
  pose proof (Threads.inv_parties _ _ _ Hr) as Hp.
  pose proof (Threads.inv_len _ _ _ Hr) as Hl.
  pose proof (total_le Threads.arrivals 2 (Threads.pairs s) ThreadsFacts.arrivals_le).
  pose proof (ThreadsFacts.total_nonneg Threads.arrivals (Threads.pairs s)
                ThreadsFacts.arrivals_nonneg).
  assert (0 <= Threads.driver_arrived (Threads.driver s) <= 1)
    by (destruct (Threads.driver s); simpl; lia).
  split; [done|lia].
Qed.

Lemma barrier_arrivals_bounded_witness :
  0 <= 1 /\
  exists s,
    Threads.run 2 (take 6 (thread_schedule 2)) (Threads.init 0 2 1) = Some s /\
    Threads.arrived s = 3 /\ Threads.parties s = 3 /\
    0 <= Threads.arrived s <= Threads.parties s.
Proof.
  assert (H : 0 <= 1) by lia. split; [exact H|].
  eexists. split; [vm_compute; reflexivity|]. split; [reflexivity|]. split; [reflexivity|].
  apply (barrier_arrivals_bounded 0 2 1 _ H).
  exists (take 6 (thread_schedule 2)). vm_compute. reflexivity.
Defined.

(** X5. The outcome does not depend on the schedule or on the variant.
    Every completed run of the thread variant and every completed run of
    the cooperative variant, for the same iteration and pair counts, end
    with the same pairs: [range(pairs)] copies of the pair whose two
    channels are empty and have each seen the values [0 .. iters-1] put and
    got in order. *)
Theorem completed_runs_agree (c0 c1 iters n_pairs : Z)
    (st : Threads.state) (sa : Aio.state) :
  Threads.reachable c0 iters n_pairs st -> Threads.completed st ->
  Aio.reachable c1 iters n_pairs sa -> Aio.completed sa ->
  Threads.pairs st = replicate (Z.to_nat n_pairs) (final_pair iters) /\
  Aio.pairs sa = Threads.pairs st.
Proof.
  intros Ht Hct Ha Hca.
  apply ThreadsFacts.inv_reachable in Ht. apply AioFacts.aio_inv_reachable in Ha.
  assert (Et : Threads.pairs st = replicate (Z.to_nat n_pairs) (final_pair iters)).
  { rewrite <- (Threads.inv_len _ _ _ Ht). apply Forall_eq_replicate.
    apply Forall_lookup_2. intros j p Hj. apply pair_done_final.
    - eapply Forall_lookup_1; [apply Ht|done].
    - pose proof (ThreadsFacts.completed_done _ _ _ Ht Hct) as Hd.
      rewrite Forall_lookup in Hd. by apply (Hd j p). }
  split; [done|]. rewrite Et.
  destruct (AioFacts.aio_completed_settled _ _ _ Ha Hca) as [Hl _].
  rewrite <- Hl. apply Forall_eq_replicate.
  apply Forall_lookup_2. intros j p Hj. apply pair_done_final.
  - eapply Forall_lookup_1; [by eapply AioFacts.pairs_inv|done].
  - destruct Ha as [H1 H2 H3]. unfold Aio.completed in Hca. rewrite Hca in H3.
    destruct H3 as [Hf _].
    pose proof (AioFacts.fin_tasks_done _ _ H1 Hf) as Hd.
    rewrite Forall_lookup in Hd. by apply (Hd j p).
Qed.

Lemma completed_runs_agree_witness :
  exists st sa,
    Threads.run 2 (thread_schedule 2) (Threads.init 0 2 1) = Some st /\
    Aio.run 2 1 (aio_schedule 2) (Aio.init 7) = Some sa /\
    Threads.pairs st = [Pair (Queue [] 1 [0; 1] [0; 1]) (Queue [] 1 [0; 1] [0; 1]) PcDone PcDone] /\
    Aio.pairs sa = Threads.pairs st.
Proof.
  eexists. eexists. split; [vm_compute; reflexivity|]. split; [vm_compute; reflexivity|].
  eapply (completed_runs_agree 0 7 2 1).
  - exists (thread_schedule 2). vm_compute. reflexivity.
  - reflexivity.
  - exists (aio_schedule 2). vm_compute. reflexivity.
  - reflexivity.
Defined.



(** X7. The plot.  In a run of [main] that ends normally there are as many
    speedups as pair-counts, and what was done is, in this order: the
    measurements and their lines; then, with [--plot], the one plot, of
    these pair-counts and speedups, which matplotlib was there to save,
    and last the line ["Wrote: pingpong_speedup.png"].  Without [--plot]
    there is no plot and no such line. *)
Theorem plot_follows_all_rows
    (bench : variant -> nat -> Z -> Z -> exn + float) (plt : option pyplot)
    (ar : args) (rep : report) (log : list event) :
  run_main bench plt ar = (inr rep, log) ->
  length (ys rep) = length (xs rep) /\
  exists ps,
    parse_pairs (arg_pairs ar) = inr ps /\
    List.filter is_plot (loop_events bench (arg_iters ar) 0 ps) = [] /\
    (Wrote ∉ loop_events bench (arg_iters ar) 0 ps) /\
    (if arg_plot ar then
       (exists draw, plt = Some draw /\ draw (xs rep) (ys rep) = inr tt) /\
       log = loop_events bench (arg_iters ar) 0 ps ++ [Plot (xs rep) (ys rep); Wrote]
     else log = loop_events bench (arg_iters ar) 0 ps).
Proof.
  intros Hrun.
  destruct (main_inr _ _ _ _ _ Hrun) as (ps & Hp & Hok & (Hrec & Hxs & Hys) & Hplt & Hlog).
  split; [symmetry; by eapply Forall2_length|].
  exists ps. split; [done|]. split; [apply loop_events_no_plot|]. split.
  { clear. generalize 0%nat. induction ps as [|p ps IH]; intros k; cbn [loop_events].
    - apply not_elem_of_nil.
    - rewrite elem_of_app. intros [H|H]; [|by apply (IH (S k))].
      unfold pair_events in H. rewrite !elem_of_cons, elem_of_nil in H.
      by destruct H as [?|[?|[?|[?|[]]]]]. }
  destruct (arg_plot ar).
  - split; [by apply Hplt|]. done.
  - by rewrite app_nil_r in Hlog.
Qed.

Lemma plot_follows_all_rows_witness :
  exists rep log rows,
    run_main (bench_const (seconds 1 (-1)) (seconds 2 0)) plt_ok (Args 5 "2,1" true)
      = (inr rep, log) /\
    log = rows ++ [Plot [1; 2] [seconds 4 0; seconds 4 0]; Wrote] /\
    length rows = 8%nat /\
    length (ys rep) = length (xs rep).
Proof.
  destruct (run_main (bench_const (seconds 1 (-1)) (seconds 2 0)) plt_ok
              (Args 5 "2,1" true)) as [[e|rep] log] eqn:E;
    [vm_compute in E; discriminate|].
  destruct (plot_follows_all_rows _ _ _ _ _ E) as (Hlen & ps & Hp & _ & _ & Hlog).
  cbn in Hp. injection Hp as <-. cbn [arg_plot] in Hlog. destruct Hlog as [_ Hlog].
  exists rep, log, (loop_events (bench_const (seconds 1 (-1)) (seconds 2 0)) 5 0 [2; 1]).
  split; [reflexivity|]. split.
  - rewrite Hlog. vm_compute in E. injection E as <- _. reflexivity.
  - split; [reflexivity|exact Hlen].
Defined.

(** X8. The last measurement counts.  [rps_async] and [rps_thr] are
    dictionaries keyed by the pair-count: when a pair-count is listed
    several times, what is recorded for it at the end of a run that ends
    normally is the throughput of its last measurement under each
    variant. *)
Theorem last_measurement_recorded
    (bench : variant -> nat -> Z -> Z -> exn + float) (plt : option pyplot)
    (ar : args) (rep : report) (log : list event) (ps : list Z) (i : nat) (x : Z) :
  run_main bench plt ar = (inr rep, log) ->
  parse_pairs (arg_pairs ar) = inr ps ->
  ps !! i = Some x -> x ∉ drop (S i) ps ->
  exists dt_a dt_t ra rt,
    bench Asyncio i (arg_iters ar) x = inr dt_a /\
    bench OsThreads i (arg_iters ar) x = inr dt_t /\
    throughput (arg_iters ar) x dt_a = inr ra /\
    throughput (arg_iters ar) x dt_t = inr rt /\
    rps_async rep !! x = Some ra /\
    rps_thr rep !! x = Some rt.
Proof. apply main_last. Qed.

Lemma last_measurement_recorded_witness :
  exists rep log,
    run_main bench_by_index plt_ok (Args 6 "2,1,2" false) = (inr rep, log) /\
    throughput 6 2 (seconds 3 0) = inr (seconds 4 0) /\
    throughput 6 2 (seconds 6 0) = inr (seconds 2 0) /\
    rps_async rep !! 2 = Some (seconds 4 0) /\
    rps_thr rep !! 2 = Some (seconds 2 0).
Proof.
  destruct (run_main bench_by_index plt_ok (Args 6 "2,1,2" false)) as [[e|rep] log] eqn:E;
    [vm_compute in E; discriminate|].
  exists rep, log. split; [reflexivity|].
  destruct (last_measurement_recorded bench_by_index plt_ok (Args 6 "2,1,2" false)
              rep log [2; 1; 2] 2%nat 2 E eq_refl eq_refl)
    as (dt_a & dt_t & ra & rt & Ha & Ht & Hta & Htt & Hra & Hrt).
  - apply not_elem_of_nil.
  - injection Ha as <-. injection Ht as <-.
    vm_compute in Hta, Htt. injection Hta as <-. injection Htt as <-.
    split; [reflexivity|]. split; [reflexivity|]. split; [exact Hra|exact Hrt].
Defined.

(** X9. Which throughputs a speedup is made of.  In a run of [main] that
    ends normally, the speedup computed for a pair-count is made of the
    two throughputs of the last measurement of that pair-count: their
    binary64 quotient, cooperative by threads, when the thread throughput
    is positive, and [0.0] otherwise.  (Being rounded three times, it is
    in general not the quotient of the two elapsed times.) *)
Theorem speedup_from_last_measurement
    (bench : variant -> nat -> Z -> Z -> exn + float) (plt : option pyplot)
    (ar : args) (rep : report) (log : list event) (ps : list Z) (i j : nat) (x : Z) :
  run_main bench plt ar = (inr rep, log) ->
  parse_pairs (arg_pairs ar) = inr ps ->
  ps !! i = Some x -> x ∉ drop (S i) ps ->
  xs rep !! j = Some x ->
  exists dt_a dt_t ra rt y,
    bench Asyncio i (arg_iters ar) x = inr dt_a /\
    bench OsThreads i (arg_iters ar) x = inr dt_t /\
    throughput (arg_iters ar) x dt_a = inr ra /\
    throughput (arg_iters ar) x dt_t = inr rt /\
    ys rep !! j = Some y /\
    (float_gt0 rt = true -> y = SFdiv prec emax ra rt) /\
    (float_gt0 rt = false -> y = fzero).
Proof.
  intros Hrun Hp Hx Hlast Hj.
  destruct (main_last _ _ _ _ _ _ _ _ Hrun Hp Hx Hlast)
    as (dt_a & dt_t & ra & rt & Ha & Ht & Hta & Htt & Hra & Hrt).
  destruct (main_inr _ _ _ _ _ Hrun) as (ps2 & Hp2 & _ & (_ & _ & Hys) & _).
  destruct (Forall2_lookup_l _ _ _ _ _ Hys Hj) as (y & Hy & ra' & rt' & Hra2 & Hrt2 & ->).
  rewrite Hra in Hra2. rewrite Hrt in Hrt2. injection Hra2 as <-. injection Hrt2 as <-.
  exists dt_a, dt_t, ra, rt. eexists.
  split; [done|]. split; [done|]. split; [done|]. split; [done|]. split; [done|].
  apply speedup_of_gt0.
Qed.

Lemma speedup_from_last_measurement_witness :
  exists rep log y,
    run_main (bench_const (seconds 1 0) (seconds 49 0)) plt_ok (Args 1 "1" false)
      = (inr rep, log) /\
    ys rep !! 0%nat = Some y /\
    y = SFdiv prec emax (SFdiv prec emax (seconds 1 0) (seconds 1 0))
                        (SFdiv prec emax (seconds 1 0) (seconds 49 0)) /\
    SFcompare (SFdiv prec emax (seconds 49 0) (seconds 1 0)) y = Some Lt.
Proof.
  destruct (run_main (bench_const (seconds 1 0) (seconds 49 0)) plt_ok
              (Args 1 "1" false)) as [[e|rep] log] eqn:E;
    [vm_compute in E; discriminate|].
  assert (Hxs : xs rep = [1]).
  { vm_compute in E. by injection E as <- _. }
  destruct (speedup_from_last_measurement _ plt_ok (Args 1 "1" false)
              rep log [1] 0%nat 0%nat 1 E eq_refl eq_refl)
    as (dt_a & dt_t & ra & rt & y & Ha & Ht & Hta & Htt & Hy & Hpos & _).
  - apply not_elem_of_nil.
  - by rewrite Hxs.
  - injection Ha as <-. injection Ht as <-.
    vm_compute in Hta, Htt. injection Hta as <-. injection Htt as <-.
    exists rep, log, y. split; [reflexivity|]. split; [exact Hy|].
    assert (Hyv : y = SFdiv prec emax (SFdiv prec emax (seconds 1 0) (seconds 1 0))
                        (SFdiv prec emax (seconds 1 0) (seconds 49 0)))
      by (apply Hpos; reflexivity).
    split; [exact Hyv|]. rewrite Hyv. reflexivity.
Defined.

(** X10. Lists compose.  Joining two lists of pair-counts with a comma
    gives the values of the first followed by the values of the second; a
    part with no entry at all (an empty string, blanks, stray commas) on
    either side changes nothing; and an error in the first part, other
    than its being empty, is the error of the whole. *)
Theorem parse_pairs_of_joined_lists (a b : string) :
  (forall va vb, parse_pairs a = inr va -> parse_pairs b = inr vb ->
     parse_pairs (String.append a (String ","%char b)) = inr (va ++ vb)) /\
  (listed a = [] -> parse_pairs (String.append a (String ","%char b)) = parse_pairs b) /\
  (listed b = [] -> parse_pairs (String.append a (String ","%char b)) = parse_pairs a) /\
  (forall e, parse_pairs a = inl e -> listed a <> [] ->
     parse_pairs (String.append a (String ","%char b)) = inl e).
Proof.
  split; [|split; [|split]].
  - intros va vb. apply parse_pairs_join.
  - apply parse_pairs_blank_l.
  - apply parse_pairs_blank_r.
  - intros e. apply parse_pairs_error_l.
Qed.

Lemma parse_pairs_of_joined_lists_witness :
  parse_pairs "1, 2" = inr [1; 2] /\ parse_pairs "4,,8" = inr [4; 8] /\
  parse_pairs (String.append "1, 2" (String ","%char "4,,8")) = inr ([1; 2] ++ [4; 8]) /\
  parse_pairs (String.append " " (String ","%char "4,,8")) = parse_pairs "4,,8".
Proof.
  split; [reflexivity|]. split; [reflexivity|]. split.
  - apply (proj1 (parse_pairs_of_joined_lists "1, 2" "4,,8")); reflexivity.
  - apply (proj1 (proj2 (parse_pairs_of_joined_lists " " "4,,8"))). reflexivity.
Defined.

Import FreeThread FreeThreadFacts Bench BenchFacts.

(** X11. [cpu_bound_task(n)], the sum of the squares below [n], is
    [(n - 1) * n * (2 * n - 1) / 6] for [n >= 0] and 0 for a negative
    [n] (the range is then empty). *)
Theorem cpu_bound_task_closed_form (n : Z) :
  6 * cpu_bound_task n = (Z.max 0 n - 1) * Z.max 0 n * (2 * Z.max 0 n - 1).
Proof.
  destruct (Z.le_gt_cases 0 n) as [Hn|Hn].
  - rewrite Z.max_r by done. revert n Hn.
    apply natlike_ind.
    + reflexivity.
    + intros n Hn IH. unfold Z.succ. rewrite cpu_bound_task_succ by done. lia.
  - rewrite cpu_bound_task_nonpos, Z.max_l by lia. reflexivity.
Qed.

(** X12. Error isolation in the table benchmark.  When each timed call
    of the run returns or raises an instance of [RuntimeError] (of a
    subclass, too), the loop finishes with one row per task count, having
    made exactly the planned calls (four per row, in the order of
    [VARIANTS]); every row holds its task count, the three worker counts,
    and for every variant either the measured time with [error = False]
    and an empty message, or [nan] with [error = True] and the [str] of
    the exception. *)
Theorem runtime_errors_recorded cpu exec :
  (forall (k : nat) c, planned_calls cpu n_tasks_list !! k = Some c ->
                       recordable (exec k c)) ->
  exists rs,
    rows cpu exec = (inr rs, planned_calls cpu n_tasks_list) /\
    length rs = length n_tasks_list /\
    forall (i : nat) n row,
      n_tasks_list !! i = Some n -> rs !! i = Some row ->
      row_ok cpu exec (4 * i)%nat n row.
Proof.
  intros Hrec. unfold rows.
  pose proof (make_rows_spec cpu exec n_tasks_list []) as H.
  destruct (make_rows cpu exec n_tasks_list []) as [[e|rs] l'].
  - destruct H as (k & c & Hk & He & Hnr & _).
    specialize (Hrec k c Hk). cbn in He. rewrite He in Hrec. done.
  - destruct H as (-> & Hlen & Hrows & _). exists rs.
    split; [done|]. split; [done|]. exact Hrows.
Qed.

Lemma runtime_errors_recorded_witness :
  exists rs row,
    rows (Some 8) exec_flaky = (inr rs, planned_calls (Some 8) n_tasks_list) /\
    length rs = length n_tasks_list /\
    rs !! 0%nat = Some row /\
    row !! "threadpool_capped_time_s"%string = Some (VFloat (seconds 1 0)) /\
    row !! "threadpool_naive_error_msg"%string
      = Some (VStr "can't start new thread") /\
    row !! "asyncio_sleep_time_s"%string = Some (VFloat nan) /\
    row !! "asyncio_sleep_error_msg"%string
      = Some (VStr "maximum recursion depth exceeded").
Proof.
  destruct (runtime_errors_recorded (Some 8) exec_flaky) as (rs & Hrows & Hlen & Hok).
  { intros k c _. unfold exec_flaky. destruct (Nat.even k); [exact I|].
    destruct (_ =? _)%nat; reflexivity. }
  destruct rs as [|row rs]; [discriminate Hlen|].
  destruct (Hok 0%nat 100 row eq_refl eq_refl) as (_ & _ & _ & _ & Hcells).
  exists (row :: rs), row. split; [exact Hrows|]. split; [exact Hlen|].
  split; [reflexivity|].
  destruct (Hcells 0%nat "threadpool_capped"%string eq_refl) as (c0 & Hc0 & _ & H0).
  destruct (Hcells 1%nat "threadpool_naive"%string eq_refl) as (c1 & Hc1 & _ & H1).
  destruct (Hcells 3%nat "asyncio_sleep"%string eq_refl) as (c3 & Hc3 & _ & H3).
  cbn in H0, H1, H3.
  destruct H0 as (H0 & _). destruct H1 as (_ & _ & _ & H1).
  destruct H3 as (_ & H3 & _ & H3').
  split; [exact H0|]. split; [exact H1|]. split; [exact H3|exact H3'].
Defined.

(** X13. The worker counts a row reports are the pool sizes its timed
    calls were given.  In a run that reaches the end of the loop, row [i]
    made the calls [4 i .. 4 i + 3]; the capped thread pool and the capped
    executor of the event loop got the same size [w], which is the row's
    [threadpool_capped_workers] and [asyncio_to_thread_capped_workers];
    the naive pool got [n] workers; the sleeping variant no executor.  For
    any processor count the system can report, [50 <= w <= 200] and
    [w <= n]. *)
Theorem reported_workers_are_pool_sizes cpu exec rs calls :
  match cpu with Some p => 0 <= p | None => True end ->
  rows cpu exec = (inr rs, calls) ->
  length rs = length n_tasks_list /\
  forall (i : nat) n row,
    n_tasks_list !! i = Some n -> rs !! i = Some row ->
    exists w,
      50 <= w <= 200 /\ w <= n /\
      calls !! (4 * i)%nat = Some (Threadpool n w) /\
      row !! "threadpool_capped_workers"%string = Some (VInt w) /\
      calls !! (4 * i + 1)%nat = Some (Threadpool n n) /\
      row !! "threadpool_naive_workers"%string = Some (VInt n) /\
      calls !! (4 * i + 2)%nat = Some (NewLoop (ToThreadCoro n) (Some w)) /\
      row !! "asyncio_to_thread_capped_workers"%string = Some (VInt w) /\
      calls !! (4 * i + 3)%nat = Some (NewLoop (SleepCoro n) None).
Proof.
  intros Hcpu Hrows. unfold rows in Hrows.
  pose proof (make_rows_spec cpu exec n_tasks_list []) as H.
  rewrite Hrows in H. destruct H as (-> & Hlen & Hok & _).
  split; [done|]. intros i n row Hn Hr.
  destruct (Hok i n row Hn Hr) as (_ & Hc & Ha & Hnv & _).
  exists (Z.min (CAPPED_WORKERS cpu) n).
  assert (Hcap : 50 <= CAPPED_WORKERS cpu <= 200).
  { unfold CAPPED_WORKERS, CPU. destruct cpu as [p|]; [|lia].
    destruct (Z.eqb_spec p 0); lia. }
  assert (Hn100 : 100 <= n).
  { apply list_elem_of_lookup_2 in Hn. unfold n_tasks_list in Hn.
    rewrite !elem_of_cons, elem_of_nil in Hn. lia. }
  split; [lia|]. split; [lia|].
  rewrite Hc, Ha, Hnv.
  destruct i as [|[|[|[|i]]]]; cbn in Hn; try done;
    injection Hn as <-; by cbn.
Qed.

Lemma reported_workers_are_pool_sizes_witness :
  exists rs calls,
  rows (Some 0) exec_flaky = (inr rs, calls) /\
  length rs = length n_tasks_list /\
  forall (i : nat) n row,
    n_tasks_list !! i = Some n -> rs !! i = Some row ->
    exists w,
      50 <= w <= 200 /\ w <= n /\
      calls !! (4 * i)%nat = Some (Threadpool n w) /\
      row !! "threadpool_capped_workers"%string = Some (VInt w) /\
      calls !! (4 * i + 1)%nat = Some (Threadpool n n) /\
      row !! "threadpool_naive_workers"%string = Some (VInt n) /\
      calls !! (4 * i + 2)%nat = Some (NewLoop (ToThreadCoro n) (Some w)) /\
      row !! "asyncio_to_thread_capped_workers"%string = Some (VInt w) /\
      calls !! (4 * i + 3)%nat = Some (NewLoop (SleepCoro n) None).
Proof.
  destruct (rows (Some 0) exec_flaky) as [[e|rs] calls] eqn:E.
  - exfalso. revert E. unfold rows, make_rows, make_row, record_variants,
      record_variant, mbind, B_bind, b_bind, mret, B_ret, b_ret. cbn. done.
  - exists rs, calls. split; [done|].
    apply (reported_workers_are_pool_sizes (Some 0) exec_flaky rs calls).
    + cbn. lia.
    + exact E.
Defined.

(** X14. Only instances of [RuntimeError] are caught.  If the [k]-th
    timed call is the first to raise an exception that is not an instance
    of [RuntimeError] (nor of a subclass of it), the script stops there
    with that exception: it has made the planned calls up to and including
    the [k]-th and no more, and the table is never built. *)
Theorem other_exception_stops_the_run cpu exec (k : nat) c e :
  planned_calls cpu n_tasks_list !! k = Some c ->
  (forall (k' : nat) c', (k' < k)%nat ->
     planned_calls cpu n_tasks_list !! k' = Some c' -> recordable (exec k' c')) ->
  exec k c = inl e -> isinstance e "RuntimeError" = false ->
  rows cpu exec = (inl e, take (S k) (planned_calls cpu n_tasks_list)).
Proof.
  intros Hk Hbefore He Hni.
  assert (Hnr : ~ recordable (inl e : exc + float))
    by (simpl; rewrite Hni; discriminate).
  unfold rows.
  pose proof (make_rows_spec cpu exec n_tasks_list []) as H.
  destruct (make_rows cpu exec n_tasks_list []) as [[e2|rs] l'].
  - destruct H as (k2 & c2 & Hk2 & He2 & Hnr2 & -> & Hb2).
    cbn [length Nat.add] in He2, Hb2.
    destruct (Nat.lt_trichotomy k k2) as [Hlt|[<-|Hlt]].
    + specialize (Hb2 k c Hlt Hk). rewrite He in Hb2. done.
    + rewrite Hk in Hk2. injection Hk2 as <-. rewrite He in He2.
      injection He2 as <-. done.
    + specialize (Hbefore k2 c2 Hlt Hk2). rewrite He2 in Hbefore. done.
  - destruct H as (_ & _ & _ & Hrec).
    specialize (Hrec k c Hk). cbn [length Nat.add] in Hrec.
    rewrite He in Hrec. done.
Qed.

Lemma other_exception_stops_the_run_witness :
  rows (Some 8) (exec_out_of_memory 5)
  = (inl memory_error, take 6 (planned_calls (Some 8) n_tasks_list)).
Proof.
  apply (other_exception_stops_the_run (Some 8) (exec_out_of_memory 5) 5
           (Threadpool 1000 1000)).
  - reflexivity.
  - intros k' c' Hlt _. unfold exec_out_of_memory, exec_flaky.
    destruct (Nat.eqb_spec k' 5); [lia|]. destruct (Nat.even k'); [exact I|].
    destruct (_ =? _)%nat; reflexivity.
  - reflexivity.
  - reflexivity.
Defined.

(** X15. [run_variant] makes exactly one timed call for each key of
    [VARIANTS], passing the task count on, and for no other string: any
    other variant raises [ValueError("Unknown variant: ...")] without
    timing anything.  So the loop over [VARIANTS] never reaches that
    [raise]. *)
Theorem run_variant_dispatch cpu exec key n l :
  (key ∈ VARIANTS <->
     exists c, n_tasks_of c = n /\
               run_variant cpu exec key n l = (exec (length l) c, l ++ [c])) /\
  (key ∉ VARIANTS <->
     run_variant cpu exec key n l
     = (inl (value_error (String.append "Unknown variant: " key)), l)).
Proof.
  assert (Hin : key ∈ VARIANTS ->
     exists c, n_tasks_of c = n /\
               run_variant cpu exec key n l = (exec (length l) c, l ++ [c])).
  { intros H. destruct (call_of_variants cpu key n H) as [c Hc].
    exists c. split; [|by apply run_variant_call].
    apply variants_cases in H as [ -> | [ -> | [ -> | -> ]]];
      cbn in Hc; by injection Hc as <-. }
  assert (Hout : key ∉ VARIANTS ->
     run_variant cpu exec key n l
     = (inl (value_error (String.append "Unknown variant: " key)), l)).
  { intros H. unfold run_variant.
    repeat match goal with
    | |- context [String.eqb key ?s] =>
        destruct (String.eqb_spec key s) as [Hk|_];
          [exfalso; apply H; subst key; unfold VARIANTS;
           rewrite !elem_of_cons; tauto|]
    end. done. }
  assert (Hlen : forall c, l ++ [c] <> l).
  { intros c Hc. apply (f_equal length) in Hc.
    rewrite length_app in Hc. cbn in Hc. lia. }
  split; split; try done.
  - intros (c & _ & Hc). destruct (decide (key ∈ VARIANTS)) as [|Hn]; [done|].
    rewrite (Hout Hn) in Hc. injection Hc as _ Hc. by destruct (Hlen c).
  - intros Hr Hk. destruct (Hin Hk) as (c & _ & Hc).
    rewrite Hr in Hc. injection Hc as _ Hc. by destruct (Hlen c).
Qed.

(** X16. Pool sizes.  For any processor count the system can report
    ([None], 0 or more) [CAPPED_WORKERS] lies between 50 and 200, and for
    task counts of at least 1 every planned timed call that sets a pool
    size asks for at least one worker and at most one per task; the size
    is at most 200 except for the naive thread pool, which gets one worker
    per task.  The only call without a pool size is the sleeping asyncio
    variant. *)
Theorem pool_sizes_within_bounds cpu ns c :
  match cpu with Some p => 0 <= p | None => True end ->
  Forall (fun n => 1 <= n) ns ->
  c ∈ planned_calls cpu ns ->
  50 <= CAPPED_WORKERS cpu <= 200 /\
  match max_workers_of c with
  | Some w => 1 <= w <= n_tasks_of c /\
              (w <= 200 \/ c = Threadpool (n_tasks_of c) (n_tasks_of c))
  | None => c = NewLoop (SleepCoro (n_tasks_of c)) None
  end.
Proof.
  intros Hcpu Hns Hc.
  assert (Hcap : 50 <= CAPPED_WORKERS cpu <= 200).
  { unfold CAPPED_WORKERS, CPU. destruct cpu as [p|]; [|lia].
    destruct (Z.eqb_spec p 0); lia. }
  split; [done|].
  unfold planned_calls in Hc. apply list_elem_of_bind in Hc as (n & Hc & Hn).
  eapply Forall_forall in Hns; [|exact Hn].
  unfold row_calls in Hc. cbn in Hc.
  rewrite !elem_of_cons, elem_of_nil in Hc.
  destruct Hc as [ -> | [ -> | [ -> | [ -> | []]]]]; cbn; try done.
  - split; [lia|]. left. lia.
  - split; [lia|]. by right.
  - split; [lia|]. left. lia.
Qed.

Lemma pool_sizes_within_bounds_witness :
  50 <= CAPPED_WORKERS None <= 200 /\
  (1 <= 100 <= 100 /\ (100 <= 200 \/ Threadpool 100 100 = Threadpool 100 100)).
Proof.
  apply (pool_sizes_within_bounds None n_tasks_list (Threadpool 100 100)).
  - exact I.
  - unfold n_tasks_list. repeat (apply Forall_cons; split; [lia|]). apply Forall_nil_2.
  - unfold planned_calls, n_tasks_list. cbn. rewrite !elem_of_cons. tauto.
Defined.
